(** * db_internals: SQL lexer and recursive-descent parser

    A shallow embedding of [lexer/lexer.go] and [parser/parser.go].

    Go strings are byte sequences; they are embedded as [string] (a list of
    8-bit [ascii]).  [rune(input[i])] is a byte widened to a rune, so a rune
    read by the lexer is embedded as the byte it came from.  Writing such a
    rune back ([strings.Builder.WriteRune], [string(ch)]) UTF-8 encodes it:
    one byte below 0x80, two bytes from 0x80 on. *)

From Stdlib Require Import String Ascii List Bool Arith NArith ZArith Lia.
From Stdlib Require Import DecimalString DecimalPos DecimalZ.
Import ListNotations.
Open Scope string_scope.
Open Scope list_scope.
Open Scope nat_scope.

(** ** Byte strings *)

Module GoString.

(** [string(ch)] and [WriteRune(ch)] for a rune obtained as [rune(b)], [b] a byte. *)
Definition string_of_rune (ch : ascii) : string :=
  let n := N_of_ascii ch in
  if (n <? 128)%N then String ch EmptyString
  else String (ascii_of_N (192 + n / 64)) (String (ascii_of_N (128 + n mod 64)) EmptyString).

(** [input[i]]: [None] is Go's index-out-of-range panic. *)
Definition index (s : string) (i : nat) : option ascii := String.get i s.

(** [input[lo:hi]]: [None] is Go's slice-bounds panic. *)
Definition slice (s : string) (lo hi : nat) : option string :=
  if (lo <=? hi) && (hi <=? String.length s) then Some (substring lo (hi - lo) s) else None.

Definition lower_byte (c : ascii) : ascii :=
  let n := N_of_ascii c in
  if (65 <=? n)%N && (n <=? 90)%N then ascii_of_N (n + 32) else c.

Definition upper_byte (c : ascii) : ascii :=
  let n := N_of_ascii c in
  if (97 <=? n)%N && (n <=? 122)%N then ascii_of_N (n - 32) else c.

Fixpoint map_bytes (f : ascii -> ascii) (s : string) : string :=
  match s with
  | EmptyString => EmptyString
  | String c r => String (f c) (map_bytes f r)
  end.

(** [strings.ToLower], [strings.ToUpper] and [strings.EqualFold].  The program
    only ever compares their results with ASCII words (the keyword table, the
    statement names, AND/OR).  On a string whose runes are all below U+0100,
    which is every token value the lexer builds, Go's Unicode case mapping
    sends no non-ASCII rune to an ASCII one, so these comparisons are decided
    by the ASCII letters alone; the embedding maps ASCII letters and leaves
    every other byte alone. *)
Definition ToLower (s : string) : string := map_bytes lower_byte s.
Definition ToUpper (s : string) : string := map_bytes upper_byte s.
Definition EqualFold (s t : string) : bool := String.eqb (ToLower s) (ToLower t).

(** [strings.Contains(v, sep)] for a one-byte [sep]. *)
Fixpoint ContainsByte (v : string) (sep : ascii) : bool :=
  match v with
  | EmptyString => false
  | String c r => Ascii.eqb c sep || ContainsByte r sep
  end.

(** [strings.SplitN(v, sep, 2)[0]] for a one-byte [sep]: the part of [v]
    before the first [sep], all of [v] when there is none. *)
Fixpoint before_first (v : string) (sep : ascii) : string :=
  match v with
  | EmptyString => EmptyString
  | String c r => if Ascii.eqb c sep then EmptyString else String c (before_first r sep)
  end.

(** All the bytes of [s], each written back as a rune. *)
Fixpoint write_runes (s : string) : string :=
  match s with
  | EmptyString => EmptyString
  | String c r => (string_of_rune c ++ write_runes r)%string
  end.

End GoString.

(** ** lexer/lexer.go *)

Module Lexer.
Import GoString.

Inductive TokenType : Set :=
| TokenKeyword | TokenIdentifier | TokenOperator | TokenNumber
| TokenString | TokenWhitespace | TokenSeparator | TokenUnknown.

Definition TokenType_eqb (a b : TokenType) : bool :=
  match a, b with
  | TokenKeyword, TokenKeyword | TokenIdentifier, TokenIdentifier
  | TokenOperator, TokenOperator | TokenNumber, TokenNumber
  | TokenString, TokenString | TokenWhitespace, TokenWhitespace
  | TokenSeparator, TokenSeparator | TokenUnknown, TokenUnknown => true
  | _, _ => false
  end.

(** [Token]'s field [Type] is named [Typ]. *)
Record Token : Set := mkToken { Typ : TokenType; Value : string }.

(** The three tables are Go maps to [bool] read with a missing key giving [false]. *)
Definition keywords (s : string) : bool :=
  existsb (String.eqb s)
    ["select"; "from"; "where"; "create"; "table"; "insert"; "into"; "values";
     "limit"; "and"; "or"; "null"; "update"; "delete"; "drop"].

Definition operators (s : string) : bool :=
  existsb (String.eqb s) ["="; "!="; "<"; ">"; "<="; ">="].

Definition separators (ch : ascii) : bool :=
  existsb (Ascii.eqb ch) [","; ";"; "("; ")"; "*"]%char.

Definition isWhitespace (ch : ascii) : bool :=
  Ascii.eqb ch " " || Ascii.eqb ch "009" || Ascii.eqb ch "010" || Ascii.eqb ch "013".

Definition isOperator (s : string) : bool := operators s.

Definition isSeparator (ch : ascii) : bool := separators ch.

Definition is_numeric_byte (ch : ascii) : bool :=
  let n := N_of_ascii ch in
  negb ((n <? 48)%N || (57 <? n)%N) || Ascii.eqb ch ".".

Fixpoint all_bytes (p : ascii -> bool) (s : string) : bool :=
  match s with
  | EmptyString => true
  | String c r => p c && all_bytes p r
  end.

(** [isNumeric] ranges over the runes of [value]; a rune passes only when it
    is an ASCII digit or '.', and every byte of a multi-byte or invalid
    sequence is at least 0x80, so the test is the same byte by byte. *)
Definition isNumeric (value : string) : bool :=
  if String.eqb value EmptyString then false else all_bytes is_numeric_byte value.

Definition createToken (value : string) : Token :=
  let lower := ToLower value in
  if keywords lower then mkToken TokenKeyword value
  else if isNumeric value then mkToken TokenNumber value
  else mkToken TokenIdentifier value.

(** The block repeated in [Tokenize]:
    [if current.Len() > 0 { tokens = append(tokens, createToken(current.String())); current.Reset() }].
    It returns the new [tokens] and [current]. *)
Definition flush (tokens : list Token) (current : string) : list Token * string :=
  if 0 <? String.length current then (tokens ++ [createToken current], EmptyString) else (tokens, current).

(** [bound < inputLength && isOperator(input[i:i+2])] with Go's short-circuit
    [&&]; used with [bound = i+1] on both line 95 and line 101. *)
Definition twoCharOperatorAt (input : string) (i : nat) : option bool :=
  if i + 1 <? String.length input then
    match slice input i (i + 2) with
    | Some s => Some (isOperator s)
    | None => None
    end
  else Some false.

(** The inner loop of the string branch:
    [for i < len(input) && rune(input[i]) != quote { current.WriteRune(rune(input[i])); i++ }].
    Returns the final [i] and [current]; [None] when [fuel] runs out or an
    index panics. *)
Fixpoint scanString (fuel : nat) (input : string) (quote : ascii) (i : nat) (current : string)
  : option (nat * string) :=
  if i <? String.length input then
    match index input i with
    | None => None
    | Some c =>
        if negb (Ascii.eqb c quote) then
          match fuel with
          | O => None
          | S fuel' => scanString fuel' input quote (i + 1) (current ++ string_of_rune c)%string
          end
        else Some (i, current)
    end
  else Some (i, current).

(** The main loop of [Tokenize], one iteration per unit of [fuel], followed by
    the final flush.  [None] when [fuel] runs out or an index or slice panics. *)
Fixpoint Tokenize_loop (fuel : nat) (input : string) (i : nat) (current : string)
  (tokens : list Token) : option (list Token) :=
  match fuel with
  | O => None
  | S fuel' =>
    let inputLength := String.length input in
    if i <? inputLength then
      match index input i with
      | None => None
      | Some ch =>
        if isWhitespace ch then
          let '(tokens, current) := flush tokens current in
          Tokenize_loop fuel' input (i + 1) current tokens
        else if isSeparator ch then
          let '(tokens, current) := flush tokens current in
          let tokens := tokens ++ [mkToken TokenSeparator (string_of_rune ch)] in
          Tokenize_loop fuel' input (i + 1) current tokens
        else
          match (if isOperator (string_of_rune ch) then Some true else twoCharOperatorAt input i) with
          | None => None
          | Some true =>
            (* the flush block of this branch also advances [i] *)
            let '(tokens, current, i) :=
              if 0 <? String.length current
              then (tokens ++ [createToken current], EmptyString, i + 1)
              else (tokens, current, i) in
            match twoCharOperatorAt input i with
            | None => None
            | Some true =>
              match slice input i (i + 2) with
              | None => None
              | Some op =>
                Tokenize_loop fuel' input (i + 2) current (tokens ++ [mkToken TokenOperator op])
              end
            | Some false =>
              Tokenize_loop fuel' input (i + 1) current
                (tokens ++ [mkToken TokenOperator (string_of_rune ch)])
            end
          | Some false =>
            if Ascii.eqb ch "'" || Ascii.eqb ch "034" then
              let '(tokens, current) := flush tokens current in
              let quote := ch in
              match scanString (String.length input) input quote (i + 1) current with
              | None => None
              | Some (i, current) =>
                let tokens := tokens ++ [mkToken TokenString current] in
                let current := EmptyString in
                let i := if i <? String.length input then i + 1 else i in
                Tokenize_loop fuel' input i current tokens
              end
            else
              Tokenize_loop fuel' input (i + 1) (current ++ string_of_rune ch)%string tokens
        end
      end
    else
      Some (if 0 <? String.length current then tokens ++ [createToken current] else tokens)
  end.

Definition Tokenize (input : string) : option (list Token) :=
  Tokenize_loop (S (String.length input)) input 0 EmptyString [].

End Lexer.

(** ** strconv.ParseUint(s, 10, 64) *)

Module Strconv.

Inductive NumError : Set := ErrSyntax | ErrRange.

Definition maxUint64 : Z := 18446744073709551615.

(** [cutoff] is the smallest number such that [cutoff * 10 > maxUint64]. *)
Definition cutoff : Z := maxUint64 / 10 + 1.

(** The digit loop of the Go standard library: a byte that is not a decimal
    digit is a syntax error, a value that leaves the 64-bit range is a range
    error; the accumulator is a [uint64], embedded as [Z] with the overflow
    test written on the unwrapped sum. *)
Fixpoint ParseUint_loop (s : string) (n : Z) : Z + NumError :=
  match s with
  | EmptyString => inl n
  | String c r =>
    let d := (Z.of_N (N_of_ascii c) - 48)%Z in
    if ((d <? 0) || (9 <? d))%Z then inr ErrSyntax
    else if (cutoff <=? n)%Z then inr ErrRange
    else
      let n1 := (n * 10 + d)%Z in
      if (maxUint64 <? n1)%Z then inr ErrRange else ParseUint_loop r n1
  end.

Definition ParseUint (s : string) : Z + NumError :=
  if String.eqb s EmptyString then inr ErrSyntax else ParseUint_loop s 0%Z.

End Strconv.

(** ** parser/parser.go *)

Module Parser.
Import GoString Lexer Strconv.

Record ProjectionItem : Set := mkProjectionItem { All : bool; Column : string }.

Record TableRef : Set := mkTableRef { Name : string }.

(** [ColumnDef]'s fields [Name] and [Type] are named [ColName] and [ColType]. *)
Record ColumnDef : Set := mkColumnDef { ColName : string; ColType : string }.

(** [Expr] is an empty interface in Go; the parser stores pointers to these
    structs in it.  [LiteralInt] holds a [uint64]. *)
Inductive Expr : Set :=
| ColumnRef (name : string)
| LiteralInt (value : Z)
| LiteralString (value : string)
| BinaryOp (left : Expr) (op : string) (right : Expr)
| LogicalOp (left : Expr) (op : string) (right : Expr)
| ComparisonOp (left : Expr) (op : string) (right : Expr).

(** [Selection] is a nil interface and [Limit] a nil pointer when absent. *)
Inductive AstNode : Set :=
| SelectStmt (Projections : list ProjectionItem) (From : TableRef)
             (Selection : option Expr) (Limit : option Z)
| InsertStmt (TableName : string) (Values : list Expr)
| CreateTableStmt (TableName : string) (Columns : list ColumnDef).

(** One constructor per [fmt.Errorf] call of the parser, carrying the values
    its format string prints ([None] for a nil token, printed as eof or nil),
    and one for an error passed on from [strconv.ParseUint]. *)
Inductive error : Set :=
| ErrExpectedKeyword (name : string) (got : option string)
| ErrUnexpectedEof
| ErrUnsupportedStatement (value : string)
| ErrEofAfterSelect
| ErrExpectedProjection (got : option Token)
| ErrExpectedTableAfterFrom
| ErrExpectedNumberAfterLimit
| ErrStrconv (e : NumError)
| ErrEofInExpression
| ErrExpectedLeftIdentifier (got : option Token)
| ErrExpectedComparisonOperator (got : option Token)
| ErrEofAfterOperator
| ErrUnexpectedRightSide (got : option Token)
| ErrExpectedTableAfterInto
| ErrEofInColumnList
| ErrExpectedValuesParen
| ErrEofInValues
| ErrExpectedOneValue
| ErrUnexpectedInValues (got : option Token)
| ErrExpectedCloseAfterValues
| ErrExpectedTableAfterCreate
| ErrExpectedParenAfterTable
| ErrEofInColumnDefs
| ErrExpectedOneColumn
| ErrExpectedColumnName (got : option Token)
| ErrExpectedColumnType (name : string).

(** The parser struct is a token slice and a cursor that only moves forward;
    its state is embedded as the tokens not yet consumed, [p.tokens[p.pos:]]. *)
Definition parser : Set := list Token.

(** A sub-parser's [(value, error)] result together with the parser state it
    leaves: [Ok v p] for [(v, nil)], [Err e] for [(nil, e)]. *)
Inductive result (A : Type) : Type :=
| Ok (v : A) (p : parser)
| Err (e : error).
Arguments Ok {A} v p.
Arguments Err {A} e.

Definition peek (p : parser) : option Token := hd_error p.

Definition next (p : parser) : option Token * parser :=
  match p with
  | [] => (None, [])
  | t :: r => (Some t, r)
  end.

(** [t.Type == typ], [t.Type == lexer.TokenSeparator && t.Value == v] and
    [t.Type == lexer.TokenKeyword && strings.EqualFold(t.Value, name)]. *)
Definition hasType (t : Token) (typ : TokenType) : bool := TokenType_eqb (Typ t) typ.

Definition isSep (t : Token) (v : string) : bool :=
  hasType t TokenSeparator && String.eqb (Value t) v.

Definition isKeyword (t : Token) (name : string) : bool :=
  hasType t TokenKeyword && EqualFold (Value t) name.

(** The same tests behind [p.peek() != nil &&]. *)
Definition peekIsSep (p : parser) (v : string) : bool :=
  match peek p with Some t => isSep t v | None => false end.

Definition peekIsKeyword (p : parser) (name : string) : bool :=
  match peek p with Some t => isKeyword t name | None => false end.

Definition consumeKeyword (name : string) (p : parser) : bool * parser :=
  match peek p with
  | None => (false, p)
  | Some t => if isKeyword t name then (true, snd (next p)) else (false, p)
  end.

Definition expectKeyword (name : string) (p : parser) : option error * parser :=
  let '(consumed, p) := consumeKeyword name p in
  if consumed then (None, p)
  else match peek p with
       | None => (Some (ErrExpectedKeyword name None), p)
       | Some t => (Some (ErrExpectedKeyword name (Some (Value t))), p)
       end.

Definition parseComparison (p : parser) : result Expr :=
  match peek p with
  | None => Err ErrEofInExpression
  | Some t =>
    if hasType t TokenIdentifier then
      let left := ColumnRef (Value t) in
      let p := snd (next p) in
      match peek p with
      | None => Err (ErrExpectedComparisonOperator None)
      | Some o =>
        if negb (hasType o TokenOperator) then Err (ErrExpectedComparisonOperator (Some o))
        else
          let op := Value o in
          let p := snd (next p) in
          match peek p with
          | None => Err ErrEofAfterOperator
          | Some r =>
            match Typ r with
            | TokenNumber =>
              let v := Value r in
              let p := snd (next p) in
              let v := if ContainsByte v "." then before_first v "." else v in
              match ParseUint v with
              | inr e => Err (ErrStrconv e)
              | inl u => Ok (ComparisonOp left op (LiteralInt u)) p
              end
            | TokenString => Ok (ComparisonOp left op (LiteralString (Value r))) (snd (next p))
            | TokenIdentifier => Ok (ComparisonOp left op (ColumnRef (Value r))) (snd (next p))
            | _ => Err (ErrUnexpectedRightSide (Some r))
            end
          end
      end
    else Err (ErrExpectedLeftIdentifier (Some t))
  end.

(** The loop of [parseLogical], one iteration per unit of [fuel]; [None] when
    [fuel] runs out. *)
Fixpoint parseLogical_loop (fuel : nat) (left : Expr) (p : parser) : option (result Expr) :=
  match peek p with
  | None => Some (Ok left p)
  | Some t =>
    if isKeyword t "AND" || isKeyword t "OR" then
      match fuel with
      | O => None
      | S fuel' =>
        let op := ToUpper (Value t) in
        let p := snd (next p) in
        match parseComparison p with
        | Err e => Some (Err e)
        | Ok rhs p => parseLogical_loop fuel' (LogicalOp left op rhs) p
        end
      end
    else Some (Ok left p)
  end.

Definition parseLogical (p : parser) : option (result Expr) :=
  match parseComparison p with
  | Err e => Some (Err e)
  | Ok lhs p => parseLogical_loop (List.length p) lhs p
  end.

(** The projection loop of [parseSelect] (the branch without the wildcard). *)
Fixpoint parseProjections (p : parser) (proj : list ProjectionItem)
  : result (list ProjectionItem) :=
  match p with
  | [] => Err (ErrExpectedProjection None)
  | t :: p1 =>
    if negb (hasType t TokenIdentifier) then Err (ErrExpectedProjection (Some t))
    else
      let proj := proj ++ [mkProjectionItem false (Value t)] in
      match p1 with
      | c :: p2 => if isSep c "," then parseProjections p2 proj else Ok proj p1
      | [] => Ok proj p1
      end
  end.

Definition parseSelect (p : parser) : option (result AstNode) :=
  let p := snd (next p) in
  match peek p with
  | None => Some (Err ErrEofAfterSelect)
  | Some t =>
    match (if isSep t "*" then Ok [mkProjectionItem true EmptyString] (snd (next p))
           else parseProjections p []) with
    | Err e => Some (Err e)
    | Ok proj p =>
      match expectKeyword "FROM" p with
      | (Some e, _) => Some (Err e)
      | (None, p) =>
        match peek p with
        | None => Some (Err ErrExpectedTableAfterFrom)
        | Some tn =>
          if negb (hasType tn TokenIdentifier) then Some (Err ErrExpectedTableAfterFrom)
          else
            let table := Value tn in
            let p := snd (next p) in
            match (if peekIsKeyword p "WHERE" then
                     match parseLogical (snd (next p)) with
                     | None => None
                     | Some (Err e) => Some (Err e)
                     | Some (Ok expr p) => Some (Ok (Some expr) p)
                     end
                   else Some (Ok None p)) with
            | None => None
            | Some (Err e) => Some (Err e)
            | Some (Ok selection p) =>
              if peekIsKeyword p "LIMIT" then
                let p := snd (next p) in
                match peek p with
                | None => Some (Err ErrExpectedNumberAfterLimit)
                | Some n =>
                  if negb (hasType n TokenNumber) then Some (Err ErrExpectedNumberAfterLimit)
                  else
                    let v := Value n in
                    let p := snd (next p) in
                    match ParseUint v with
                    | inr e => Some (Err (ErrStrconv e))
                    | inl u => Some (Ok (SelectStmt proj (mkTableRef table) selection (Some u)) p)
                    end
                end
              else Some (Ok (SelectStmt proj (mkTableRef table) selection None) p)
            end
        end
      end
    end
  end.

(** The loop of [parseInsert] that skips the optional column list; entered
    after the opening parenthesis, it returns the state after the closing one. *)
Fixpoint skipColumnList (p : parser) : result unit :=
  match p with
  | [] => Err ErrEofInColumnList
  | t :: p1 =>
    if isSep t ")" then Ok tt p1
    else
      match p1 with
      | c :: p2 => if isSep c "," then skipColumnList p2 else skipColumnList p1
      | [] => skipColumnList p1
      end
  end.

(** The VALUES loop of [parseInsert], with its [vals] and [hasValues]; it
    returns at either [break], leaving the closing parenthesis to the caller. *)
Fixpoint parseValues (p : parser) (vals : list Expr) (hasValues : bool)
  : result (list Expr) :=
  match p with
  | [] => Err ErrEofInValues
  | t :: p1 =>
    if isSep t ")" then
      if negb hasValues then Err ErrExpectedOneValue else Ok vals p
    else
      match
        (if hasType t TokenNumber then
           let v := Value t in
           let v := if ContainsByte v "." then before_first v "." else v in
           match ParseUint v with
           | inr e => inr (ErrStrconv e)
           | inl u => inl (LiteralInt u)
           end
         else if hasType t TokenString then inl (LiteralString (Value t))
         else if hasType t TokenIdentifier then inl (ColumnRef (Value t))
         else inr (ErrUnexpectedInValues (Some t)))
      with
      | inr e => Err e
      | inl val =>
        let vals := vals ++ [val] in
        match p1 with
        | c :: p2 => if isSep c "," then parseValues p2 vals true else Ok vals p1
        | [] => Ok vals p1
        end
      end
  end.

Definition parseInsert (p : parser) : result AstNode :=
  let p := snd (next p) in
  match expectKeyword "INTO" p with
  | (Some e, _) => Err e
  | (None, p) =>
    match peek p with
    | None => Err ErrExpectedTableAfterInto
    | Some tn =>
      if negb (hasType tn TokenIdentifier) then Err ErrExpectedTableAfterInto
      else
        let table := Value tn in
        let p := snd (next p) in
        match (if peekIsSep p "(" then skipColumnList (snd (next p)) else Ok tt p) with
        | Err e => Err e
        | Ok _ p =>
          match expectKeyword "VALUES" p with
          | (Some e, _) => Err e
          | (None, p) =>
            if negb (peekIsSep p "(") then Err ErrExpectedValuesParen
            else
              match parseValues (snd (next p)) [] false with
              | Err e => Err e
              | Ok vals p =>
                if negb (peekIsSep p ")") then Err ErrExpectedCloseAfterValues
                else Ok (InsertStmt table vals) (snd (next p))
              end
          end
        end
    end
  end.

(** The column loop of [parseCreateTable], with its [cols] and [hasColumns];
    it returns the state after the closing parenthesis. *)
Fixpoint parseColumns (p : parser) (cols : list ColumnDef) (hasColumns : bool)
  : result (list ColumnDef) :=
  match p with
  | [] => Err ErrEofInColumnDefs
  | t :: p1 =>
    if isSep t ")" then
      if negb hasColumns then Err ErrExpectedOneColumn else Ok cols p1
    else if negb (hasType t TokenIdentifier) then Err (ErrExpectedColumnName (Some t))
    else
      let name := Value t in
      match p1 with
      | [] => Err (ErrExpectedColumnType name)
      | ty :: p2 =>
        if negb (hasType ty TokenIdentifier) then Err (ErrExpectedColumnType name)
        else
          let cols := cols ++ [mkColumnDef name (Value ty)] in
          match p2 with
          | c :: p3 => if isSep c "," then parseColumns p3 cols true else parseColumns p2 cols true
          | [] => parseColumns p2 cols true
          end
      end
  end.

Definition parseCreateTable (p : parser) : result AstNode :=
  let p := snd (next p) in
  match expectKeyword "TABLE" p with
  | (Some e, _) => Err e
  | (None, p) =>
    match peek p with
    | None => Err ErrExpectedTableAfterCreate
    | Some tn =>
      if negb (hasType tn TokenIdentifier) then Err ErrExpectedTableAfterCreate
      else
        let table := Value tn in
        let p := snd (next p) in
        if negb (peekIsSep p "(") then Err ErrExpectedParenAfterTable
        else
          match parseColumns (snd (next p)) [] false with
          | Err e => Err e
          | Ok cols p => Ok (CreateTableStmt table cols) p
          end
    end
  end.

Definition parseStatement (p : parser) : option (result AstNode) :=
  match peek p with
  | None => Some (Err ErrUnexpectedEof)
  | Some t =>
    let unsupported := Some (Err (ErrUnsupportedStatement (Value t))) in
    if hasType t TokenKeyword then
      let upper := ToUpper (Value t) in
      if String.eqb upper "SELECT" then parseSelect p
      else if String.eqb upper "INSERT" then Some (parseInsert p)
      else if String.eqb upper "CREATE" then Some (parseCreateTable p)
      else unsupported
    else unsupported
  end.

(** The loop of [parseStatements], one iteration per unit of [fuel].  The
    result is Go's pair: the statement slice ([nil] is the empty list) and the
    error ([None] is nil).  [None] when [fuel] runs out. *)
Fixpoint parseStatements_loop (fuel : nat) (p : parser) (out : list AstNode)
  : option (list AstNode * option error) :=
  match fuel with
  | O => None
  | S fuel' =>
    match peek p with
    | None => Some (out, None)
    | Some t =>
      if isSep t ";" then parseStatements_loop fuel' (snd (next p)) out
      else
        match parseStatement p with
        | None => None
        | Some (Err e) => Some ([], Some e)
        | Some (Ok node p) =>
          let out := out ++ [node] in
          let p := if peekIsSep p ";" then snd (next p) else p in
          parseStatements_loop fuel' p out
        end
    end
  end.

Definition parseStatements (p : parser) : option (list AstNode * option error) :=
  parseStatements_loop (S (List.length p)) p [].

Definition ParseString (input : string) : option (list AstNode * option error) :=
  match Tokenize input with
  | None => None
  | Some toks => parseStatements toks
  end.

End Parser.

(** ** Token sequences of the grammar

    The shapes of token sequences that the statements below speak about. *)

Module Grammar.
Import GoString Lexer Parser.

Definition ident (v : string) : Token := mkToken TokenIdentifier v.
Definition sep (v : string) : Token := mkToken TokenSeparator v.

(** A column definition: a name token and a type token, both Identifiers. *)
Definition column_tokens (d : ColumnDef) : list Token := [ident (ColName d); ident (ColType d)].

(** [ident ident (',' ident ident)*]: column definitions with a comma between
    each two. *)
Fixpoint comma_separated (d : ColumnDef) (ds : list ColumnDef) : list Token :=
  column_tokens d ++
  match ds with
  | [] => []
  | d' :: ds' => sep "," :: comma_separated d' ds'
  end.

(** [(ident ident ','?)*]: column definitions each followed by a comma or not. *)
Fixpoint loosely_separated (items : list (ColumnDef * bool)) : list Token :=
  match items with
  | [] => []
  | (d, comma) :: items' =>
    column_tokens d ++ (if comma then [sep ","] else []) ++ loosely_separated items'
  end.

(** The grammar of the column list of CREATE TABLE in the words of the
    specification, ['(' ident ident (',' ident ident)* ')'], for comparison
    with what [parseColumns] accepts.
    [spec_column_list p] is the rest of [p] after a prefix that matches, and
    [None] when no prefix does. *)
Fixpoint spec_more_columns (p : list Token) : option (list Token) :=
  match p with
  | [] => None
  | c :: p1 =>
    if isSep c ")" then Some p1
    else if isSep c "," then
      match p1 with
      | n :: ty :: p2 =>
        if hasType n TokenIdentifier && hasType ty TokenIdentifier
        then spec_more_columns p2 else None
      | _ => None
      end
    else None
  end.

Definition spec_column_list (p : list Token) : option (list Token) :=
  match p with
  | o :: n :: ty :: p1 =>
    if isSep o "(" && hasType n TokenIdentifier && hasType ty TokenIdentifier
    then spec_more_columns p1 else None
  | _ => None
  end.

(** [comparison ((AND|OR) comparison)*]: the tokens of a chain of comparisons.
    A link is the connective token and the tokens of the comparison after it. *)
Definition chain_tokens (links : list (Token * list Token * Expr)) : list Token :=
  flat_map (fun '(kw, toks, _) => kw :: toks) links.

(** The tree the chain folds to, from the left. *)
Definition fold_chain (first : Expr) (links : list (Token * list Token * Expr)) : Expr :=
  fold_left (fun acc '(kw, _, e) => LogicalOp acc (ToUpper (Value kw)) e) links first.

End Grammar.

(** ** Shapes of tokens and of query text

    Vocabulary for statements about what [Tokenize] emits and about text
    that tokenizes to a given token sequence. *)

Module Lexemes.
Import GoString Lexer.

(** The bytes that end a pending buffer wherever they stand: whitespace, the
    separators, the quotes and the one-character operators. *)
Definition is_delimiter (c : ascii) : bool :=
  isWhitespace c || isSeparator c || Ascii.eqb c "'" || Ascii.eqb c "034"
  || Ascii.eqb c "=" || Ascii.eqb c "<" || Ascii.eqb c ">".

Definition no_delimiter (v : string) : bool := all_bytes (fun c => negb (is_delimiter c)) v.

(** A token as the tokenizer classifies it: a buffered word is not empty, holds
    no delimiter and has the type [createToken] gives it; a Separator is one
    of the five; an Operator is one of the six, or the lone '!'; the types
    Whitespace and Unknown do not occur. *)
Definition token_ok (t : Token) : bool :=
  let v := Value t in
  match Typ t with
  | TokenKeyword => keywords (ToLower v) && negb (String.eqb v EmptyString) && no_delimiter v
  | TokenNumber => negb (keywords (ToLower v)) && isNumeric v && no_delimiter v
  | TokenIdentifier =>
    negb (keywords (ToLower v)) && negb (isNumeric v)
    && negb (String.eqb v EmptyString) && no_delimiter v
  | TokenOperator => isOperator v || String.eqb v "!"
  | TokenSeparator => existsb (String.eqb v) [","; ";"; "("; ")"; "*"]
  | TokenString => true
  | TokenWhitespace | TokenUnknown => false
  end.

(** The token values one after the other. *)
Fixpoint concat_values (toks : list Token) : string :=
  match toks with
  | [] => EmptyString
  | t :: r => (Value t ++ concat_values r)%string
  end.

(** [subseq s t]: [s] is [t] with some bytes left out, the others in order. *)
Inductive subseq : string -> string -> Prop :=
| subseq_nil : subseq EmptyString EmptyString
| subseq_take (c : ascii) (s t : string) : subseq s t -> subseq (String c s) (String c t)
| subseq_skip (c : ascii) (s t : string) : subseq s t -> subseq s (String c t).

(** [input[i:]], empty from the end of the input on. *)
Fixpoint skip (i : nat) (s : string) : string :=
  match i, s with
  | O, _ => s
  | S i', String _ r => skip i' r
  | S _, EmptyString => EmptyString
  end.

(** Text for a token: its value, a String between single quotes. *)
Definition show (t : Token) : string :=
  match Typ t with
  | TokenString => String "'" (Value t ++ String "'" EmptyString)
  | _ => Value t
  end.

(** Text for a token sequence: the tokens with one space between each two. *)
Fixpoint print (toks : list Token) : string :=
  match toks with
  | [] => EmptyString
  | t :: r =>
    match r with
    | [] => show t
    | _ :: _ => (show t ++ String " " (print r))%string
    end
  end.

(** An ASCII byte that is no delimiter and not '!'. *)
Definition is_plain (c : ascii) : bool :=
  (N_of_ascii c <? 128)%N && negb (is_delimiter c) && negb (Ascii.eqb c "!").

(** The tokens [print] is meant for: a non-empty word of plain bytes whose
    type is the one [createToken] gives it, one of the five separators, one
    of the six operators, or a String of ASCII bytes without a single quote. *)
Definition printable (t : Token) : bool :=
  let v := Value t in
  match Typ t with
  | TokenKeyword | TokenNumber | TokenIdentifier =>
    negb (String.eqb v EmptyString) && all_bytes is_plain v
    && TokenType_eqb (Typ (createToken v)) (Typ t)
  | TokenSeparator => existsb (String.eqb v) [","; ";"; "("; ")"; "*"]
  | TokenOperator => isOperator v
  | TokenString => all_bytes (fun c => (N_of_ascii c <? 128)%N && negb (Ascii.eqb c "'")) v
  | TokenWhitespace | TokenUnknown => false
  end.

Definition is_word (t : Token) : bool :=
  match Typ t with
  | TokenKeyword | TokenNumber | TokenIdentifier => true
  | _ => false
  end.

Definition is_operator_token (t : Token) : bool :=
  match Typ t with
  | TokenOperator => true
  | _ => false
  end.

(** Two tokens that must not touch: a word before a word or an operator, and
    an operator before an operator. *)
Definition needs_space (t u : Token) : bool :=
  (is_word t && (is_word u || is_operator_token u))
  || (is_operator_token t && is_operator_token u).

Definition is_blank (ws : string) : bool := all_bytes isWhitespace ws.

(** Text for a token sequence with a run of whitespace before each token and
    one at the end. *)
Fixpoint layout (items : list (string * Token)) (trailing : string) : string :=
  match items with
  | [] => trailing
  | (ws, t) :: r => (ws ++ show t ++ layout r trailing)%string
  end.

(** The runs before the tokens are whitespace, the tokens printable, and no
    run is empty between two tokens that must not touch. *)
Fixpoint spaced (prev : option Token) (items : list (string * Token)) : bool :=
  match items with
  | [] => true
  | (ws, t) :: r =>
    is_blank ws && printable t
    && match prev with
       | Some u => negb (needs_space u t) || negb (String.eqb ws EmptyString)
       | None => true
       end
    && spaced (Some t) r
  end.

(** From position [i] with buffer [current] and tokens [tokens], the loop
    returns [result], given fuel for the input that is left. *)
Definition runs_to (input : string) (i : nat) (current : string) (tokens result : list Token)
  : Prop :=
  forall fuel, String.length input - i < fuel ->
               Tokenize_loop fuel input i current tokens = Some result.

End Lexemes.

(** ** Shapes of syntax trees

    Vocabulary for statements about the trees the parser builds. *)

Module Shapes.
Import GoString Lexer Strconv Parser.

Definition in_uint64 (v : Z) : bool := ((0 <=? v) && (v <=? maxUint64))%Z.

(** A column reference or a literal. *)
Definition is_leaf (e : Expr) : bool :=
  match e with
  | ColumnRef _ | LiteralInt _ | LiteralString _ => true
  | _ => false
  end.

(** A comparison of a column with a leaf. *)
Definition is_comparison (e : Expr) : bool :=
  match e with
  | ComparisonOp (ColumnRef _) _ r => is_leaf r
  | _ => false
  end.

(** A comparison, or a LogicalOp named AND or OR whose right operand is a
    comparison and whose left operand is again such a tree. *)
Fixpoint is_where_tree (e : Expr) : bool :=
  match e with
  | LogicalOp l op r =>
    is_where_tree l && (String.eqb op "AND" || String.eqb op "OR") && is_comparison r
  | _ => is_comparison e
  end.

(** Every integer literal of the tree fits 64 bits unsigned. *)
Fixpoint ints_in_range (e : Expr) : bool :=
  match e with
  | LiteralInt v => in_uint64 v
  | BinaryOp l _ r | LogicalOp l _ r | ComparisonOp l _ r => ints_in_range l && ints_in_range r
  | _ => true
  end.

(** A WHERE clause, when there is one, is a chain of comparisons. *)
Definition where_ok (node : AstNode) : bool :=
  match node with
  | SelectStmt _ _ (Some e) _ => is_where_tree e
  | _ => true
  end.

(** The numbers of a statement fit 64 bits unsigned. *)
Definition numbers_ok (node : AstNode) : bool :=
  match node with
  | SelectStmt _ _ sel lim =>
    match sel with Some e => ints_in_range e | None => true end
    && match lim with Some v => in_uint64 v | None => true end
  | InsertStmt _ vals => forallb ints_in_range vals
  | CreateTableStmt _ _ => true
  end.

(** The lists of a statement are not empty: the projections are the wildcard
    alone or one or more named columns, the values are one or more leaves,
    the columns are one or more. *)
Definition lists_ok (node : AstNode) : bool :=
  match node with
  | SelectStmt projs _ _ _ =>
    match projs with
    | [] => false
    | [p] => negb (All p) || String.eqb (Column p) EmptyString
    | _ => forallb (fun p => negb (All p)) projs
    end
  | InsertStmt _ vals => negb (Nat.eqb (List.length vals) 0) && forallb is_leaf vals
  | CreateTableStmt _ cols => negb (Nat.eqb (List.length cols) 0)
  end.

Definition node_ok (node : AstNode) : bool := where_ok node && numbers_ok node && lists_ok node.

(** The number a string of decimal digits denotes, read after [n]. *)
Fixpoint decimal (s : string) (n : Z) : Z :=
  match s with
  | EmptyString => n
  | String c r => decimal r (n * 10 + (Z.of_N (N_of_ascii c) - 48))%Z
  end.

Definition is_digit (c : ascii) : bool :=
  let n := N_of_ascii c in negb ((n <? 48)%N || (57 <? n)%N).

End Shapes.

(** ** Token sequences that differ in the case of keywords *)

Module Recasing.
Import GoString Lexer Parser.

(** [recased t u]: the same token, but for the letter case of a keyword. *)
Definition recased (t u : Token) : Prop :=
  Typ t = Typ u
  /\ if hasType t TokenKeyword then EqualFold (Value t) (Value u) = true
     else Value t = Value u.

(** Two results of a sub-parser: the same value with recased tokens left, or
    an error on both sides. *)
Definition same_result {A : Type} (r1 r2 : result A) : Prop :=
  match r1, r2 with
  | Ok v1 p1, Ok v2 p2 => v1 = v2 /\ Forall2 recased p1 p2
  | Err _, Err _ => True
  | _, _ => False
  end.

Definition same_outcome {A : Type} (r1 r2 : option (result A)) : Prop :=
  match r1, r2 with
  | Some a, Some b => same_result a b
  | None, None => True
  | _, _ => False
  end.

(** Two results of [parseStatements]: the same statements, or an error on
    both sides. *)
Definition same_statements (r1 r2 : option (list AstNode * option error)) : Prop :=
  match r1, r2 with
  | Some (n1, None), Some (n2, None) => n1 = n2
  | Some (_, Some _), Some (_, Some _) => True
  | None, None => True
  | _, _ => False
  end.

End Recasing.

(** ** Comma-separated token lists *)

Module Lists.
Import GoString Lexer Strconv Parser Grammar.

(** [t (',' t')*]: the tokens with a comma between each two. *)
Fixpoint separated (t : Token) (ts : list Token) : list Token :=
  t :: match ts with
       | [] => []
       | t' :: ts' => sep "," :: separated t' ts'
       end.

(** The expression a token stands for as a VALUES entry: a Number is read up
    to its first '.', a String and an Identifier keep their text; no other
    token is a value, and a Number that [ParseUint] refuses is none either. *)
Definition value_expr (t : Token) : option Expr :=
  match Typ t with
  | TokenNumber =>
    match ParseUint (before_first (Value t) ".") with
    | inl u => Some (LiteralInt u)
    | inr _ => None
    end
  | TokenString => Some (LiteralString (Value t))
  | TokenIdentifier => Some (ColumnRef (Value t))
  | _ => None
  end.

End Lists.

(** ** fmt.Sprintf

    The part of [fmt.Sprintf] the printer uses: a format string and one
    integer operand. *)

Module Fmt.

(** The verb [%d] applied to an integer: its decimal numeral, with a minus
    sign when negative. *)
Definition FormatInt (v : Z) : string := NilZero.string_of_int (Z.to_int v).

(** The format is copied byte by byte; [%d] prints the operand and [%%] a
    percent sign.  [None] stands for every output this embedding does not
    describe: another verb, a flag, a [%] at the end of the format, a second
    [%d] (Go prints a MISSING note) and an operand no verb has used (an EXTRA
    note). *)
Fixpoint Sprintf_loop (format : string) (arg : option Z) : option string :=
  match format with
  | EmptyString =>
    match arg with
    | None => Some EmptyString
    | Some _ => None
    end
  | String c rest =>
    if Ascii.eqb c "%" then
      match rest with
      | String verb rest' =>
        if Ascii.eqb verb "d" then
          match arg with
          | Some a => option_map (append (FormatInt a)) (Sprintf_loop rest' None)
          | None => None
          end
        else if Ascii.eqb verb "%" then option_map (String "%") (Sprintf_loop rest' arg)
        else None
      | EmptyString => None
      end
    else option_map (String c) (Sprintf_loop rest arg)
  end.

Definition Sprintf (format : string) (a : Z) : option string :=
  Sprintf_loop format (Some a).

End Fmt.

(** ** parser/parser.go: PrintAST

    The printing functions write into a [strings.Builder]; the text written
    is the concatenation of the pieces in the order of the writes.  A result
    is [None] when a format string handed to [Sprintf] is outside the part
    embedded in [Fmt].  The type switches have no case left over here: a node
    is one of the three statements and an expression one of the six structs
    (the [default] branches of [formatExpr] and [formatExprInline] answer
    values of other Go types, which the parser never stores). *)

Module Printer.
Import GoString Lexer Strconv Parser Fmt.

(** The line feed, written [\n] in the source. *)
Definition nl : string := String "010" EmptyString.

(** Concatenation of two pieces either of which may be undescribed. *)
Definition cat (a b : option string) : option string :=
  match a, b with
  | Some x, Some y => Some (x ++ y)%string
  | _, _ => None
  end.

Infix "+++" := cat (at level 61, right associativity).

Fixpoint formatExprInline (e : Expr) : option string :=
  match e with
  | ColumnRef name => Some ("col:" ++ name)%string
  | LiteralInt value => Sprintf "int:%d" value
  | LiteralString value => Some ("str:'" ++ value ++ "'")%string
  | ComparisonOp l op r =>
    formatExprInline l +++ Some (" " ++ op ++ " ")%string +++ formatExprInline r
  | LogicalOp l op r =>
    Some "(" +++ formatExprInline l +++ Some (" " ++ op ++ " ")%string
    +++ formatExprInline r +++ Some ")"
  | BinaryOp l op r =>
    Some "(" +++ formatExprInline l +++ Some (" " ++ op ++ " ")%string
    +++ formatExprInline r +++ Some ")"
  end.

Fixpoint formatExpr (e : Expr) (indent : string) : option string :=
  match e with
  | ColumnRef name => Some (indent ++ "Column: " ++ name)%string
  | LiteralInt value => Sprintf (indent ++ "Integer: %d") value
  | LiteralString value => Some (indent ++ "String: '" ++ value ++ "'")%string
  | ComparisonOp l op r =>
    Some (indent ++ "Comparison: " ++ op ++ nl)%string
    +++ (formatExpr l (indent ++ "  ") +++ Some nl)
    +++ formatExpr r (indent ++ "  ")
  | LogicalOp l op r =>
    Some (indent ++ "Logical: " ++ op ++ nl)%string
    +++ (formatExpr l (indent ++ "  ") +++ Some nl)
    +++ formatExpr r (indent ++ "  ")
  | BinaryOp l op r =>
    Some (indent ++ "Binary: " ++ op ++ nl)%string
    +++ (formatExpr l (indent ++ "  ") +++ Some nl)
    +++ formatExpr r (indent ++ "  ")
  end.

(** The loop over [s.Projections]. *)
Fixpoint writeProjections (indent : string) (ps : list ProjectionItem) : string :=
  match ps with
  | [] => EmptyString
  | p :: r =>
    ((if All p then indent ++ "    *" ++ nl else indent ++ "    " ++ Column p ++ nl)
     ++ writeProjections indent r)%string
  end.

Definition formatSelect (Projections : list ProjectionItem) (From : TableRef)
           (Selection : option Expr) (Limit : option Z) (indent : string) : option string :=
  Some (indent ++ "SELECT" ++ nl)%string
  +++ Some (indent ++ "  Projections:" ++ nl)%string
  +++ Some (writeProjections indent Projections)
  +++ Some (indent ++ "  FROM: " ++ Name From ++ nl)%string
  +++ match Selection with
      | Some e =>
        Some (indent ++ "  WHERE:" ++ nl)%string
        +++ (formatExpr e (indent ++ "    ") +++ Some nl)
      | None => Some EmptyString
      end
  +++ match Limit with
      | Some l => Sprintf (indent ++ "  LIMIT: %d" ++ nl) l
      | None => Some EmptyString
      end.

(** The loop over [ins.Values]. *)
Fixpoint writeValues (indent : string) (vs : list Expr) : option string :=
  match vs with
  | [] => Some EmptyString
  | v :: r =>
    (Some (indent ++ "    ")%string +++ formatExprInline v +++ Some nl)
    +++ writeValues indent r
  end.

Definition formatInsert (TableName : string) (Values : list Expr) (indent : string)
  : option string :=
  Some (indent ++ "INSERT" ++ nl)%string
  +++ Some (indent ++ "  Table: " ++ TableName ++ nl)%string
  +++ Some (indent ++ "  Values:" ++ nl)%string
  +++ writeValues indent Values.

(** The loop over [ct.Columns]. *)
Fixpoint writeColumns (indent : string) (cs : list ColumnDef) : string :=
  match cs with
  | [] => EmptyString
  | c :: r =>
    ((indent ++ "    " ++ ColName c ++ " " ++ ColType c ++ nl)
     ++ writeColumns indent r)%string
  end.

Definition formatCreateTable (TableName : string) (Columns : list ColumnDef)
           (indent : string) : option string :=
  Some (indent ++ "CREATE TABLE " ++ TableName ++ nl)%string
  +++ Some (indent ++ "  Columns:" ++ nl)%string
  +++ Some (writeColumns indent Columns).

Definition formatNode (n : AstNode) : option string :=
  match n with
  | SelectStmt ps from sel lim => formatSelect ps from sel lim "  "
  | InsertStmt table vs => formatInsert table vs "  "
  | CreateTableStmt table cs => formatCreateTable table cs "  "
  end.

(** The loop of [PrintAST] from index [i] on. *)
Fixpoint PrintAST_loop (i : nat) (nodes : list AstNode) : option string :=
  match nodes with
  | [] => Some EmptyString
  | n :: r =>
    Sprintf ("Node %d:" ++ nl) (Z.of_nat i) +++ formatNode n +++ PrintAST_loop (S i) r
  end.

Definition PrintAST (nodes : list AstNode) : option string := PrintAST_loop 0 nodes.

End Printer.

(** ** Reading a dump back

    Vocabulary for statements about the text [PrintAST] writes. *)

Module Dumps.
Import GoString Lexer Strconv Parser Fmt Printer.

(** No byte of [s] is [d]. *)
Definition no_byte (d : ascii) (s : string) : bool :=
  all_bytes (fun c => negb (Ascii.eqb c d)) s.

(** No line feed in [s]. *)
Definition one_line (s : string) : bool := no_byte "010" s.

(** Every name, operator and string of the expression is free of line feeds. *)
Fixpoint one_line_each (e : Expr) : bool :=
  match e with
  | ColumnRef name => one_line name
  | LiteralInt _ => true
  | LiteralString value => one_line value
  | BinaryOp l op r | LogicalOp l op r | ComparisonOp l op r =>
    one_line op && one_line_each l && one_line_each r
  end.

(** The text is empty or begins with a line feed. *)
Definition starts_line (s : string) : Prop :=
  match s with
  | EmptyString => True
  | String c _ => c = "010"%char
  end.

(** The text is empty or begins with a byte other than a space. *)
Definition outdented (s : string) : Prop :=
  match s with
  | EmptyString => True
  | String c _ => c <> " "%char
  end.

(** Spaces only. *)
Definition is_indent (s : string) : bool := all_bytes (fun c => Ascii.eqb c " ") s.

(** A projection as [parseSelect] builds it: [*] with no column name, or a
    column whose name is not the text [*]; the name on one line. *)
Definition plain_item (p : ProjectionItem) : bool :=
  if All p then String.eqb (Column p) EmptyString
  else one_line (Column p) && negb (String.eqb (Column p) "*").

(** A value as [parseInsert] builds it, on one line. *)
Definition plain_value (e : Expr) : bool :=
  match e with
  | ColumnRef name => one_line name
  | LiteralInt _ => true
  | LiteralString value => one_line value
  | _ => false
  end.

(** A column definition on one line whose name holds no space. *)
Definition plain_column (c : ColumnDef) : bool :=
  no_byte " " (ColName c) && one_line (ColName c) && one_line (ColType c).

Definition plain_node (n : AstNode) : bool :=
  match n with
  | SelectStmt ps from sel _ =>
    forallb plain_item ps && one_line (Name from)
    && match sel with
       | Some e => one_line_each e
       | None => true
       end
  | InsertStmt table vs => one_line table && forallb plain_value vs
  | CreateTableStmt table cs => one_line table && forallb plain_column cs
  end.

(** A token whose value is on one line; an Identifier moreover holds no
    space and is not the text [*]. *)
Definition dumpable (t : Token) : bool :=
  one_line (Value t)
  && match Typ t with
     | TokenIdentifier => no_byte " " (Value t) && negb (String.eqb (Value t) "*")
     | _ => true
     end.

End Dumps.
(** * Properties *)

Import GoString Lexer Strconv Parser.

(** ** Byte strings *)

Section ByteStrings.

Lemma index_in_range (s : string) (i : nat) :
  i < String.length s -> exists c, index s i = Some c.
Proof.
  unfold index. revert i.
  induction s as [|a s IH]; simpl; intros i Hi; [lia|].
  destruct i as [|i]; [eauto|]. apply IH. lia.
Qed.

Lemma index_append_length (pre : string) (c : ascii) (rest : string) :
  index (pre ++ String c rest)%string (String.length pre) = Some c.
Proof.
  unfold index. induction pre as [|a pre IH]; simpl; auto.
Qed.

Lemma length_append (s t : string) :
  String.length (s ++ t)%string = String.length s + String.length t.
Proof.
  induction s as [|a s IH]; simpl; auto.
Qed.

Lemma append_assoc (s t u : string) : ((s ++ t) ++ u = s ++ (t ++ u))%string.
Proof.
  induction s as [|a s IH]; simpl; congruence.
Qed.

Lemma append_empty_r (s : string) : (s ++ EmptyString)%string = s.
Proof.
  induction s as [|a s IH]; simpl; congruence.
Qed.

Lemma append_snoc (pre : string) (c : ascii) (rest : string) :
  ((pre ++ String c EmptyString) ++ rest = pre ++ String c rest)%string.
Proof.
  rewrite append_assoc. reflexivity.
Qed.

Lemma slice_in_range (s : string) (i : nat) :
  i + 1 < String.length s -> slice s i (i + 2) = Some (substring i 2 s).
Proof.
  intros Hi. unfold slice.
  replace (i <=? i + 2) with true by (symmetry; apply Nat.leb_le; lia).
  replace (i + 2 <=? String.length s) with true by (symmetry; apply Nat.leb_le; lia).
  simpl. replace (i + 2 - i) with 2 by lia. reflexivity.
Qed.

End ByteStrings.

(** ** The tokenizer returns on every input *)

Section TokenizeTotal.

Lemma twoCharOperatorAt_defined (input : string) (i : nat) :
  exists b, twoCharOperatorAt input i = Some b
            /\ (b = true -> slice input i (i + 2) = Some (substring i 2 input)).
Proof.
  unfold twoCharOperatorAt.
  destruct (i + 1 <? String.length input) eqn:Hlt.
  - apply Nat.ltb_lt in Hlt. rewrite (slice_in_range _ _ Hlt). eauto.
  - exists false. split; [reflexivity | discriminate].
Qed.

Lemma scanString_defined (fuel : nat) (input : string) (quote : ascii) :
  forall i current,
    String.length input <= fuel + i ->
    exists j current', scanString fuel input quote i current = Some (j, current') /\ i <= j.
Proof.
  induction fuel as [|fuel IH]; intros i current Hfuel.
  - simpl. destruct (i <? String.length input) eqn:Hlt.
    + apply Nat.ltb_lt in Hlt. lia.
    + eauto.
  - simpl. destruct (i <? String.length input) eqn:Hlt; [|eauto].
    apply Nat.ltb_lt in Hlt.
    destruct (index_in_range _ _ Hlt) as [c ->].
    destruct (negb (Ascii.eqb c quote)); [|eauto].
    destruct (IH (i + 1) (current ++ string_of_rune c)%string) as (j & cur' & -> & Hj); [lia|].
    exists j, cur'. split; [reflexivity | lia].
Qed.

Lemma Tokenize_loop_defined (input : string) (fuel : nat) :
  forall i current tokens,
    String.length input - i < fuel ->
    exists toks, Tokenize_loop fuel input i current tokens = Some toks.
Proof.
  induction fuel as [|fuel IH]; intros i current tokens Hfuel; [lia|].
  cbn [Tokenize_loop].
  destruct (i <? String.length input) eqn:Hlt; [|eauto].
  apply Nat.ltb_lt in Hlt.
  destruct (index_in_range _ _ Hlt) as [ch ->].
  destruct (isWhitespace ch).
  { destruct (flush tokens current). apply IH. lia. }
  destruct (isSeparator ch).
  { destruct (flush tokens current). apply IH. lia. }
  assert (Hop : exists b, (if isOperator (string_of_rune ch) then Some true
                           else twoCharOperatorAt input i) = Some b).
  { destruct (isOperator (string_of_rune ch)); [eauto|].
    destruct (twoCharOperatorAt_defined input i) as (b & -> & _). eauto. }
  destruct Hop as [[|] ->].
  - destruct (0 <? String.length current).
    + destruct (twoCharOperatorAt_defined input (i + 1)) as ([|] & -> & Hs).
      * rewrite (Hs eq_refl). apply IH. lia.
      * apply IH. lia.
    + destruct (twoCharOperatorAt_defined input i) as ([|] & -> & Hs).
      * rewrite (Hs eq_refl). apply IH. lia.
      * apply IH. lia.
  - destruct (Ascii.eqb ch "'" || Ascii.eqb ch "034").
    + destruct (flush tokens current) as [tokens' current'].
      destruct (scanString_defined (String.length input) input ch (i + 1) current')
        as (j & cur' & -> & Hj); [lia|].
      apply IH. destruct (j <? String.length input); lia.
    + apply IH. lia.
Qed.

Theorem Tokenize_defined (input : string) : exists toks, Tokenize input = Some toks.
Proof.
  unfold Tokenize. apply Tokenize_loop_defined. lia.
Qed.

End TokenizeTotal.

(** ** A string literal without closing quote *)

Section UnterminatedString.

Lemma substring_append_length (pre s : string) (n : nat) :
  substring (String.length pre) n (pre ++ s)%string = substring 0 n s.
Proof.
  induction pre as [|a pre IH]; simpl; auto.
Qed.

Lemma flush_resets (tokens : list Token) (current : string) :
  snd (flush tokens current) = EmptyString.
Proof.
  unfold flush. destruct current; reflexivity.
Qed.

Lemma scanString_unterminated (quote : ascii) (rest : string) :
  forall pre fuel current,
    String.length rest <= fuel ->
    ContainsByte rest quote = false ->
    scanString fuel (pre ++ rest)%string quote (String.length pre) current
    = Some (String.length (pre ++ rest)%string, (current ++ write_runes rest)%string).
Proof.
  induction rest as [|c rest IH]; intros pre fuel current Hfuel Hq.
  - rewrite !append_empty_r. destruct fuel; simpl; rewrite Nat.ltb_irrefl; reflexivity.
  - simpl in Hq. apply orb_false_iff in Hq. destruct Hq as [Hc Hrest].
    destruct fuel as [|fuel]; [simpl in Hfuel; lia|].
    simpl scanString. rewrite index_append_length, Hc. simpl negb. cbv iota.
    replace (String.length pre <? String.length (pre ++ String c rest)%string) with true
      by (symmetry; apply Nat.ltb_lt; rewrite length_append; simpl; lia).
    rewrite <- append_snoc.
    replace (String.length pre + 1) with (String.length (pre ++ String c EmptyString)%string)
      by (rewrite length_append; reflexivity).
    rewrite IH by (simpl in Hfuel; auto; lia).
    simpl write_runes. rewrite (append_assoc current). reflexivity.
Qed.

Lemma quote_starts_no_operator (quote : ascii) (s : string) :
  quote = "'"%char \/ quote = "034"%char -> isOperator (String quote s) = false.
Proof.
  intros [-> | ->]; reflexivity.
Qed.

Lemma Tokenize_loop_unterminated (pre : string) (quote : ascii) (rest : string)
      (fuel : nat) (current : string) (tokens : list Token) :
  quote = "'"%char \/ quote = "034"%char ->
  ContainsByte rest quote = false ->
  2 <= fuel ->
  Tokenize_loop fuel (pre ++ String quote rest)%string (String.length pre) current tokens
  = Some (fst (flush tokens current) ++ [mkToken TokenString (write_runes rest)]).
Proof.
  intros Hquote Hrest Hfuel.
  destruct fuel as [|[|fuel]]; try lia.
  set (input := (pre ++ String quote rest)%string).
  assert (Hlen : String.length input = String.length pre + S (String.length rest)).
  { unfold input. rewrite length_append. reflexivity. }
  cbn [Tokenize_loop]. fold input.
  replace (String.length pre <? String.length input) with true
    by (symmetry; apply Nat.ltb_lt; lia).
  unfold input at 1. rewrite index_append_length.
  replace (isWhitespace quote) with false by (destruct Hquote; subst; reflexivity).
  replace (isSeparator quote) with false by (destruct Hquote; subst; reflexivity).
  replace (isOperator (string_of_rune quote)) with false by (destruct Hquote; subst; reflexivity).
  assert (Htwo : twoCharOperatorAt input (String.length pre) = Some false).
  { unfold twoCharOperatorAt.
    destruct (String.length pre + 1 <? String.length input) eqn:Hlt; [|reflexivity].
    apply Nat.ltb_lt in Hlt. rewrite (slice_in_range _ _ Hlt).
    unfold input. rewrite substring_append_length. simpl.
    rewrite quote_starts_no_operator; auto. }
  rewrite Htwo.
  replace (Ascii.eqb quote "'" || Ascii.eqb quote "034") with true
    by (destruct Hquote; subst; reflexivity).
  pose proof (flush_resets tokens current) as Hreset.
  destruct (flush tokens current) as [tokens' current']. simpl in Hreset. subst current'.
  simpl fst.
  assert (Hscan : scanString (String.length input) input quote (String.length pre + 1) EmptyString
                  = Some (String.length input, write_runes rest)).
  { unfold input. rewrite <- append_snoc.
    replace (String.length pre + 1) with (String.length (pre ++ String quote EmptyString)%string)
      by (rewrite length_append; reflexivity).
    rewrite scanString_unterminated; auto.
    rewrite append_snoc. fold input. lia. }
  rewrite Hscan. rewrite Nat.ltb_irrefl.
  cbn [Tokenize_loop]. rewrite Nat.ltb_irrefl. reflexivity.
Qed.

Lemma write_runes_ascii (s : string) :
  all_bytes (fun c => (N_of_ascii c <? 128)%N) s = true -> write_runes s = s.
Proof.
  induction s as [|c s IH]; simpl; intros H; [reflexivity|].
  apply andb_true_iff in H. destruct H as [Hc Hs].
  unfold string_of_rune. rewrite Hc, IH by assumption. reflexivity.
Qed.

End UnterminatedString.

(** ** Claims on the tokenizer *)

(** C1 (as the code behaves).  Tokenizing "a<1" returns the two tokens
    Identifier "a" and Operator "<": the operator branch advances the scan
    position once when it flushes the pending "a" and once more when it
    emits "<", so the character '1' is in no emitted token. *)
Theorem Tokenize_drops_char_after_operator :
  Tokenize "a<1" = Some [mkToken TokenIdentifier "a"; mkToken TokenOperator "<"].
Proof.
  reflexivity.
Qed.

(** C2 (as the code behaves).  Tokenizing "a!=1" returns Identifier "a",
    Operator "!" and Number "1": with a pending buffer the two-character
    operator "!=" is not emitted as one token and its '=' is dropped. *)
Theorem Tokenize_splits_two_char_operator :
  Tokenize "a!=1"
  = Some [mkToken TokenIdentifier "a"; mkToken TokenOperator "!"; mkToken TokenNumber "1"].
Proof.
  reflexivity.
Qed.

(** With no pending buffer the operator branch does not skip: after a space
    the two characters of "!=" are one Operator token. *)
Example two_char_operator_after_space :
  Tokenize "a != 1"
  = Some [mkToken TokenIdentifier "a"; mkToken TokenOperator "!="; mkToken TokenNumber "1"].
Proof.
  reflexivity.
Qed.

(** C8.  [Tokenize] returns a token sequence on every input; when the scan
    position is at a quote character and the same quote does not occur in the
    rest of the input, the loop flushes the pending buffer, emits one String
    token holding all the remaining characters, and ends; tokenizing
    "SELECT 'abc" gives Keyword "SELECT" and String "abc". *)
Theorem Tokenize_never_fails_unterminated_string :
  (forall input, exists toks, Tokenize input = Some toks)
  /\ (forall pre quote rest fuel current tokens,
        quote = "'"%char \/ quote = "034"%char ->
        ContainsByte rest quote = false ->
        2 <= fuel ->
        Tokenize_loop fuel (pre ++ String quote rest)%string (String.length pre) current tokens
        = Some (fst (flush tokens current) ++ [mkToken TokenString (write_runes rest)]))
  /\ Tokenize "SELECT 'abc" = Some [mkToken TokenKeyword "SELECT"; mkToken TokenString "abc"].
Proof.
  split; [exact Tokenize_defined|].
  split; [exact Tokenize_loop_unterminated | reflexivity].
Qed.

Lemma Tokenize_never_fails_unterminated_string_witness :
  Tokenize_loop 5 "x 'ab" 2 EmptyString [mkToken TokenIdentifier "x"]
  = Some [mkToken TokenIdentifier "x"; mkToken TokenString "ab"].
Proof.
  exact (proj1 (proj2 Tokenize_never_fails_unterminated_string)
           "x " "'"%char "ab" 5 EmptyString [mkToken TokenIdentifier "x"]
           (or_introl eq_refl) eq_refl (le_S _ _ (le_S _ _ (le_S _ _ (le_n 2))))).
Defined.

(** ** The parser: tokens, consumption and termination *)

Ltac break_match_hyp :=
  match goal with
  | H : context [match ?x with _ => _ end] |- _ => destruct x eqn:?
  end.

Ltac break_match_goal :=
  match goal with
  | |- context [match ?x with _ => _ end] => destruct x eqn:?
  end.

Ltac inv H := inversion H; subst; clear H.

Section Tokens.

Lemma hasType_eq (t : Token) (typ : TokenType) :
  hasType t typ = true -> Typ t = typ.
Proof.
  unfold hasType. destruct (Typ t), typ; simpl; congruence.
Qed.

Lemma token_of_type (t : Token) (typ : TokenType) :
  hasType t typ = true -> t = mkToken typ (Value t).
Proof.
  intros H. apply hasType_eq in H. destruct t. simpl in *. congruence.
Qed.

Lemma isSep_eq (t : Token) (v : string) : isSep t v = true -> t = mkToken TokenSeparator v.
Proof.
  unfold isSep. intros H. apply andb_true_iff in H. destruct H as [Ht Hv].
  apply String.eqb_eq in Hv. rewrite (token_of_type _ _ Ht). congruence.
Qed.

End Tokens.

Section Consumption.

Lemma expectKeyword_ok (name : string) (p p' : parser) :
  expectKeyword name p = (None, p') ->
  exists t, p = t :: p' /\ isKeyword t name = true.
Proof.
  unfold expectKeyword, consumeKeyword. destruct p as [|t p]; simpl; [discriminate|].
  destruct (isKeyword t name) eqn:Hk; simpl; intros H; inv H. eauto.
Qed.

Lemma expectKeyword_keyword (name : string) (t : Token) (p : parser) :
  isKeyword t name = true -> expectKeyword name (t :: p) = (None, p).
Proof.
  intros H. unfold expectKeyword, consumeKeyword. simpl. rewrite H. reflexivity.
Qed.

Lemma parseComparison_consumes (p p' : parser) (e : Expr) :
  parseComparison p = Ok e p' -> List.length p = 3 + List.length p'.
Proof.
  unfold parseComparison.
  destruct p as [|t [|o [|r p]]]; simpl; intros H;
    repeat break_match_hyp; try discriminate; inv H; reflexivity.
Qed.

Lemma parseLogical_loop_defined (fuel : nat) :
  forall left p,
    List.length p <= fuel ->
    exists r, parseLogical_loop fuel left p = Some r
              /\ forall e p', r = Ok e p' -> List.length p' <= List.length p.
Proof.
  induction fuel as [|fuel IH]; intros left p Hfuel.
  - destruct p; [|simpl in Hfuel; lia]. simpl. eexists. split; [reflexivity|].
    intros e p' H. inv H. auto.
  - simpl. destruct p as [|t p]; simpl.
    + eexists. split; [reflexivity|]. intros e p' H. inv H. auto.
    + destruct (isKeyword t "AND" || isKeyword t "OR").
      * destruct (parseComparison p) as [rhs p1|e1] eqn:Hcmp.
        -- apply parseComparison_consumes in Hcmp.
           destruct (IH (LogicalOp left (ToUpper (Value t)) rhs) p1) as (r & -> & Hr);
             [simpl in Hfuel; lia|].
           eexists. split; [reflexivity|]. intros e p' H. apply Hr in H. simpl. lia.
        -- eexists. split; [reflexivity|]. discriminate.
      * eexists. split; [reflexivity|]. intros e p' H. inv H. auto.
Qed.

Lemma parseLogical_defined (p : parser) :
  exists r, parseLogical p = Some r
            /\ forall e p', r = Ok e p' -> List.length p' < List.length p.
Proof.
  unfold parseLogical. destruct (parseComparison p) as [lhs p1|e1] eqn:Hcmp.
  - apply parseComparison_consumes in Hcmp.
    destruct (parseLogical_loop_defined (List.length p1) lhs p1) as (r & -> & Hr); [lia|].
    eexists. split; [reflexivity|]. intros e p' H. apply Hr in H. lia.
  - eexists. split; [reflexivity|]. discriminate.
Qed.

(** One unfolding of each loop that recurs on the token list. *)
Lemma parseProjections_step (t : Token) (p1 : parser) (proj : list ProjectionItem) :
  parseProjections (t :: p1) proj
  = if negb (hasType t TokenIdentifier) then Err (ErrExpectedProjection (Some t))
    else match p1 with
         | c :: p2 =>
           if isSep c "," then parseProjections p2 (proj ++ [mkProjectionItem false (Value t)])
           else Ok (proj ++ [mkProjectionItem false (Value t)]) p1
         | [] => Ok (proj ++ [mkProjectionItem false (Value t)]) p1
         end.
Proof. reflexivity. Qed.

Lemma skipColumnList_step (t : Token) (p1 : parser) :
  skipColumnList (t :: p1)
  = if isSep t ")" then Ok tt p1
    else match p1 with
         | c :: p2 => if isSep c "," then skipColumnList p2 else skipColumnList p1
         | [] => skipColumnList p1
         end.
Proof. reflexivity. Qed.

Lemma parseColumns_step (t : Token) (p1 : parser) (cols : list ColumnDef) (hasColumns : bool) :
  parseColumns (t :: p1) cols hasColumns
  = if isSep t ")" then (if negb hasColumns then Err ErrExpectedOneColumn else Ok cols p1)
    else if negb (hasType t TokenIdentifier) then Err (ErrExpectedColumnName (Some t))
    else match p1 with
         | [] => Err (ErrExpectedColumnType (Value t))
         | ty :: p2 =>
           if negb (hasType ty TokenIdentifier) then Err (ErrExpectedColumnType (Value t))
           else match p2 with
                | c :: p3 =>
                  if isSep c ","
                  then parseColumns p3 (cols ++ [mkColumnDef (Value t) (Value ty)]) true
                  else parseColumns p2 (cols ++ [mkColumnDef (Value t) (Value ty)]) true
                | [] => parseColumns p2 (cols ++ [mkColumnDef (Value t) (Value ty)]) true
                end
         end.
Proof. reflexivity. Qed.

Lemma parseProjections_consumes (n : nat) :
  forall p proj proj' p',
    List.length p <= n ->
    parseProjections p proj = Ok proj' p' -> List.length p' < List.length p.
Proof.
  induction n as [|n IH]; intros p proj proj' p' Hn H.
  - destruct p; [discriminate | simpl in Hn; lia].
  - destruct p as [|t p1]; [discriminate|]. rewrite parseProjections_step in H.
    simpl in Hn.
    repeat break_match_hyp; try discriminate; try (inv H; simpl; lia).
    apply IH in H; simpl in *; lia.
Qed.

Lemma skipColumnList_consumes (n : nat) :
  forall p u p',
    List.length p <= n ->
    skipColumnList p = Ok u p' -> List.length p' < List.length p.
Proof.
  induction n as [|n IH]; intros p u p' Hn H.
  - destruct p; [discriminate | simpl in Hn; lia].
  - destruct p as [|t p1]; [discriminate|]. rewrite skipColumnList_step in H.
    simpl in Hn.
    repeat break_match_hyp; try discriminate; try (inv H; simpl; lia);
      apply IH in H; simpl in *; lia.
Qed.

Lemma parseValues_consumes (p : parser) :
  forall vals hasValues vals' p',
    parseValues p vals hasValues = Ok vals' p' -> List.length p' <= List.length p.
Proof.
  induction p as [p IH] using (induction_ltof1 _ (@List.length Token)).
  unfold ltof in IH.
  intros vals hasValues vals' p' H.
  destruct p as [|t p1]; [discriminate|]. cbn [parseValues] in H.
  destruct (isSep t ")"); [destruct (negb hasValues); [discriminate | inv H; auto]|].
  match type of H with
  | match ?v with inl _ => _ | inr _ => _ end = _ => destruct v as [val|e]; [|discriminate]
  end.
  destruct p1 as [|c p2]; [inv H; simpl; lia|].
  destruct (isSep c ","); [|inv H; simpl; lia].
  apply IH in H; simpl in *; lia.
Qed.

Lemma parseColumns_consumes (n : nat) :
  forall p cols hasColumns cols' p',
    List.length p <= n ->
    parseColumns p cols hasColumns = Ok cols' p' -> List.length p' < List.length p.
Proof.
  induction n as [|n IH]; intros p cols hasColumns cols' p' Hn H.
  - destruct p; [discriminate | simpl in Hn; lia].
  - destruct p as [|t p1]; [discriminate|]. rewrite parseColumns_step in H.
    simpl in Hn.
    repeat break_match_hyp; try discriminate; try (inv H; simpl; lia);
      apply IH in H; simpl in *; lia.
Qed.

End Consumption.

Section Statements.

Local Ltac psimpl := cbn [peek next snd fst hd_error].

Lemma parseSelect_defined (p : parser) :
  exists r, parseSelect p = Some r
            /\ forall node p', r = Ok node p' -> List.length p' < List.length p.
Proof.
  unfold parseSelect.
  destruct p as [|s p]; psimpl; [eexists; split; [reflexivity | discriminate]|].
  destruct p as [|t p1]; psimpl; [eexists; split; [reflexivity | discriminate]|].
  set (rproj := if isSep t "*" then _ else _).
  assert (Hproj : forall proj p2, rproj = Ok proj p2 -> List.length p2 <= List.length p1).
  { subst rproj. intros proj p2 H. destruct (isSep t "*").
    - inv H. auto.
    - apply (parseProjections_consumes _ _ _ _ _ (le_n _)) in H. simpl in H. lia. }
  destruct rproj as [proj p2|e]; [|eexists; split; [reflexivity | discriminate]].
  specialize (Hproj _ _ eq_refl).
  destruct (expectKeyword "FROM" p2) as [[e|] p3] eqn:Hfrom;
    [eexists; split; [reflexivity | discriminate]|].
  apply expectKeyword_ok in Hfrom. destruct Hfrom as (kf & -> & _). simpl in Hproj.
  destruct p3 as [|tn p4]; psimpl; [eexists; split; [reflexivity | discriminate]|].
  destruct (negb (hasType tn TokenIdentifier));
    [eexists; split; [reflexivity | discriminate]|].
  set (rsel := if peekIsKeyword p4 "WHERE" then _ else _).
  assert (Hsel : exists r, rsel = Some r
                           /\ forall sel p5, r = Ok sel p5 -> List.length p5 <= List.length p4).
  { subst rsel. destruct (peekIsKeyword p4 "WHERE").
    - destruct (parseLogical_defined (snd (next p4))) as (r & -> & Hr).
      assert (Hn : List.length (snd (next p4)) <= List.length p4) by (destruct p4; simpl; lia).
      destruct r; eexists; (split; [reflexivity|]); intros sel p5 H; inv H.
      specialize (Hr _ _ eq_refl). lia.
    - eexists. split; [reflexivity|]. intros sel p5 H. inv H. auto. }
  destruct Hsel as (r & -> & Hr).
  destruct r as [sel p5|e]; [|eexists; split; [reflexivity | discriminate]].
  specialize (Hr _ _ eq_refl).
  destruct (peekIsKeyword p5 "LIMIT").
  - destruct p5 as [|l [|n p6]]; psimpl; try (eexists; split; [reflexivity | discriminate]).
    destruct (negb (hasType n TokenNumber));
      [eexists; split; [reflexivity | discriminate]|].
    destruct (ParseUint (Value n)); eexists; (split; [reflexivity|]);
      intros node p' H; inv H. simpl in *. lia.
  - eexists. split; [reflexivity|]. intros node p' H. inv H. simpl in *. lia.
Qed.

Lemma parseInsert_consumes (p p' : parser) (node : AstNode) :
  parseInsert p = Ok node p' -> List.length p' < List.length p.
Proof.
  unfold parseInsert. intros H.
  destruct p as [|s p]; cbn [peek next snd fst hd_error] in H; [discriminate|].
  destruct (expectKeyword "INTO" p) as [[e|] p1] eqn:Hinto; [discriminate|].
  apply expectKeyword_ok in Hinto. destruct Hinto as (ki & -> & _).
  destruct p1 as [|tn p2]; cbn [peek next snd fst hd_error] in H; [discriminate|].
  destruct (negb (hasType tn TokenIdentifier)); [discriminate|].
  set (rskip := if peekIsSep p2 "(" then _ else _) in H.
  assert (Hskip : forall u p3, rskip = Ok u p3 -> List.length p3 <= List.length p2).
  { subst rskip. intros u p3 Hs. destruct (peekIsSep p2 "(").
    - apply (skipColumnList_consumes _ _ _ _ (le_n _)) in Hs.
      assert (List.length (snd (next p2)) <= List.length p2) by (destruct p2; simpl; lia). lia.
    - inv Hs. auto. }
  destruct rskip as [u p3|e]; [|discriminate].
  specialize (Hskip _ _ eq_refl).
  destruct (expectKeyword "VALUES" p3) as [[e|] p4] eqn:Hvalues; [discriminate|].
  apply expectKeyword_ok in Hvalues. destruct Hvalues as (kv & -> & _).
  destruct (negb (peekIsSep p4 "(")); [discriminate|].
  destruct (parseValues (snd (next p4)) [] false) as [vals p5|e] eqn:Hvals; [|discriminate].
  apply parseValues_consumes in Hvals.
  destruct (negb (peekIsSep p5 ")")); [discriminate|]. inv H.
  assert (List.length (snd (next p5)) <= List.length p5) by (destruct p5; simpl; lia).
  assert (List.length (snd (next p4)) <= List.length p4) by (destruct p4; simpl; lia).
  simpl in *. lia.
Qed.

Lemma parseCreateTable_consumes (p p' : parser) (node : AstNode) :
  parseCreateTable p = Ok node p' -> List.length p' < List.length p.
Proof.
  unfold parseCreateTable. intros H.
  destruct p as [|s p]; cbn [peek next snd fst hd_error] in H; [discriminate|].
  destruct (expectKeyword "TABLE" p) as [[e|] p1] eqn:Htable; [discriminate|].
  apply expectKeyword_ok in Htable. destruct Htable as (kt & -> & _).
  destruct p1 as [|tn p2]; cbn [peek next snd fst hd_error] in H; [discriminate|].
  destruct (negb (hasType tn TokenIdentifier)); [discriminate|].
  destruct (negb (peekIsSep p2 "(")); [discriminate|].
  destruct (parseColumns (snd (next p2)) [] false) as [cols p3|e] eqn:Hcols; [|discriminate].
  apply (parseColumns_consumes _ _ _ _ _ _ (le_n _)) in Hcols. inv H.
  assert (List.length (snd (next p2)) <= List.length p2) by (destruct p2; simpl; lia).
  simpl. lia.
Qed.

Lemma parseStatement_defined (p : parser) :
  exists r, parseStatement p = Some r
            /\ forall node p', r = Ok node p' -> List.length p' < List.length p.
Proof.
  unfold parseStatement. destruct p as [|t p1]; simpl.
  { eexists. split; [reflexivity | discriminate]. }
  destruct (hasType t TokenKeyword); [|eexists; split; [reflexivity | discriminate]].
  destruct (String.eqb (ToUpper (Value t)) "SELECT").
  { apply (parseSelect_defined (t :: p1)). }
  destruct (String.eqb (ToUpper (Value t)) "INSERT").
  { eexists. split; [reflexivity|]. intros node p' H. apply parseInsert_consumes in H. auto. }
  destruct (String.eqb (ToUpper (Value t)) "CREATE").
  { eexists. split; [reflexivity|]. intros node p' H. apply parseCreateTable_consumes in H. auto. }
  eexists. split; [reflexivity | discriminate].
Qed.

(** Every run of the statement loop ends, either with the statements and no
    error or with an error and no statement. *)
Lemma parseStatements_loop_defined (fuel : nat) :
  forall p out,
    List.length p < fuel ->
    (exists nodes, parseStatements_loop fuel p out = Some (nodes, None))
    \/ (exists e, parseStatements_loop fuel p out = Some ([], Some e)).
Proof.
  induction fuel as [|fuel IH]; intros p out Hfuel; [lia|].
  cbn [parseStatements_loop].
  destruct p as [|t p1]; simpl peek; cbv iota; [left; eauto|].
  destruct (isSep t ";").
  { apply IH. simpl in *. lia. }
  destruct (parseStatement_defined (t :: p1)) as (r & -> & Hr).
  destruct r as [node p2|e]; [|right; eauto].
  specialize (Hr _ _ eq_refl).
  apply IH. assert (List.length (snd (next p2)) <= List.length p2) by (destruct p2; simpl; lia).
  destruct (peekIsSep p2 ";"); simpl in *; lia.
Qed.

Lemma parseStatements_loop_semicolons (p : parser) :
  forall fuel out,
    List.length p < fuel ->
    forallb (fun t => isSep t ";") p = true ->
    parseStatements_loop fuel p out = Some (out, None).
Proof.
  induction p as [|t p IH]; intros fuel out Hfuel Hall.
  - destruct fuel; [simpl in Hfuel; lia | reflexivity].
  - destruct fuel as [|fuel]; [lia|]. simpl in Hall.
    apply andb_true_iff in Hall. destruct Hall as [Ht Hall].
    cbn [parseStatements_loop]. simpl peek. cbv iota. rewrite Ht.
    apply IH; [simpl in Hfuel; lia | assumption].
Qed.

End Statements.

(** ** Claims on the statement loop *)

(** C5.  For every token sequence [parseStatements] returns, and when it
    returns an error it returns no statement node, whatever was parsed in
    earlier iterations; the same holds for [ParseString] on every input text.
    "SELECT FROM t", "CREATE TABLE t()" and "INSERT INTO t VALUES" each give
    an error and an empty result, and so does a failing statement that follows
    a well-formed one. *)
Theorem parse_error_returns_no_nodes :
  (forall p, exists nodes err,
      parseStatements p = Some (nodes, err) /\ (err <> None -> nodes = []))
  /\ (forall input, exists nodes err,
      ParseString input = Some (nodes, err) /\ (err <> None -> nodes = []))
  /\ ParseString "SELECT FROM t"
     = Some ([], Some (ErrExpectedProjection (Some (mkToken TokenKeyword "FROM"))))
  /\ ParseString "CREATE TABLE t()" = Some ([], Some ErrExpectedOneColumn)
  /\ ParseString "INSERT INTO t VALUES" = Some ([], Some ErrExpectedValuesParen)
  /\ ParseString "SELECT * FROM t; SELECT FROM t"
     = Some ([], Some (ErrExpectedProjection (Some (mkToken TokenKeyword "FROM")))).
Proof.
  assert (Hp : forall p, exists nodes err,
               parseStatements p = Some (nodes, err) /\ (err <> None -> nodes = [])).
  { intros p. unfold parseStatements.
    destruct (parseStatements_loop_defined (S (List.length p)) p [] (Nat.lt_succ_diag_r _))
      as [[nodes ->] | [e ->]].
    - exists nodes, None. split; [reflexivity | congruence].
    - exists [], (Some e). split; [reflexivity | auto]. }
  split; [exact Hp|].
  split; [|repeat split; reflexivity].
  intros input. unfold ParseString.
  destruct (Tokenize_defined input) as [toks ->]. apply Hp.
Qed.

(** C10.  A token sequence that is empty or holds only ';' Separator tokens
    parses to the empty statement sequence with no error; hence a run that
    ends in an error had a token that is not a ';' Separator. *)
Theorem only_semicolons_parse_to_nothing (p : parser) :
  (forallb (fun t => isSep t ";") p = true -> parseStatements p = Some ([], None))
  /\ (forall nodes e, parseStatements p = Some (nodes, Some e) ->
        existsb (fun t => negb (isSep t ";")) p = true).
Proof.
  assert (H : forallb (fun t => isSep t ";") p = true -> parseStatements p = Some ([], None)).
  { intros Hall. unfold parseStatements. apply parseStatements_loop_semicolons; auto. }
  split; [exact H|].
  intros nodes e Herr.
  destruct (existsb (fun t => negb (isSep t ";")) p) eqn:Hex; [reflexivity|].
  exfalso. rewrite H in Herr; [discriminate|].
  apply forallb_forall. intros t Hin.
  destruct (isSep t ";") eqn:Ht; [reflexivity|].
  assert (Hex' : existsb (fun t => negb (isSep t ";")) p = true).
  { apply existsb_exists. exists t. rewrite Ht. auto. }
  congruence.
Qed.

Lemma only_semicolons_parse_to_nothing_witness :
  parseStatements [mkToken TokenSeparator ";"; mkToken TokenSeparator ";"] = Some ([], None)
  /\ parseStatements [] = Some ([], None).
Proof.
  split.
  - exact (proj1 (only_semicolons_parse_to_nothing
                    [mkToken TokenSeparator ";"; mkToken TokenSeparator ";"]) eq_refl).
  - exact (proj1 (only_semicolons_parse_to_nothing []) eq_refl).
Defined.

(** ** CREATE TABLE *)

Import Grammar.

Section CreateTable.

Lemma parseColumns_close (rest : parser) (cols : list ColumnDef) :
  parseColumns (sep ")" :: rest) cols true = Ok cols rest.
Proof. reflexivity. Qed.

Lemma parseColumns_column (d : ColumnDef) (p2 : parser) (cols : list ColumnDef) (hc : bool) :
  parseColumns (column_tokens d ++ p2) cols hc
  = match p2 with
    | c :: p3 => if isSep c "," then parseColumns p3 (cols ++ [d]) true
                 else parseColumns p2 (cols ++ [d]) true
    | [] => parseColumns p2 (cols ++ [d]) true
    end.
Proof.
  destruct d as [n ty]. reflexivity.
Qed.

Lemma parseColumns_comma_separated (ds : list ColumnDef) :
  forall d cols hc (trailing : bool) rest,
    parseColumns (comma_separated d ds ++ (if trailing then [sep ","] else []) ++ sep ")" :: rest)
                 cols hc
    = Ok (cols ++ d :: ds) rest.
Proof.
  induction ds as [|d' ds IH]; intros d cols hc trailing rest.
  - cbn [comma_separated]. rewrite app_nil_r, parseColumns_column.
    destruct trailing; cbn [app]; simpl isSep; cbv iota;
      rewrite parseColumns_close; reflexivity.
  - cbn [comma_separated]. rewrite <- app_assoc, parseColumns_column.
    cbn [app]. simpl isSep. cbv iota. rewrite IH, <- app_assoc. reflexivity.
Qed.

Lemma parseColumns_loosely (n : nat) :
  forall p cols hc cols' rest,
    List.length p <= n ->
    parseColumns p cols hc = Ok cols' rest ->
    exists items,
      p = loosely_separated items ++ sep ")" :: rest
      /\ cols' = cols ++ map fst items
      /\ (hc = false -> items <> []).
Proof.
  induction n as [|n IH]; intros p cols hc cols' rest Hn H.
  - destruct p; [discriminate | simpl in Hn; lia].
  - destruct p as [|t p1]; [discriminate|]. rewrite parseColumns_step in H.
    simpl in Hn.
    destruct (isSep t ")") eqn:Hclose.
    { destruct hc; simpl in H; [|discriminate]. inv H.
      exists []. rewrite (isSep_eq _ _ Hclose), app_nil_r.
      repeat split; auto. discriminate. }
    destruct (hasType t TokenIdentifier) eqn:Hname; simpl in H; [|discriminate].
    destruct p1 as [|ty p2]; [discriminate|].
    destruct (hasType ty TokenIdentifier) eqn:Htype; simpl in H; [|discriminate].
    rewrite (token_of_type _ _ Hname), (token_of_type _ _ Htype). simpl Value.
    set (d := mkColumnDef (Value t) (Value ty)) in *.
    assert (Hrec : forall (comma : bool) p3,
               List.length p3 <= n ->
               parseColumns p3 (cols ++ [d]) true = Ok cols' rest ->
               p2 = (if comma then [sep ","] else []) ++ p3 ->
               exists items,
                 mkToken TokenIdentifier (Value t) :: mkToken TokenIdentifier (Value ty) :: p2
                 = loosely_separated items ++ sep ")" :: rest
                 /\ cols' = cols ++ map fst items /\ (hc = false -> items <> [])).
    { intros comma p3 Hlen Hp3 ->. apply IH in Hp3; [|assumption].
      destruct Hp3 as (items & -> & -> & _).
      exists ((d, comma) :: items). cbn [loosely_separated column_tokens map fst].
      rewrite <- !app_assoc. repeat split; auto. discriminate. }
    destruct p2 as [|c p3].
    + apply (Hrec false []); auto. simpl. lia.
    + destruct (isSep c ",") eqn:Hcomma.
      * pose proof (isSep_eq _ _ Hcomma). subst c. apply (Hrec true p3); auto. simpl in Hn. lia.
      * apply (Hrec false (c :: p3)); auto. simpl in *. lia.
Qed.

End CreateTable.

(** C4 (as stated, refuted).  The specification's grammar asks for a column
    definition after every comma; the parser accepts "CREATE TABLE t (a INT,)",
    whose tokens after the table name do not match that grammar. *)
Lemma create_table_accepts_trailing_comma :
  Tokenize "CREATE TABLE t (a INT,)"
  = Some ([mkToken TokenKeyword "CREATE"; mkToken TokenKeyword "TABLE"; ident "t"]
          ++ [sep "("; ident "a"; ident "INT"; sep ","; sep ")"])
  /\ spec_column_list [sep "("; ident "a"; ident "INT"; sep ","; sep ")"] = None
  /\ ParseString "CREATE TABLE t (a INT,)"
     = Some ([CreateTableStmt "t" [mkColumnDef "a" "INT"]], None).
Proof.
  repeat split; reflexivity.
Qed.

(** C4 (amended).  [parseCreateTable] accepts the column list
    ['(' ident ident (',' ident ident)* ','? ')'], comma-separated definitions
    with one optional comma before the closing parenthesis, and returns the
    definitions in order; whatever it accepts has at least one column
    definition, every definition a name token followed by a type token, each
    definition followed by a comma or not, and the closing parenthesis. *)
Theorem create_table_column_list :
  (forall c kt table d ds (trailing : bool) rest,
      isKeyword kt "TABLE" = true ->
      parseCreateTable
        (c :: kt :: ident table :: sep "(" ::
           comma_separated d ds ++ (if trailing then [sep ","] else []) ++ sep ")" :: rest)
      = Ok (CreateTableStmt table (d :: ds)) rest)
  /\ (forall p node rest,
        parseCreateTable p = Ok node rest ->
        exists c kt table items,
          isKeyword kt "TABLE" = true
          /\ items <> []
          /\ p = c :: kt :: ident table :: sep "(" :: loosely_separated items ++ sep ")" :: rest
          /\ node = CreateTableStmt table (map fst items)).
Proof.
  split.
  - intros c kt table d ds trailing rest Hkt.
    unfold parseCreateTable. cbn [next snd].
    rewrite (expectKeyword_keyword _ _ _ Hkt).
    cbn [peek hd_error next snd]. simpl hasType. simpl negb. cbv iota.
    simpl peekIsSep. simpl negb. cbv iota.
    rewrite parseColumns_comma_separated. reflexivity.
  - intros p node rest H. unfold parseCreateTable in H.
    destruct p as [|c p]; cbn [peek next snd fst hd_error] in H; [discriminate|].
    destruct (expectKeyword "TABLE" p) as [[e|] p1] eqn:Htable; [discriminate|].
    apply expectKeyword_ok in Htable. destruct Htable as (kt & -> & Hkt).
    destruct p1 as [|tn p2]; cbn [peek next snd fst hd_error] in H; [discriminate|].
    destruct (hasType tn TokenIdentifier) eqn:Htn; simpl negb in H; cbv iota in H;
      [|discriminate].
    destruct p2 as [|o p3]; [discriminate|].
    unfold peekIsSep in H. cbn [peek next snd fst hd_error] in H.
    destruct (isSep o "(") eqn:Ho; simpl negb in H; cbv iota in H; [|discriminate].
    destruct (parseColumns p3 [] false) as [cols p4|e] eqn:Hcols; [|discriminate].
    inv H.
    apply (parseColumns_loosely _ _ _ _ _ _ (le_n _)) in Hcols.
    destruct Hcols as (items & -> & -> & Hne).
    exists c, kt, (Value tn), items.
    rewrite (isSep_eq _ _ Ho). rewrite (token_of_type _ _ Htn) at 1.
    repeat split; auto.
Qed.

Lemma create_table_column_list_witness :
  parseCreateTable
    [mkToken TokenKeyword "CREATE"; mkToken TokenKeyword "table"; ident "t"; sep "(";
     ident "id"; ident "INT"; sep ","; ident "name"; ident "TEXT"; sep ","; sep ")"; sep ";"]
  = Ok (CreateTableStmt "t" [mkColumnDef "id" "INT"; mkColumnDef "name" "TEXT"]) [sep ";"].
Proof.
  exact (proj1 create_table_column_list
           (mkToken TokenKeyword "CREATE") (mkToken TokenKeyword "table") "t"
           (mkColumnDef "id" "INT") [mkColumnDef "name" "TEXT"] true [sep ";"] eq_refl).
Defined.

(** ** WHERE: chains of comparisons *)

Section Logical.

Lemma chain_tokens_length (links : list (Token * list Token * Expr)) :
  List.length links <= List.length (chain_tokens links).
Proof.
  induction links as [|[[kw toks] e] links IH]; simpl; [lia|].
  rewrite length_app. lia.
Qed.

Lemma parseLogical_loop_chain (rest : parser) (links : list (Token * list Token * Expr)) :
  forall fuel left,
    List.length links <= fuel ->
    Forall (fun '(kw, toks, e) =>
              isKeyword kw "AND" || isKeyword kw "OR" = true
              /\ forall r, parseComparison (toks ++ r) = Ok e r) links ->
    match peek rest with
    | Some t => isKeyword t "AND" || isKeyword t "OR"
    | None => false
    end = false ->
    parseLogical_loop fuel left (chain_tokens links ++ rest)
    = Some (Ok (fold_chain left links) rest).
Proof.
  induction links as [|[[kw toks] e] links IH]; intros fuel left Hfuel Hlinks Hrest.
  - simpl. destruct fuel; simpl; destruct rest as [|t rest']; simpl in *;
      try reflexivity; rewrite Hrest; reflexivity.
  - inversion Hlinks as [|x l Hhead Hlinks']; subst. simpl in Hhead.
    destruct Hhead as [Hkw Hcmp].
    destruct fuel as [|fuel]; [simpl in Hfuel; lia|].
    cbn [chain_tokens flat_map app]. rewrite <- app_assoc.
    cbn [parseLogical_loop peek hd_error next snd]. rewrite Hkw, Hcmp.
    apply IH; auto. simpl in Hfuel. lia.
Qed.

End Logical.

(** C6.  A chain [comparison ((AND|OR) comparison)*] parses to the left fold
    of its comparisons: each connective, AND or OR alike, takes everything
    parsed so far as its left operand and the next comparison as its right
    operand. *)
Theorem logical_chain_folds_left
        (first_toks : list Token) (first : Expr)
        (links : list (Token * list Token * Expr)) (rest : parser) :
  (forall r, parseComparison (first_toks ++ r) = Ok first r) ->
  Forall (fun '(kw, toks, e) =>
            isKeyword kw "AND" || isKeyword kw "OR" = true
            /\ forall r, parseComparison (toks ++ r) = Ok e r) links ->
  match peek rest with
  | Some t => isKeyword t "AND" || isKeyword t "OR"
  | None => false
  end = false ->
  parseLogical (first_toks ++ chain_tokens links ++ rest)
  = Some (Ok (fold_chain first links) rest).
Proof.
  intros Hfirst Hlinks Hrest. unfold parseLogical. rewrite Hfirst.
  apply parseLogical_loop_chain; auto.
  rewrite length_app. pose proof (chain_tokens_length links). lia.
Qed.

(** The chain a = 1 OR b = 2 AND c = 3 groups as ((a = 1 OR b = 2) AND c = 3). *)
Lemma logical_chain_folds_left_witness :
  parseLogical
    [ident "a"; mkToken TokenOperator "="; mkToken TokenNumber "1";
     mkToken TokenKeyword "OR";
     ident "b"; mkToken TokenOperator "="; mkToken TokenNumber "2";
     mkToken TokenKeyword "AND";
     ident "c"; mkToken TokenOperator "="; mkToken TokenNumber "3"]
  = Some (Ok (LogicalOp
                (LogicalOp (ComparisonOp (ColumnRef "a") "=" (LiteralInt 1)) "OR"
                           (ComparisonOp (ColumnRef "b") "=" (LiteralInt 2)))
                "AND" (ComparisonOp (ColumnRef "c") "=" (LiteralInt 3))) []).
Proof.
  apply (logical_chain_folds_left
           [ident "a"; mkToken TokenOperator "="; mkToken TokenNumber "1"]
           (ComparisonOp (ColumnRef "a") "=" (LiteralInt 1))
           [(mkToken TokenKeyword "OR",
             [ident "b"; mkToken TokenOperator "="; mkToken TokenNumber "2"],
             ComparisonOp (ColumnRef "b") "=" (LiteralInt 2));
            (mkToken TokenKeyword "AND",
             [ident "c"; mkToken TokenOperator "="; mkToken TokenNumber "3"],
             ComparisonOp (ColumnRef "c") "=" (LiteralInt 3))]
           []).
  - intros r. reflexivity.
  - repeat (apply Forall_cons; [split; [reflexivity | intros r; reflexivity]|]).
    apply Forall_nil.
  - reflexivity.
Defined.

(** The same grouping from query text, with the operators set off by spaces. *)
Example where_chain_from_text :
  ParseString "SELECT * FROM t WHERE a = 1 OR b = 2 AND c = 3"
  = Some ([SelectStmt [mkProjectionItem true EmptyString] (mkTableRef "t")
             (Some (LogicalOp
                      (LogicalOp (ComparisonOp (ColumnRef "a") "=" (LiteralInt 1)) "OR"
                                 (ComparisonOp (ColumnRef "b") "=" (LiteralInt 2)))
                      "AND" (ComparisonOp (ColumnRef "c") "=" (LiteralInt 3))))
             None], None).
Proof. reflexivity. Qed.

(** Written without spaces the same query does not reach the parser intact:
    the tokenizer drops the character after each '=' that follows a pending
    identifier, and the comparison finds OR where its right operand should be. *)
Example where_chain_without_spaces :
  ParseString "SELECT * FROM t WHERE a=1 OR b=2 AND c=3"
  = Some ([], Some (ErrUnexpectedRightSide (Some (mkToken TokenKeyword "OR")))).
Proof. reflexivity. Qed.

(** C7.  "SELECT * FROM users WHERE id = 123" parses to exactly one
    statement: a SelectStmt with the wildcard as its only projection, table
    "users", predicate ComparisonOp(ColumnRef "id", "=", LiteralInt 123) and
    no limit. *)
Theorem select_users_by_id :
  ParseString "SELECT * FROM users WHERE id = 123"
  = Some ([SelectStmt [mkProjectionItem true EmptyString] (mkTableRef "users")
             (Some (ComparisonOp (ColumnRef "id") "=" (LiteralInt 123))) None],
          None).
Proof. reflexivity. Qed.

(** ** INSERT: the optional column list *)

Section InsertColumnList.

Lemma skipColumnList_skips (n : nat) :
  forall mid rest,
    List.length mid <= n ->
    forallb (fun t => negb (isSep t ")")) mid = true ->
    skipColumnList (mid ++ sep ")" :: rest) = Ok tt rest.
Proof.
  induction n as [|n IH]; intros mid rest Hn Hmid.
  - destruct mid; [reflexivity | simpl in Hn; lia].
  - destruct mid as [|t mid1]; [reflexivity|].
    simpl in Hmid. apply andb_true_iff in Hmid. destruct Hmid as [Ht Hmid1].
    apply negb_true_iff in Ht.
    cbn [app]. rewrite skipColumnList_step, Ht.
    destruct mid1 as [|c mid2]; [reflexivity|].
    cbn [app]. destruct (isSep c ",").
    + simpl in Hmid1. apply andb_true_iff in Hmid1. destruct Hmid1 as [_ Hmid2].
      apply IH; auto. simpl in Hn. lia.
    + apply (IH (c :: mid2)); auto. simpl in *. lia.
Qed.

End InsertColumnList.

(** C9.  In an INSERT statement a parenthesized list after the table name is
    consumed up to its first ')' Separator whatever tokens it holds, and the
    statement parses as it does without the list. *)
Theorem insert_column_list_is_skipped
        (c ki : Token) (table : string) (mid : list Token) (rest : parser) :
  isKeyword ki "INTO" = true ->
  forallb (fun t => negb (isSep t ")")) mid = true ->
  peekIsSep rest "(" = false ->
  parseInsert (c :: ki :: ident table :: sep "(" :: mid ++ sep ")" :: rest)
  = parseInsert (c :: ki :: ident table :: rest).
Proof.
  intros Hki Hmid Hrest. unfold parseInsert. cbn [next snd].
  rewrite (expectKeyword_keyword _ _ (ident table :: rest) Hki).
  rewrite (expectKeyword_keyword _ _ (ident table :: sep "(" :: mid ++ sep ")" :: rest) Hki).
  cbn [peek hd_error next snd]. simpl hasType. simpl negb. cbv iota.
  rewrite Hrest.
  replace (peekIsSep (sep "(" :: mid ++ sep ")" :: rest) "(") with true by reflexivity.
  cbn [next snd]. rewrite (skipColumnList_skips _ _ _ (le_n _) Hmid). reflexivity.
Qed.

(** The tokens of INSERT INTO t (1, 'x') VALUES (2). *)
Lemma insert_column_list_is_skipped_witness :
  parseInsert
    ([mkToken TokenKeyword "INSERT"; mkToken TokenKeyword "INTO"; ident "t"; sep "("]
     ++ [mkToken TokenNumber "1"; sep ","; mkToken TokenString "x"]
     ++ [sep ")"; mkToken TokenKeyword "VALUES"; sep "("; mkToken TokenNumber "2"; sep ")"])
  = Ok (InsertStmt "t" [LiteralInt 2]) [].
Proof.
  exact (eq_trans
           (insert_column_list_is_skipped
              (mkToken TokenKeyword "INSERT") (mkToken TokenKeyword "INTO") "t"
              [mkToken TokenNumber "1"; sep ","; mkToken TokenString "x"]
              [mkToken TokenKeyword "VALUES"; sep "("; mkToken TokenNumber "2"; sep ")"]
              eq_refl eq_refl eq_refl)
           eq_refl).
Defined.

Example insert_with_literal_column_list :
  ParseString "INSERT INTO t (1, 'x') VALUES (2)" = Some ([InsertStmt "t" [LiteralInt 2]], None).
Proof. reflexivity. Qed.

(** ** Numbers with a fraction *)

Section Fractions.

Lemma ParseUint_loop_rejects_dot (v : string) :
  forall n, ContainsByte v "." = true -> exists e, ParseUint_loop v n = inr e.
Proof.
  induction v as [|c v IH]; intros n H; [discriminate|].
  simpl in H. cbn [ParseUint_loop].
  destruct (Ascii.eqb c ".") eqn:Hc.
  - apply Ascii.eqb_eq in Hc. subst c. eexists. reflexivity.
  - simpl in H. repeat break_match_goal; eauto.
Qed.

Lemma ParseUint_rejects_dot (v : string) :
  ContainsByte v "." = true -> exists e, ParseUint v = inr e.
Proof.
  intros H. unfold ParseUint. destruct (String.eqb v EmptyString); [eauto|].
  apply ParseUint_loop_rejects_dot. assumption.
Qed.

End Fractions.

(** C3 (as the code behaves).  The Number token "10.5" becomes LiteralInt 10
    as the right operand of a WHERE comparison and as a VALUES entry, but
    after LIMIT it is handed to [ParseUint] whole and the statement fails;
    so does every Number token with a '.' after LIMIT. *)
Theorem limit_rejects_fraction :
  ParseString "SELECT * FROM t WHERE a = 10.5"
  = Some ([SelectStmt [mkProjectionItem true EmptyString] (mkTableRef "t")
             (Some (ComparisonOp (ColumnRef "a") "=" (LiteralInt 10))) None], None)
  /\ ParseString "INSERT INTO t VALUES (10.5)" = Some ([InsertStmt "t" [LiteralInt 10]], None)
  /\ ParseString "SELECT * FROM t LIMIT 10.5" = Some ([], Some (ErrStrconv ErrSyntax))
  /\ (forall v rest,
        ContainsByte v "." = true ->
        exists e,
          parseSelect ([mkToken TokenKeyword "SELECT"; sep "*"; mkToken TokenKeyword "FROM";
                        ident "t"; mkToken TokenKeyword "LIMIT"; mkToken TokenNumber v] ++ rest)
          = Some (Err (ErrStrconv e))).
Proof.
  repeat split; try reflexivity.
  intros v rest Hv. destruct (ParseUint_rejects_dot v Hv) as [e He].
  exists e. cbn. rewrite He. reflexivity.
Qed.

Lemma limit_rejects_fraction_witness :
  exists e,
    parseSelect [mkToken TokenKeyword "SELECT"; sep "*"; mkToken TokenKeyword "FROM";
                 ident "t"; mkToken TokenKeyword "LIMIT"; mkToken TokenNumber "10.5"; sep ";"]
    = Some (Err (ErrStrconv e)).
Proof.
  exact (proj2 (proj2 (proj2 limit_rejects_fraction)) "10.5" [sep ";"] eq_refl).
Defined.

(** The column list of CREATE TABLE also parses with no comma between two
    definitions. *)
Example create_table_without_comma :
  ParseString "CREATE TABLE t (a INT b TEXT)"
  = Some ([CreateTableStmt "t" [mkColumnDef "a" "INT"; mkColumnDef "b" "TEXT"]], None).
Proof. reflexivity. Qed.

(** * Further properties *)

Import Lexemes.

(** ** What the tokenizer emits *)

Section EmittedTokens.

Lemma all_bytes_append (p : ascii -> bool) (s t : string) :
  all_bytes p (s ++ t)%string = all_bytes p s && all_bytes p t.
Proof.
  induction s as [|c s IH]; simpl; [reflexivity|]. rewrite IH, andb_assoc. reflexivity.
Qed.

Lemma length_zero_empty (s : string) : (0 <? String.length s) = false -> s = EmptyString.
Proof.
  destruct s; [reflexivity | discriminate].
Qed.

Lemma length_pos_nonempty (s : string) :
  (0 <? String.length s) = true -> String.eqb s EmptyString = false.
Proof.
  destruct s; [discriminate | reflexivity].
Qed.

Lemma createToken_ok (current : string) :
  (0 <? String.length current) = true ->
  no_delimiter current = true ->
  token_ok (createToken current) = true.
Proof.
  intros Hlen Hnd. apply length_pos_nonempty in Hlen.
  unfold createToken, token_ok.
  destruct (keywords (ToLower current)) eqn:Hk; simpl; [rewrite Hk, Hlen, Hnd; reflexivity|].
  destruct (isNumeric current) eqn:Hn; simpl; rewrite Hk, Hn, ?Hlen, Hnd; reflexivity.
Qed.

Lemma plain_rune_no_delimiter (ch : ascii) :
  isWhitespace ch = false ->
  isSeparator ch = false ->
  isOperator (string_of_rune ch) = false ->
  Ascii.eqb ch "'" || Ascii.eqb ch "034" = false ->
  no_delimiter (string_of_rune ch) = true.
Proof.
  destruct ch as [[] [] [] [] [] [] [] []]; vm_compute; intros; congruence.
Qed.

Lemma separator_token_ok (ch : ascii) :
  isSeparator ch = true -> token_ok (mkToken TokenSeparator (string_of_rune ch)) = true.
Proof.
  destruct ch as [[] [] [] [] [] [] [] []]; vm_compute; intros; congruence.
Qed.

Lemma substring_index (s : string) :
  forall i n ch, index s i = Some ch ->
                 substring i (S n) s = String ch (substring (S i) n s).
Proof.
  unfold index. induction s as [|a s IH]; intros i n ch H; [destruct i; discriminate|].
  destruct i as [|i]; simpl in *.
  - inversion H. subst. destruct s; reflexivity.
  - rewrite (IH _ _ _ H). destruct s; reflexivity.
Qed.

Lemma twoCharOperatorAt_true (input : string) (i : nat) :
  twoCharOperatorAt input i = Some true ->
  slice input i (i + 2) = Some (substring i 2 input)
  /\ isOperator (substring i 2 input) = true.
Proof.
  unfold twoCharOperatorAt. destruct (i + 1 <? String.length input) eqn:Hlt; [|discriminate].
  apply Nat.ltb_lt in Hlt. rewrite (slice_in_range _ _ Hlt).
  intros H. inversion H. auto.
Qed.

Lemma operator_rune_ok (ch : ascii) (x : string) :
  isOperator (string_of_rune ch) = true \/ isOperator (String ch x) = true ->
  token_ok (mkToken TokenOperator (string_of_rune ch)) = true.
Proof.
  unfold token_ok. simpl Typ. simpl Value. cbv iota.
  destruct ch as [[] [] [] [] [] [] [] []]; intros [H | H];
    try reflexivity; vm_compute in H; congruence.
Qed.

Lemma flush_ok (tokens : list Token) (current : string) :
  forallb token_ok tokens = true ->
  no_delimiter current = true ->
  forallb token_ok (fst (flush tokens current)) = true.
Proof.
  intros Ht Hc. unfold flush. destruct (0 <? String.length current) eqn:Hlen; simpl; [|assumption].
  rewrite forallb_app, Ht. simpl. rewrite createToken_ok; auto.
Qed.

Lemma Tokenize_loop_tokens_ok (input : string) (fuel : nat) :
  forall i current tokens toks,
    forallb token_ok tokens = true ->
    no_delimiter current = true ->
    Tokenize_loop fuel input i current tokens = Some toks ->
    forallb token_ok toks = true.
Proof.
  induction fuel as [|fuel IH]; intros i current tokens toks Ht Hc H; [discriminate|].
  cbn [Tokenize_loop] in H.
  destruct (i <? String.length input) eqn:Hlt.
  2:{ inversion H. subst. pose proof (flush_ok _ _ Ht Hc) as Hf. unfold flush in Hf.
      destruct (0 <? String.length current); assumption. }
  destruct (index input i) as [ch|] eqn:Hch; [|discriminate].
  destruct (isWhitespace ch) eqn:Hws.
  { pose proof (flush_ok _ _ Ht Hc) as Hf. pose proof (flush_resets tokens current) as Hr.
    destruct (flush tokens current) as [tokens' current']. simpl in Hf, Hr. subst current'.
    eapply IH; [| |exact H]; [assumption | reflexivity]. }
  destruct (isSeparator ch) eqn:Hsep.
  { pose proof (flush_ok _ _ Ht Hc) as Hf. pose proof (flush_resets tokens current) as Hr.
    destruct (flush tokens current) as [tokens' current']. simpl in Hf, Hr. subst current'.
    eapply IH; [| |exact H]; [|reflexivity].
    rewrite forallb_app, Hf. simpl. rewrite separator_token_ok; auto. }
  destruct (if isOperator (string_of_rune ch) then Some true else twoCharOperatorAt input i)
    as [[|]|] eqn:Hop; [| |discriminate].
  - assert (Hrune : token_ok (mkToken TokenOperator (string_of_rune ch)) = true).
    { destruct (isOperator (string_of_rune ch)) eqn:Hone.
      - apply (operator_rune_ok ch EmptyString). auto.
      - apply twoCharOperatorAt_true in Hop. destruct Hop as [_ Hop].
        rewrite (substring_index _ _ _ _ Hch) in Hop.
        apply (operator_rune_ok ch (substring (S i) 1 input)). auto. }
    pose proof (flush_ok _ _ Ht Hc) as Hf. unfold flush in Hf.
    destruct (0 <? String.length current) eqn:Hlen; simpl in Hf.
    + destruct (twoCharOperatorAt input (i + 1)) as [[|]|] eqn:Htwo; [| |discriminate].
      * apply twoCharOperatorAt_true in Htwo. destruct Htwo as [Hs Hisop]. rewrite Hs in H.
        eapply IH; [| |exact H]; [|reflexivity].
        rewrite forallb_app, Hf. simpl. unfold token_ok. simpl. rewrite Hisop. reflexivity.
      * eapply IH; [| |exact H]; [|reflexivity].
        rewrite forallb_app, Hf. simpl. rewrite Hrune. reflexivity.
    + destruct (twoCharOperatorAt input i) as [[|]|] eqn:Htwo; [| |discriminate].
      * apply twoCharOperatorAt_true in Htwo. destruct Htwo as [Hs Hisop]. rewrite Hs in H.
        eapply IH; [| |exact H]; [|assumption].
        rewrite forallb_app, Hf. simpl. unfold token_ok. simpl. rewrite Hisop. reflexivity.
      * eapply IH; [| |exact H]; [|assumption].
        rewrite forallb_app, Hf. simpl. rewrite Hrune. reflexivity.
  - assert (Hone : isOperator (string_of_rune ch) = false).
    { destruct (isOperator (string_of_rune ch)); [discriminate | reflexivity]. }
    destruct (Ascii.eqb ch "'" || Ascii.eqb ch "034") eqn:Hq.
    + pose proof (flush_ok _ _ Ht Hc) as Hf.
      destruct (flush tokens current) as [tokens' current']. simpl in Hf.
      destruct (scanString (String.length input) input ch (i + 1) current')
        as [[j body]|]; [|discriminate].
      eapply IH; [| |exact H]; [|reflexivity].
      rewrite forallb_app, Hf. reflexivity.
    + eapply IH; [| |exact H]; [assumption|].
      unfold no_delimiter in *. rewrite all_bytes_append, Hc.
      apply plain_rune_no_delimiter; assumption.
Qed.

End EmittedTokens.

(** X1.  Every token [Tokenize] emits is classified the way the tokenizer
    classifies: no token has type Whitespace or Unknown; a Keyword, Number or
    Identifier is a non-empty word free of whitespace, separators, quotes and
    one-character operators, typed as [createToken] types it; a Separator is
    one of the five separator characters; an Operator is one of the six
    operators or the lone '!'. *)
Theorem Tokenize_tokens_ok (input : string) (toks : list Token) :
  Tokenize input = Some toks -> forallb token_ok toks = true.
Proof.
  unfold Tokenize. apply Tokenize_loop_tokens_ok; reflexivity.
Qed.

Lemma Tokenize_tokens_ok_witness :
  forallb token_ok
    [mkToken TokenKeyword "select"; mkToken TokenSeparator "*"; mkToken TokenKeyword "FROM";
     mkToken TokenIdentifier "t"; mkToken TokenKeyword "where"; mkToken TokenIdentifier "a";
     mkToken TokenOperator ">="; mkToken TokenNumber "1.5"; mkToken TokenString "x y"]
  = true.
Proof.
  exact (Tokenize_tokens_ok "select * FROM t where a >= 1.5 'x y'" _ eq_refl).
Defined.

(** ** Nothing is emitted twice or out of order *)

Section Subsequence.

Lemma subseq_empty (t : string) : subseq EmptyString t.
Proof.
  induction t; constructor; assumption.
Qed.

Lemma subseq_refl (t : string) : subseq t t.
Proof.
  induction t; constructor; assumption.
Qed.

Lemma subseq_skip_app (pre s t : string) : subseq s t -> subseq s (pre ++ t)%string.
Proof.
  intros H. induction pre; simpl; [assumption | constructor; assumption].
Qed.

Lemma subseq_take_app (pre s t : string) :
  subseq s t -> subseq (pre ++ s)%string (pre ++ t)%string.
Proof.
  intros H. induction pre; simpl; [assumption | constructor; assumption].
Qed.

Lemma write_runes_append (s t : string) :
  write_runes (s ++ t)%string = (write_runes s ++ write_runes t)%string.
Proof.
  induction s as [|c s IH]; simpl; [reflexivity|]. rewrite IH, append_assoc. reflexivity.
Qed.

Lemma skip_empty (i : nat) : skip i EmptyString = EmptyString.
Proof.
  destruct i; reflexivity.
Qed.

Lemma skip_index (s : string) :
  forall i c, index s i = Some c -> skip i s = String c (skip (S i) s).
Proof.
  unfold index. induction s as [|a s IH]; intros i c H; [destruct i; discriminate|].
  destruct i as [|i]; simpl in *.
  - inversion H. reflexivity.
  - apply IH. assumption.
Qed.

Lemma skip_split (n : nat) : forall k s, exists pre, skip k s = (pre ++ skip (n + k) s)%string.
Proof.
  induction n as [|n IH]; intros k s.
  - exists EmptyString. reflexivity.
  - destruct (IH (S k) s) as [pre Hpre].
    replace (S n + k) with (n + S k) by lia.
    revert Hpre. generalize (skip (n + S k) s). intros tl Hpre.
    assert (Hstep : exists pre1, skip k s = (pre1 ++ skip (S k) s)%string).
    { clear. revert k. induction s as [|a s IHs]; intros k.
      - exists EmptyString. rewrite !skip_empty. reflexivity.
      - destruct k as [|k]; [exists (String a EmptyString); reflexivity|]. simpl.
        destruct (IHs k) as [pre1 H1]. exists pre1. rewrite H1.
        destruct s; reflexivity. }
    destruct Hstep as [pre1 H1]. exists (pre1 ++ pre)%string.
    rewrite H1, Hpre, append_assoc. reflexivity.
Qed.

Lemma subseq_skip_more (n k : nat) (s tail : string) :
  subseq tail (write_runes (skip (n + k) s)) -> subseq tail (write_runes (skip k s)).
Proof.
  intros H. destruct (skip_split n k s) as [pre ->].
  rewrite write_runes_append. apply subseq_skip_app. assumption.
Qed.

Lemma skip_two (s : string) (i : nat) :
  i + 1 < String.length s ->
  skip i s = (substring i 2 s ++ skip (i + 2) s)%string.
Proof.
  revert i. induction s as [|a s IH]; intros i Hi; [simpl in Hi; lia|].
  destruct i as [|i].
  - destruct s as [|b s]; [simpl in Hi; lia|]. simpl. destruct s; reflexivity.
  - simpl in Hi. simpl. apply IH. lia.
Qed.

Lemma operator_is_ascii (op : string) : isOperator op = true -> write_runes op = op.
Proof.
  unfold isOperator, operators. simpl. intros H.
  repeat (apply orb_true_iff in H; destruct H as [H | H]);
    try (apply String.eqb_eq in H; subst; reflexivity).
  discriminate.
Qed.

Lemma concat_values_app (a b : list Token) :
  concat_values (a ++ b) = (concat_values a ++ concat_values b)%string.
Proof.
  induction a as [|t a IH]; simpl; [reflexivity|]. rewrite IH, append_assoc. reflexivity.
Qed.

Lemma concat_values_snoc (a : list Token) (t : Token) :
  concat_values (a ++ [t]) = (concat_values a ++ Value t)%string.
Proof.
  rewrite concat_values_app. simpl. rewrite append_empty_r. reflexivity.
Qed.

Lemma createToken_value (v : string) : Value (createToken v) = v.
Proof.
  unfold createToken. destruct (keywords (ToLower v)); [reflexivity|].
  destruct (isNumeric v); reflexivity.
Qed.

Lemma flush_values (tokens : list Token) (current : string) :
  concat_values (fst (flush tokens current)) = (concat_values tokens ++ current)%string.
Proof.
  unfold flush. destruct (0 <? String.length current) eqn:Hlen; simpl.
  - rewrite concat_values_snoc, createToken_value. reflexivity.
  - apply length_zero_empty in Hlen. subst. rewrite append_empty_r. reflexivity.
Qed.

Lemma scanString_segment (input : string) (quote : ascii) (fuel : nat) :
  forall i current j body,
    scanString fuel input quote i current = Some (j, body) ->
    exists seg,
      body = (current ++ write_runes seg)%string
      /\ skip i input = (seg ++ skip j input)%string.
Proof.
  induction fuel as [|fuel IH]; intros i current j body H.
  - simpl in H. destruct (i <? String.length input).
    + destruct (index input i); [|discriminate].
      destruct (negb (Ascii.eqb a quote)); [discriminate|].
      inversion H. subst. exists EmptyString. rewrite append_empty_r. auto.
    + inversion H. subst. exists EmptyString. rewrite append_empty_r. auto.
  - simpl in H. destruct (i <? String.length input).
    + destruct (index input i) as [c|] eqn:Hc; [|discriminate].
      destruct (negb (Ascii.eqb c quote)).
      * apply IH in H. destruct H as (seg & -> & Hseg).
        exists (String c seg). simpl. rewrite append_assoc. split; [reflexivity|].
        rewrite (skip_index _ _ _ Hc). replace (S i) with (i + 1) by lia.
        rewrite Hseg. reflexivity.
      * inversion H. subst. exists EmptyString. rewrite append_empty_r. auto.
    + inversion H. subst. exists EmptyString. rewrite append_empty_r. auto.
Qed.

(** What the loop still emits comes, in order, from the input still to scan. *)
Lemma Tokenize_loop_subseq (input : string) (fuel : nat) :
  forall i current tokens toks,
    Tokenize_loop fuel input i current tokens = Some toks ->
    exists tail,
      concat_values toks = (concat_values tokens ++ current ++ tail)%string
      /\ subseq tail (write_runes (skip i input)).
Proof.
  induction fuel as [|fuel IH]; intros i current tokens toks H; [discriminate|].
  cbn [Tokenize_loop] in H.
  destruct (i <? String.length input) eqn:Hlt.
  2:{ inversion H. subst. exists EmptyString. split; [|apply subseq_empty].
      rewrite append_empty_r. pose proof (flush_values tokens current) as Hf.
      unfold flush in Hf. destruct (0 <? String.length current); exact Hf. }
  destruct (index input i) as [ch|] eqn:Hch; [|discriminate].
  pose proof (skip_index _ _ _ Hch) as Hskip. replace (S i) with (i + 1) in Hskip by lia.
  pose proof (flush_values tokens current) as Hf.
  pose proof (flush_resets tokens current) as Hr.
  destruct (isWhitespace ch).
  { destruct (flush tokens current) as [tokens' current']. simpl in Hf, Hr. subst current'.
    apply IH in H. destruct H as (tail & Hv & Hs). exists tail.
    rewrite Hv, Hf. simpl. rewrite ?append_assoc. split; [reflexivity|].
    apply (subseq_skip_more 1 i). rewrite Nat.add_comm. assumption. }
  destruct (isSeparator ch).
  { destruct (flush tokens current) as [tokens' current']. simpl in Hf, Hr. subst current'.
    apply IH in H. destruct H as (tail & Hv & Hs).
    exists (string_of_rune ch ++ tail)%string.
    rewrite Hv, concat_values_snoc, Hf. simpl. rewrite !append_assoc. split; [reflexivity|].
    rewrite Hskip. simpl. apply subseq_take_app. assumption. }
  destruct (if isOperator (string_of_rune ch) then Some true else twoCharOperatorAt input i)
    as [[|]|]; [| |discriminate].
  - clear Hr. unfold flush in Hf.
    destruct (0 <? String.length current) eqn:Hlen; simpl in Hf.
    + destruct (twoCharOperatorAt input (i + 1)) as [[|]|] eqn:Htwo; [| |discriminate].
      * pose proof Htwo as Hlt2. unfold twoCharOperatorAt in Hlt2.
        destruct (i + 1 + 1 <? String.length input) eqn:Hlt3; [|discriminate]. clear Hlt2.
        apply Nat.ltb_lt in Hlt3.
        apply twoCharOperatorAt_true in Htwo. destruct Htwo as [Hs Hisop]. rewrite Hs in H.
        apply IH in H. destruct H as (tail & Hv & Hsub).
        exists (substring (i + 1) 2 input ++ tail)%string.
        rewrite Hv, concat_values_snoc, Hf. simpl. rewrite !append_assoc. split; [reflexivity|].
        rewrite Hskip. simpl. apply subseq_skip_app.
        rewrite (skip_two _ _ Hlt3), write_runes_append, (operator_is_ascii _ Hisop).
        apply subseq_take_app. assumption.
      * apply IH in H. destruct H as (tail & Hv & Hsub).
        exists (string_of_rune ch ++ tail)%string.
        rewrite Hv, concat_values_snoc, Hf. simpl. rewrite !append_assoc. split; [reflexivity|].
        rewrite Hskip. simpl. apply subseq_take_app.
        apply (subseq_skip_more 1 (i + 1)). rewrite Nat.add_comm. assumption.
    + apply length_zero_empty in Hlen. subst current.
      destruct (twoCharOperatorAt input i) as [[|]|] eqn:Htwo; [| |discriminate].
      * pose proof Htwo as Hlt2. unfold twoCharOperatorAt in Hlt2.
        destruct (i + 1 <? String.length input) eqn:Hlt3; [|discriminate]. clear Hlt2.
        apply Nat.ltb_lt in Hlt3.
        apply twoCharOperatorAt_true in Htwo. destruct Htwo as [Hs Hisop]. rewrite Hs in H.
        apply IH in H. destruct H as (tail & Hv & Hsub).
        exists (substring i 2 input ++ tail)%string.
        rewrite Hv, concat_values_snoc. simpl. rewrite !append_assoc. split; [reflexivity|].
        rewrite (skip_two _ _ Hlt3), write_runes_append, (operator_is_ascii _ Hisop).
        apply subseq_take_app. assumption.
      * apply IH in H. destruct H as (tail & Hv & Hsub).
        exists (string_of_rune ch ++ tail)%string.
        rewrite Hv, concat_values_snoc. simpl. rewrite !append_assoc. split; [reflexivity|].
        rewrite Hskip. simpl. apply subseq_take_app. assumption.
  - destruct (Ascii.eqb ch "'" || Ascii.eqb ch "034").
    + destruct (flush tokens current) as [tokens' current']. simpl in Hf, Hr. subst current'.
      destruct (scanString (String.length input) input ch (i + 1) EmptyString)
        as [[j body]|] eqn:Hscan; [|discriminate].
      apply scanString_segment in Hscan. destruct Hscan as (seg & -> & Hseg).
      apply IH in H. destruct H as (tail & Hv & Hsub).
      exists (write_runes seg ++ tail)%string.
      rewrite Hv, concat_values_snoc, Hf. simpl. rewrite !append_assoc. split; [reflexivity|].
      rewrite Hskip. simpl. apply subseq_skip_app.
      rewrite Hseg, write_runes_append. apply subseq_take_app.
      destruct (j <? String.length input); [|assumption].
      apply (subseq_skip_more 1 j). rewrite Nat.add_comm. assumption.
    + apply IH in H. destruct H as (tail & Hv & Hsub).
      exists (string_of_rune ch ++ tail)%string.
      rewrite Hv, !append_assoc. split; [reflexivity|].
      rewrite Hskip. simpl. apply subseq_take_app. assumption.
Qed.

End Subsequence.

(** X2.  The values of the tokens [Tokenize] emits, read one after the other,
    are the bytes of the input (each written back as a rune) with some left
    out: no byte of the input is emitted twice and none out of order. *)
Theorem Tokenize_values_subseq (input : string) (toks : list Token) :
  Tokenize input = Some toks -> subseq (concat_values toks) (write_runes input).
Proof.
  unfold Tokenize. intros H. apply Tokenize_loop_subseq in H.
  destruct H as (tail & -> & Hsub). exact Hsub.
Qed.

Lemma Tokenize_values_subseq_witness : subseq "a<=x y" "a <= 'x y'".
Proof.
  exact (Tokenize_values_subseq "a <= 'x y'"
           [mkToken TokenIdentifier "a"; mkToken TokenOperator "<=";
            mkToken TokenString "x y"] eq_refl).
Defined.

(** ** Text that tokenizes to a given token sequence *)

Section PrintTokenize.

Lemma plain_not_whitespace (c : ascii) : is_plain c = true -> isWhitespace c = false.
Proof.
  destruct c as [[] [] [] [] [] [] [] []]; vm_compute; congruence.
Qed.

Lemma plain_not_separator (c : ascii) : is_plain c = true -> isSeparator c = false.
Proof.
  destruct c as [[] [] [] [] [] [] [] []]; vm_compute; congruence.
Qed.

Lemma plain_not_quote (c : ascii) :
  is_plain c = true -> Ascii.eqb c "'" || Ascii.eqb c "034" = false.
Proof.
  destruct c as [[] [] [] [] [] [] [] []]; vm_compute; congruence.
Qed.

Lemma plain_rune (c : ascii) : is_plain c = true -> string_of_rune c = String c EmptyString.
Proof.
  destruct c as [[] [] [] [] [] [] [] []]; vm_compute; congruence.
Qed.

Lemma plain_not_operator (c : ascii) (x : string) :
  is_plain c = true -> isOperator (String c x) = false.
Proof.
  destruct c as [[] [] [] [] [] [] [] []]; vm_compute; intros H; try reflexivity; discriminate H.
Qed.

Lemma substring_zero (s : string) : substring 0 0 s = EmptyString.
Proof.
  destruct s; reflexivity.
Qed.

Lemma twoCharOperatorAt_append (pre s : string) :
  twoCharOperatorAt (pre ++ s)%string (String.length pre)
  = if 1 <? String.length s then Some (isOperator (substring 0 2 s)) else Some false.
Proof.
  unfold twoCharOperatorAt. rewrite length_append.
  destruct (1 <? String.length s) eqn:Hs.
  - apply Nat.ltb_lt in Hs.
    replace (String.length pre + 1 <? String.length pre + String.length s) with true
      by (symmetry; apply Nat.ltb_lt; lia).
    rewrite slice_in_range by (rewrite length_append; lia).
    rewrite substring_append_length. reflexivity.
  - apply Nat.ltb_ge in Hs.
    replace (String.length pre + 1 <? String.length pre + String.length s) with false
      by (symmetry; apply Nat.ltb_ge; lia).
    reflexivity.
Qed.

Lemma lt_length_append (pre : string) (c : ascii) (rest : string) :
  (String.length pre <? String.length (pre ++ String c rest)%string) = true.
Proof.
  apply Nat.ltb_lt. rewrite length_append. simpl. lia.
Qed.

Lemma runs_end (input : string) (i : nat) (current : string) (tokens : list Token) :
  String.length input <= i ->
  runs_to input i current tokens (fst (flush tokens current)).
Proof.
  intros Hi fuel Hfuel. destruct fuel as [|fuel]; [lia|]. cbn [Tokenize_loop].
  replace (i <? String.length input) with false by (symmetry; apply Nat.ltb_ge; lia).
  unfold flush. destruct (0 <? String.length current); reflexivity.
Qed.

Lemma runs_plain (pre : string) (c : ascii) (rest current : string)
      (tokens result : list Token) :
  is_plain c = true ->
  runs_to (pre ++ String c rest)%string (String.length pre + 1)
          (current ++ String c EmptyString)%string tokens result ->
  runs_to (pre ++ String c rest)%string (String.length pre) current tokens result.
Proof.
  intros Hc Hnext fuel Hfuel. destruct fuel as [|fuel]; [lia|]. cbn [Tokenize_loop].
  rewrite lt_length_append, index_append_length.
  rewrite (plain_not_whitespace _ Hc), (plain_not_separator _ Hc), (plain_rune _ Hc).
  rewrite (plain_not_operator _ EmptyString Hc), twoCharOperatorAt_append.
  assert (Htwo : (if 1 <? String.length (String c rest)
                  then Some (isOperator (substring 0 2 (String c rest))) else Some false)
                 = Some false).
  { destruct (1 <? String.length (String c rest)); [|reflexivity].
    simpl. rewrite (plain_not_operator _ _ Hc). reflexivity. }
  rewrite Htwo, (plain_not_quote _ Hc).
  apply Hnext. rewrite length_append in *. simpl in *. lia.
Qed.

Lemma runs_word (w : string) :
  forall pre rest current tokens result,
    all_bytes is_plain w = true ->
    runs_to (pre ++ w ++ rest)%string (String.length pre + String.length w)
            (current ++ w)%string tokens result ->
    runs_to (pre ++ w ++ rest)%string (String.length pre) current tokens result.
Proof.
  induction w as [|c w IH]; intros pre rest current tokens result Hw Hnext.
  - simpl in *. rewrite Nat.add_0_r, append_empty_r in Hnext. exact Hnext.
  - simpl in Hw. apply andb_true_iff in Hw. destruct Hw as [Hc Hw].
    simpl append. apply runs_plain; [assumption|].
    rewrite <- append_snoc.
    replace (String.length pre + 1) with (String.length (pre ++ String c EmptyString)%string)
      by (rewrite length_append; reflexivity).
    apply IH; [assumption|].
    rewrite append_snoc, length_append, append_assoc. simpl.
    replace (String.length pre + 1 + String.length w)
      with (String.length pre + S (String.length w)) by lia.
    exact Hnext.
Qed.

Lemma runs_space (pre rest current : string) (tokens result : list Token) :
  runs_to (pre ++ String " " rest)%string (String.length pre + 1) EmptyString
          (fst (flush tokens current)) result ->
  runs_to (pre ++ String " " rest)%string (String.length pre) current tokens result.
Proof.
  intros Hnext fuel Hfuel. destruct fuel as [|fuel]; [lia|]. cbn [Tokenize_loop].
  rewrite lt_length_append, index_append_length.
  replace (isWhitespace " ") with true by reflexivity.
  pose proof (flush_resets tokens current) as Hr.
  destruct (flush tokens current) as [tokens' current']. simpl in Hr, Hnext. subst current'.
  apply Hnext. rewrite length_append in *. simpl in *. lia.
Qed.

Lemma runs_separator (pre v rest : string) (tokens result : list Token) :
  existsb (String.eqb v) [","; ";"; "("; ")"; "*"] = true ->
  runs_to (pre ++ v ++ rest)%string (String.length pre + String.length v) EmptyString
          (tokens ++ [mkToken TokenSeparator v]) result ->
  runs_to (pre ++ v ++ rest)%string (String.length pre) EmptyString tokens result.
Proof.
  intros Hv Hnext fuel Hfuel. simpl in Hv.
  assert (Hlen : String.length pre < String.length (pre ++ v ++ rest)%string).
  { rewrite !length_append.
    repeat (apply orb_true_iff in Hv; destruct Hv as [Hv | Hv]);
      try (apply String.eqb_eq in Hv; subst; simpl; lia). discriminate. }
  destruct fuel as [|fuel]; [lia|].
  repeat (apply orb_true_iff in Hv; destruct Hv as [Hv | Hv]);
    try discriminate; apply String.eqb_eq in Hv; subst v;
    simpl append in *; cbn [Tokenize_loop];
    rewrite lt_length_append, index_append_length; simpl;
    apply Hnext; simpl in *; lia.
Qed.

Lemma runs_operator (pre op rest : string) (tokens result : list Token) :
  isOperator op = true ->
  rest = EmptyString \/ (exists rest', rest = String " " rest') ->
  runs_to (pre ++ op ++ rest)%string (String.length pre + String.length op) EmptyString
          (tokens ++ [mkToken TokenOperator op]) result ->
  runs_to (pre ++ op ++ rest)%string (String.length pre) EmptyString tokens result.
Proof.
  intros Hop Hrest Hnext fuel Hfuel. unfold isOperator, operators in Hop. simpl in Hop.
  assert (Hlen : String.length pre < String.length (pre ++ op ++ rest)%string).
  { rewrite !length_append.
    repeat (apply orb_true_iff in Hop; destruct Hop as [Hop | Hop]);
      try (apply String.eqb_eq in Hop; subst; simpl; lia). discriminate. }
  destruct fuel as [|fuel]; [lia|].
  repeat (apply orb_true_iff in Hop; destruct Hop as [Hop | Hop]);
    try discriminate; apply String.eqb_eq in Hop; subst op;
    simpl append in *; cbn [Tokenize_loop];
    rewrite lt_length_append, index_append_length; simpl;
    rewrite twoCharOperatorAt_append;
    destruct Hrest as [-> | [rest' ->]]; simpl;
    rewrite ?slice_in_range by (rewrite length_append; simpl; lia);
    rewrite ?substring_append_length; simpl; rewrite ?substring_zero;
    apply Hnext; simpl in *; lia.
Qed.

Lemma scanString_terminated (quote : ascii) (body : string) :
  forall pre rest fuel current,
    String.length body <= fuel ->
    ContainsByte body quote = false ->
    scanString fuel (pre ++ body ++ String quote rest)%string quote (String.length pre) current
    = Some (String.length pre + String.length body, (current ++ write_runes body)%string).
Proof.
  induction body as [|c body IH]; intros pre rest fuel current Hfuel Hq.
  - simpl append. rewrite Nat.add_0_r, append_empty_r.
    destruct fuel; simpl; rewrite lt_length_append, index_append_length, Ascii.eqb_refl;
      reflexivity.
  - simpl in Hq. apply orb_false_iff in Hq. destruct Hq as [Hc Hbody].
    destruct fuel as [|fuel]; [simpl in Hfuel; lia|].
    simpl append. simpl scanString.
    rewrite lt_length_append, index_append_length, Hc. simpl negb. cbv iota.
    rewrite <- append_snoc.
    replace (String.length pre + 1) with (String.length (pre ++ String c EmptyString)%string)
      by (rewrite length_append; reflexivity).
    rewrite IH by (simpl in Hfuel; auto; lia).
    rewrite length_append. simpl write_runes. rewrite (append_assoc current). simpl.
    f_equal. f_equal. lia.
Qed.

Lemma ascii_body (body : string) :
  all_bytes (fun c => (N_of_ascii c <? 128)%N && negb (Ascii.eqb c "'")) body = true ->
  write_runes body = body /\ ContainsByte body "'" = false.
Proof.
  induction body as [|c body IH]; simpl; intros H; [auto|].
  apply andb_true_iff in H. destruct H as [Hc Hbody].
  apply andb_true_iff in Hc. destruct Hc as [Hascii Hq].
  destruct (IH Hbody) as [Hw Hn]. unfold string_of_rune. rewrite Hascii, Hw, Hn.
  apply negb_true_iff in Hq. rewrite Hq. auto.
Qed.

Lemma runs_string (pre body rest : string) (tokens result : list Token) :
  all_bytes (fun c => (N_of_ascii c <? 128)%N && negb (Ascii.eqb c "'")) body = true ->
  runs_to (pre ++ String "'" (body ++ String "'" rest))%string
          (String.length pre + (String.length body + 2)) EmptyString
          (tokens ++ [mkToken TokenString body]) result ->
  runs_to (pre ++ String "'" (body ++ String "'" rest))%string
          (String.length pre) EmptyString tokens result.
Proof.
  intros Hbody Hnext fuel Hfuel. destruct (ascii_body _ Hbody) as [Hw Hn].
  set (input := (pre ++ String "'" (body ++ String "'" rest))%string) in *.
  assert (Hlen : String.length input
                 = String.length pre + S (String.length body + S (String.length rest))).
  { unfold input. rewrite length_append. simpl. rewrite length_append. reflexivity. }
  destruct fuel as [|fuel]; [lia|]. cbn [Tokenize_loop].
  unfold input at 1 2. rewrite lt_length_append, index_append_length. fold input. simpl.
  unfold input at 1. rewrite twoCharOperatorAt_append. fold input.
  assert (Htwo : (if 1 <? String.length (String "'" (body ++ String "'" rest))
                  then Some (isOperator (substring 0 2 (String "'" (body ++ String "'" rest))))
                  else Some false) = Some false).
  { destruct (1 <? _); [|reflexivity]. reflexivity. }
  rewrite Htwo.
  assert (Hscan : scanString (String.length input) input "'" (String.length pre + 1) EmptyString
                  = Some (String.length pre + 1 + String.length body, body)).
  { unfold input. rewrite <- append_snoc.
    replace (String.length pre + 1)
      with (String.length (pre ++ String "'" EmptyString)%string)
      by (rewrite length_append; reflexivity).
    rewrite scanString_terminated; [rewrite Hw; reflexivity| |assumption].
    rewrite append_snoc. fold input. lia. }
  rewrite Hscan.
  replace (String.length pre + 1 + String.length body <? String.length input) with true
    by (symmetry; apply Nat.ltb_lt; lia).
  replace (String.length pre + 1 + String.length body + 1)
    with (String.length pre + (String.length body + 2)) by lia.
  apply Hnext. lia.
Qed.

(** After the text of a printable token, at the end of the input or before a
    space, the token is the next one emitted. *)
Lemma runs_show (t : Token) (pre rest : string) (tokens result : list Token) :
  printable t = true ->
  rest = EmptyString \/ (exists rest', rest = String " " rest') ->
  (forall current tokens',
      fst (flush tokens' current) = tokens ++ [t] ->
      runs_to (pre ++ show t ++ rest)%string (String.length pre + String.length (show t))
              current tokens' result) ->
  runs_to (pre ++ show t ++ rest)%string (String.length pre) EmptyString tokens result.
Proof.
  intros Ht Hrest Hnext. destruct t as [typ v]. unfold printable in Ht. unfold show in *.
  simpl Typ in *. simpl Value in *.
  assert (Hword : negb (String.eqb v EmptyString) && all_bytes is_plain v
                  && TokenType_eqb (Typ (createToken v)) typ = true ->
                  runs_to (pre ++ v ++ rest)%string (String.length pre) EmptyString tokens result).
  { intros H. apply andb_true_iff in H. destruct H as [H Htyp].
    apply andb_true_iff in H. destruct H as [Hne Hplain].
    apply runs_word; [assumption|]. simpl append.
    specialize (Hnext v tokens). 
    assert (Hcase : Typ (createToken v) = typ)
      by (destruct (Typ (createToken v)), typ; simpl in Htyp; congruence).
    assert (Hshow : (match typ with
                     | TokenString => String "'" (v ++ String "'" EmptyString)
                     | _ => v end) = v \/ typ = TokenString).
    { destruct typ; auto. }
    destruct Hshow as [Hshow | ->].
    - rewrite Hshow in Hnext. apply Hnext.
      unfold flush. destruct v as [|c v]; [discriminate|]. simpl. f_equal.
      pose proof (createToken_value (String c v)) as Hval.
      destruct (createToken (String c v)) as [typ' v']. simpl in *. subst. reflexivity.
    - exfalso. unfold createToken in Hcase.
      destruct (keywords (ToLower v)); [discriminate|].
      destruct (isNumeric v); discriminate. }
  destruct typ; try discriminate; try (apply Hword; assumption).
  - apply runs_operator; [assumption | assumption |]. apply (Hnext EmptyString). reflexivity.
  - replace (String.length pre + String.length (String "'" (v ++ String "'" EmptyString)))
      with (String.length pre + (String.length v + 2)) in Hnext
      by (simpl; rewrite length_append; simpl; lia).
    replace (String "'" (v ++ String "'" EmptyString) ++ rest)%string
      with (String "'" (v ++ String "'" rest)) in *
      by (simpl; rewrite append_assoc; reflexivity).
    apply runs_string; [assumption|].
    apply (Hnext EmptyString). reflexivity.
  - apply runs_separator; [assumption|]. apply (Hnext EmptyString). reflexivity.
Qed.

Lemma runs_print (toks : list Token) :
  forall pre tokens,
    forallb printable toks = true ->
    runs_to (pre ++ print toks)%string (String.length pre) EmptyString tokens (tokens ++ toks).
Proof.
  induction toks as [|t toks IH]; intros pre tokens Hall.
  - simpl. rewrite append_empty_r, app_nil_r.
    apply (runs_end pre (String.length pre) EmptyString tokens). lia.
  - simpl in Hall. apply andb_true_iff in Hall. destruct Hall as [Ht Hall].
    destruct toks as [|t' toks].
    + simpl print. rewrite <- (append_empty_r (show t)) at 1.
      apply runs_show; auto. intros current tokens' Hflush. rewrite <- Hflush.
      apply runs_end. rewrite append_empty_r, length_append. lia.
    + change (print (t :: t' :: toks)) with (show t ++ String " " (print (t' :: toks)))%string.
      apply runs_show; eauto. intros current tokens' Hflush.
      rewrite <- append_assoc, <- length_append.
      apply runs_space. rewrite Hflush.
      rewrite <- append_snoc.
      replace (String.length (pre ++ show t)%string + 1)
        with (String.length ((pre ++ show t) ++ String " " EmptyString)%string)
        by (rewrite (length_append (pre ++ show t)); reflexivity).
      replace (tokens ++ t :: t' :: toks) with ((tokens ++ [t]) ++ t' :: toks)
        by (rewrite <- app_assoc; reflexivity).
      apply IH. assumption.
Qed.

End PrintTokenize.

(** X3.  A sequence of printable tokens, written out with one space between
    each two (a String between single quotes), tokenizes back to exactly that
    sequence, types and values alike. *)
Theorem Tokenize_print (toks : list Token) :
  forallb printable toks = true -> Tokenize (print toks) = Some toks.
Proof.
  intros Hall. unfold Tokenize.
  apply (runs_print toks EmptyString [] Hall). simpl. lia.
Qed.

Lemma Tokenize_print_witness :
  Tokenize "Select * from t where a != 'x = 1' AND b >= 2.5 ;"
  = Some [mkToken TokenKeyword "Select"; mkToken TokenSeparator "*";
          mkToken TokenKeyword "from"; mkToken TokenIdentifier "t";
          mkToken TokenKeyword "where"; mkToken TokenIdentifier "a";
          mkToken TokenOperator "!="; mkToken TokenString "x = 1";
          mkToken TokenKeyword "AND"; mkToken TokenIdentifier "b";
          mkToken TokenOperator ">="; mkToken TokenNumber "2.5";
          mkToken TokenSeparator ";"].
Proof.
  exact (Tokenize_print
           [mkToken TokenKeyword "Select"; mkToken TokenSeparator "*";
            mkToken TokenKeyword "from"; mkToken TokenIdentifier "t";
            mkToken TokenKeyword "where"; mkToken TokenIdentifier "a";
            mkToken TokenOperator "!="; mkToken TokenString "x = 1";
            mkToken TokenKeyword "AND"; mkToken TokenIdentifier "b";
            mkToken TokenOperator ">="; mkToken TokenNumber "2.5";
            mkToken TokenSeparator ";"] eq_refl).
Defined.

(** ** One statement after the other *)

Section Sequencing.

(** The statements already collected are carried through unchanged. *)
Lemma parseStatements_loop_out (fuel : nat) :
  forall p out,
    parseStatements_loop fuel p out
    = match parseStatements_loop fuel p [] with
      | Some (nodes, None) => Some (out ++ nodes, None)
      | other => other
      end.
Proof.
  induction fuel as [|fuel IH]; intros p out; [reflexivity|].
  cbn [parseStatements_loop].
  destruct (peek p) as [t|]; [|rewrite app_nil_r; reflexivity].
  destruct (isSep t ";"); [apply IH|].
  destruct (parseStatement p) as [[node p1|e]|]; try reflexivity.
  rewrite (IH _ (out ++ [node])), (IH _ ([] ++ [node])).
  destruct (parseStatements_loop fuel _ []) as [[nodes [e|]]|]; try reflexivity.
  rewrite <- app_assoc. reflexivity.
Qed.

(** More fuel than tokens is as good as any other such amount. *)
Lemma parseStatements_loop_fuel (fuel : nat) :
  forall fuel' p out,
    List.length p < fuel -> List.length p < fuel' ->
    parseStatements_loop fuel p out = parseStatements_loop fuel' p out.
Proof.
  induction fuel as [|fuel IH]; intros fuel' p out Hf Hf'; [lia|].
  destruct fuel' as [|fuel']; [lia|].
  cbn [parseStatements_loop].
  destruct p as [|t p1]; [reflexivity|]. cbn [peek hd_error].
  destruct (isSep t ";"); [apply IH; simpl in *; lia|].
  destruct (parseStatement_defined (t :: p1)) as (r & -> & Hr).
  destruct r as [node p2|e]; [|reflexivity].
  specialize (Hr _ _ eq_refl).
  assert (List.length (snd (next p2)) <= List.length p2) by (destruct p2; simpl; lia).
  apply IH; destruct (peekIsSep p2 ";"); simpl in *; lia.
Qed.

Lemma parseStatement_not_semicolon (p p' : parser) (node : AstNode) :
  parseStatement p = Some (Ok node p') -> peekIsSep p ";" = false.
Proof.
  unfold parseStatement, peekIsSep. destruct p as [|t p1]; simpl; [reflexivity|].
  intros H. unfold isSep. destruct (hasType t TokenKeyword) eqn:Hk; [|discriminate].
  apply hasType_eq in Hk. unfold hasType. rewrite Hk. reflexivity.
Qed.

End Sequencing.

(** X4.  [parseStatements] reads statement after statement: a leading ';' is
    skipped; a statement that parses is followed by the statements of the rest
    of the tokens, after one ';' if there is one (none is needed); when the
    rest fails, or the statement itself, the whole call fails with that error
    and no statement. *)
Theorem parseStatements_unfold (p : parser) :
  (forall t p1, p = t :: p1 -> isSep t ";" = true -> parseStatements p = parseStatements p1)
  /\ (forall node p',
        parseStatement p = Some (Ok node p') ->
        parseStatements p
        = match parseStatements (if peekIsSep p' ";" then snd (next p') else p') with
          | Some (nodes, None) => Some (node :: nodes, None)
          | other => other
          end)
  /\ (forall t p1 e,
        p = t :: p1 -> isSep t ";" = false ->
        parseStatement p = Some (Err e) ->
        parseStatements p = Some ([], Some e)).
Proof.
  split; [|split].
  - intros t p1 -> Ht. unfold parseStatements at 1. cbn [parseStatements_loop peek hd_error].
    rewrite Ht. cbn [next snd]. unfold parseStatements.
    apply parseStatements_loop_fuel; simpl; lia.
  - intros node p' H. pose proof (parseStatement_not_semicolon _ _ _ H) as Hsemi.
    destruct (parseStatement_defined p) as (r & Hr & Hlen). rewrite H in Hr.
    inversion Hr. subst r. specialize (Hlen _ _ eq_refl).
    unfold parseStatements at 1. cbn [parseStatements_loop].
    destruct p as [|t p1]; [simpl in Hlen; lia|]. cbn [peek hd_error].
    unfold peekIsSep in Hsemi. simpl in Hsemi. rewrite Hsemi, H.
    set (rest := if peekIsSep p' ";" then snd (next p') else p').
    assert (Hrest : List.length rest <= List.length p').
    { subst rest. destruct (peekIsSep p' ";"); [destruct p'; simpl; lia | lia]. }
    rewrite parseStatements_loop_out. unfold parseStatements.
    rewrite (parseStatements_loop_fuel _ (S (List.length rest)) rest []) by (simpl in *; lia).
    destruct (parseStatements_loop (S (List.length rest)) rest []) as [[nodes [e|]]|];
      reflexivity.
  - intros t p1 e -> Hsemi H. unfold parseStatements.
    cbn [parseStatements_loop peek hd_error]. rewrite Hsemi, H. reflexivity.
Qed.

Lemma parseStatements_unfold_witness :
  parseStatements
    [mkToken TokenKeyword "SELECT"; sep "*"; mkToken TokenKeyword "FROM"; ident "a";
     mkToken TokenKeyword "SELECT"; sep "*"; mkToken TokenKeyword "FROM"; ident "b"]
  = Some ([SelectStmt [mkProjectionItem true EmptyString] (mkTableRef "a") None None;
           SelectStmt [mkProjectionItem true EmptyString] (mkTableRef "b") None None], None).
Proof.
  exact (proj1 (proj2 (parseStatements_unfold
           [mkToken TokenKeyword "SELECT"; sep "*"; mkToken TokenKeyword "FROM"; ident "a";
            mkToken TokenKeyword "SELECT"; sep "*"; mkToken TokenKeyword "FROM"; ident "b"]))
           (SelectStmt [mkProjectionItem true EmptyString] (mkTableRef "a") None None)
           [mkToken TokenKeyword "SELECT"; sep "*"; mkToken TokenKeyword "FROM"; ident "b"]
           eq_refl).
Defined.

(** ** The trees the parser builds *)

Import Shapes.

Section TreeShapes.

Lemma ParseUint_loop_in_range (s : string) :
  forall n u, in_uint64 n = true -> ParseUint_loop s n = inl u -> in_uint64 u = true.
Proof.
  induction s as [|c s IH]; intros n u Hn H; simpl in H.
  - inversion H. subst. assumption.
  - destruct ((Z.of_N (N_of_ascii c) - 48 <? 0)%Z || (9 <? Z.of_N (N_of_ascii c) - 48)%Z)
      eqn:Hd; [discriminate|].
    destruct (cutoff <=? n)%Z; [discriminate|].
    destruct (maxUint64 <? n * 10 + (Z.of_N (N_of_ascii c) - 48))%Z eqn:Hmax; [discriminate|].
    apply (IH (n * 10 + (Z.of_N (N_of_ascii c) - 48))%Z); [|assumption].
    apply orb_false_iff in Hd. destruct Hd as [Hd0 Hd9].
    apply Z.ltb_ge in Hd0, Hd9, Hmax.
    unfold in_uint64 in *. apply andb_true_iff in Hn. destruct Hn as [Hn0 _].
    apply Z.leb_le in Hn0. apply andb_true_iff. split; apply Z.leb_le; lia.
Qed.

Lemma ParseUint_in_range (s : string) (u : Z) : ParseUint s = inl u -> in_uint64 u = true.
Proof.
  unfold ParseUint. destruct (String.eqb s EmptyString); [discriminate|].
  apply ParseUint_loop_in_range. reflexivity.
Qed.

Lemma upper_lower_byte (c : ascii) : upper_byte (lower_byte c) = upper_byte c.
Proof.
  destruct c as [[] [] [] [] [] [] [] []]; reflexivity.
Qed.

Lemma ToUpper_ToLower (s : string) : ToUpper (ToLower s) = ToUpper s.
Proof.
  unfold ToUpper, ToLower. induction s as [|c s IH]; simpl; [reflexivity|].
  rewrite upper_lower_byte, IH. reflexivity.
Qed.

Lemma isKeyword_upper (t : Token) (name : string) :
  isKeyword t name = true -> ToUpper (Value t) = ToUpper name.
Proof.
  unfold isKeyword, EqualFold. intros H. apply andb_true_iff in H. destruct H as [_ H].
  apply String.eqb_eq in H. rewrite <- (ToUpper_ToLower (Value t)), H.
  apply ToUpper_ToLower.
Qed.

Lemma connective_upper (t : Token) :
  isKeyword t "AND" || isKeyword t "OR" = true ->
  String.eqb (ToUpper (Value t)) "AND" || String.eqb (ToUpper (Value t)) "OR" = true.
Proof.
  intros H. apply orb_true_iff in H. destruct H as [H | H];
    apply isKeyword_upper in H; rewrite H; reflexivity.
Qed.

Lemma parseComparison_shape (p p' : parser) (e : Expr) :
  parseComparison p = Ok e p' -> is_comparison e = true /\ ints_in_range e = true.
Proof.
  unfold parseComparison.
  destruct p as [|t [|o [|r p]]]; simpl; intros H;
    repeat break_match_hyp; try discriminate; inv H; simpl; auto;
    (split; [reflexivity|]; eapply ParseUint_in_range; eassumption).
Qed.

Lemma parseLogical_loop_shape (fuel : nat) :
  forall left p e p',
    is_where_tree left = true -> ints_in_range left = true ->
    parseLogical_loop fuel left p = Some (Ok e p') ->
    is_where_tree e = true /\ ints_in_range e = true.
Proof.
  induction fuel as [|fuel IH]; intros left p e p' Hw Hr H.
  - simpl in H. destruct (peek p) as [t|]; [|inv H; auto].
    destruct (isKeyword t "AND" || isKeyword t "OR"); [discriminate | inv H; auto].
  - simpl in H. destruct (peek p) as [t|]; [|inv H; auto].
    destruct (isKeyword t "AND" || isKeyword t "OR") eqn:Hk; [|inv H; auto].
    destruct (parseComparison (snd (next p))) as [rhs p1|e1] eqn:Hcmp; [|discriminate].
    apply parseComparison_shape in Hcmp. destruct Hcmp as [Hc Hcr].
    apply IH in H; [assumption| |].
    + simpl. rewrite Hw, Hc, (connective_upper _ Hk). reflexivity.
    + simpl. rewrite Hr, Hcr. reflexivity.
Qed.

Lemma is_comparison_where (e : Expr) : is_comparison e = true -> is_where_tree e = true.
Proof.
  destruct e; simpl; auto; discriminate.
Qed.

Lemma parseLogical_shape (p p' : parser) (e : Expr) :
  parseLogical p = Some (Ok e p') -> is_where_tree e = true /\ ints_in_range e = true.
Proof.
  unfold parseLogical. destruct (parseComparison p) as [lhs p1|e1] eqn:Hcmp; [|discriminate].
  apply parseComparison_shape in Hcmp. destruct Hcmp as [Hc Hr].
  apply parseLogical_loop_shape; [apply is_comparison_where|]; assumption.
Qed.

Lemma parseProjections_items (n : nat) :
  forall p proj proj' p',
    List.length p <= n ->
    parseProjections p proj = Ok proj' p' ->
    exists items,
      proj' = proj ++ items /\ items <> []
      /\ forallb (fun i => negb (All i)) items = true.
Proof.
  induction n as [|n IH]; intros p proj proj' p' Hn H.
  - destruct p; [discriminate | simpl in Hn; lia].
  - destruct p as [|t p1]; [discriminate|]. rewrite parseProjections_step in H.
    simpl in Hn. destruct (negb (hasType t TokenIdentifier)); [discriminate|].
    assert (Hone : exists items,
               proj ++ [mkProjectionItem false (Value t)] = proj ++ items /\ items <> []
               /\ forallb (fun i => negb (All i)) items = true).
    { exists [mkProjectionItem false (Value t)]. repeat split. discriminate. }
    destruct p1 as [|c p2]; [inv H; exact Hone|].
    destruct (isSep c ","); [|inv H; exact Hone].
    apply IH in H; [|simpl in Hn; lia]. destruct H as (items & -> & _ & Hall).
    exists (mkProjectionItem false (Value t) :: items). rewrite <- app_assoc.
    repeat split; [discriminate | simpl; assumption].
Qed.

Lemma parseValues_items (p : parser) :
  forall vals hasValues vals' p',
    parseValues p vals hasValues = Ok vals' p' ->
    exists new,
      vals' = vals ++ new
      /\ forallb is_leaf new = true /\ forallb ints_in_range new = true
      /\ (hasValues = false -> new <> []).
Proof.
  induction p as [p IH] using (induction_ltof1 _ (@List.length Token)).
  unfold ltof in IH.
  intros vals hasValues vals' p' H.
  destruct p as [|t p1]; [discriminate|]. cbn [parseValues] in H.
  destruct (isSep t ")").
  { destruct hasValues; simpl in H; [|discriminate]. inv H.
    exists []. rewrite app_nil_r. repeat split. discriminate. }
  match type of H with
  | match ?v with inl _ => _ | inr _ => _ end = _ => destruct v as [val|e] eqn:Hval; [|discriminate]
  end.
  assert (Hleaf : is_leaf val = true /\ ints_in_range val = true).
  { destruct (hasType t TokenNumber).
    - destruct (ParseUint _) as [u|e] eqn:Hu; [|discriminate]. inv Hval.
      split; [reflexivity|]. simpl. eapply ParseUint_in_range. eassumption.
    - destruct (hasType t TokenString); [inv Hval; auto|].
      destruct (hasType t TokenIdentifier); [inv Hval; auto | discriminate]. }
  destruct Hleaf as [Hl Hr]. clear Hval.
  assert (Hone : exists new,
             vals ++ [val] = vals ++ new
             /\ forallb is_leaf new = true /\ forallb ints_in_range new = true
             /\ (hasValues = false -> new <> [])).
  { exists [val]. simpl. rewrite Hl, Hr. repeat split. discriminate. }
  destruct p1 as [|c p2]; [inv H; exact Hone|].
  destruct (isSep c ","); [|inv H; exact Hone].
  apply IH in H; [|simpl; lia]. destruct H as (new & -> & Hnl & Hnr & _).
  exists (val :: new). rewrite <- app_assoc. simpl. rewrite Hl, Hr, Hnl, Hnr.
  repeat split. discriminate.
Qed.

Lemma parseSelect_ok (p p' : parser) (node : AstNode) :
  parseSelect p = Some (Ok node p') -> node_ok node = true.
Proof.
  unfold parseSelect. intros H.
  destruct p as [|s p]; cbn [peek next snd fst hd_error] in H; [discriminate|].
  destruct p as [|t p1]; cbn [peek next snd fst hd_error] in H; [discriminate|].
  set (rproj := if isSep t "*" then _ else _) in H.
  assert (Hproj : forall proj p2, rproj = Ok proj p2 ->
                  lists_ok (SelectStmt proj (mkTableRef EmptyString) None None) = true).
  { subst rproj. intros proj p2 Hp. destruct (isSep t "*").
    - inv Hp. reflexivity.
    - apply (parseProjections_items _ _ _ _ _ (le_n _)) in Hp.
      destruct Hp as (items & -> & Hne & Hall). simpl app. simpl.
      destruct items as [|a [|b l]]; [congruence | |exact Hall].
      simpl in Hall. rewrite andb_true_r in Hall. rewrite Hall. reflexivity. }
  destruct rproj as [proj p2|e]; [|discriminate].
  specialize (Hproj _ _ eq_refl).
  destruct (expectKeyword "FROM" p2) as [[e|] p3]; [discriminate|].
  destruct p3 as [|tn p4]; cbn [peek next snd fst hd_error] in H; [discriminate|].
  destruct (negb (hasType tn TokenIdentifier)); [discriminate|].
  set (rsel := if peekIsKeyword p4 "WHERE" then _ else _) in H.
  assert (Hsel : forall sel p5, rsel = Some (Ok sel p5) ->
                 match sel with
                 | Some e => is_where_tree e = true /\ ints_in_range e = true
                 | None => True
                 end).
  { subst rsel. intros sel p5 Hs. destruct (peekIsKeyword p4 "WHERE"); [|inv Hs; exact I].
    destruct (parseLogical (snd (next p4))) as [[expr p6|e]|] eqn:Hlog; try discriminate.
    inv Hs. apply parseLogical_shape in Hlog. assumption. }
  destruct rsel as [[sel p5|e]|]; try discriminate.
  specialize (Hsel _ _ eq_refl).
  assert (Hnode : forall lim,
             match lim with Some v => in_uint64 v = true | None => True end ->
             node_ok (SelectStmt proj (mkTableRef (Value tn)) sel lim) = true).
  { intros lim Hlim. unfold node_ok. simpl where_ok. simpl numbers_ok.
    change (lists_ok (SelectStmt proj (mkTableRef (Value tn)) sel lim))
      with (lists_ok (SelectStmt proj (mkTableRef EmptyString) None None)).
    rewrite Hproj.
    destruct sel as [e|]; [destruct Hsel as [-> ->]|];
      destruct lim as [v|]; try rewrite Hlim; reflexivity. }
  destruct (peekIsKeyword p5 "LIMIT").
  - destruct (peek (snd (next p5))) as [n|]; [|discriminate].
    destruct (negb (hasType n TokenNumber)); [discriminate|].
    destruct (ParseUint (Value n)) as [u|e] eqn:Hu; [|discriminate].
    inv H. apply Hnode. eapply ParseUint_in_range. eassumption.
  - inv H. apply Hnode. exact I.
Qed.

Lemma parseInsert_ok (p p' : parser) (node : AstNode) :
  parseInsert p = Ok node p' -> node_ok node = true.
Proof.
  unfold parseInsert. intros H.
  destruct (expectKeyword "INTO" (snd (next p))) as [[e|] p1]; [discriminate|].
  destruct (peek p1) as [tn|]; [|discriminate].
  destruct (negb (hasType tn TokenIdentifier)); [discriminate|].
  destruct (if peekIsSep (snd (next p1)) "(" then _ else _) as [u p3|e]; [|discriminate].
  destruct (expectKeyword "VALUES" p3) as [[e|] p4]; [discriminate|].
  destruct (negb (peekIsSep p4 "(")); [discriminate|].
  destruct (parseValues (snd (next p4)) [] false) as [vals p5|e] eqn:Hvals; [|discriminate].
  destruct (negb (peekIsSep p5 ")")); [discriminate|]. inv H.
  apply parseValues_items in Hvals. destruct Hvals as (new & -> & Hl & Hr & Hne).
  specialize (Hne eq_refl). unfold node_ok. simpl. rewrite Hl, Hr.
  destruct new; [congruence | reflexivity].
Qed.

Lemma parseCreateTable_ok (p p' : parser) (node : AstNode) :
  parseCreateTable p = Ok node p' -> node_ok node = true.
Proof.
  unfold parseCreateTable. intros H.
  destruct (expectKeyword "TABLE" (snd (next p))) as [[e|] p1]; [discriminate|].
  destruct (peek p1) as [tn|]; [|discriminate].
  destruct (negb (hasType tn TokenIdentifier)); [discriminate|].
  destruct (negb (peekIsSep (snd (next p1)) "(")); [discriminate|].
  destruct (parseColumns _ [] false) as [cols p3|e] eqn:Hcols; [|discriminate].
  inv H. apply (parseColumns_loosely _ _ _ _ _ _ (le_n _)) in Hcols.
  destruct Hcols as (items & _ & -> & Hne). specialize (Hne eq_refl).
  unfold node_ok. simpl. destruct items; [congruence | reflexivity].
Qed.

Lemma parseStatement_ok (p p' : parser) (node : AstNode) :
  parseStatement p = Some (Ok node p') -> node_ok node = true.
Proof.
  unfold parseStatement. destruct (peek p) as [t|]; [|discriminate].
  destruct (hasType t TokenKeyword); [|discriminate].
  destruct (String.eqb (ToUpper (Value t)) "SELECT"); [apply parseSelect_ok|].
  destruct (String.eqb (ToUpper (Value t)) "INSERT");
    [intros H; inv H; eapply parseInsert_ok; eassumption|].
  destruct (String.eqb (ToUpper (Value t)) "CREATE"); [|discriminate].
  intros H. inv H. eapply parseCreateTable_ok. eassumption.
Qed.

Lemma parseStatements_loop_ok (fuel : nat) :
  forall p out nodes,
    forallb node_ok out = true ->
    parseStatements_loop fuel p out = Some (nodes, None) ->
    forallb node_ok nodes = true.
Proof.
  induction fuel as [|fuel IH]; intros p out nodes Hout H; [discriminate|].
  cbn [parseStatements_loop] in H.
  destruct (peek p) as [t|]; [|inv H; assumption].
  destruct (isSep t ";"); [eapply IH; eassumption|].
  destruct (parseStatement p) as [[node p1|e]|] eqn:Hst; try discriminate.
  apply parseStatement_ok in Hst.
  eapply IH; [|exact H]. rewrite forallb_app, Hout. simpl. rewrite Hst. reflexivity.
Qed.

Lemma parseStatements_ok (p : parser) (nodes : list AstNode) :
  parseStatements p = Some (nodes, None) -> forallb node_ok nodes = true.
Proof.
  apply parseStatements_loop_ok. reflexivity.
Qed.

Lemma forallb_weaken {A : Type} (f g : A -> bool) (l : list A) :
  (forall a, f a = true -> g a = true) -> forallb f l = true -> forallb g l = true.
Proof.
  intros Hfg. induction l as [|a l IH]; simpl; [auto|].
  intros H. apply andb_true_iff in H. destruct H as [Ha Hl].
  rewrite (Hfg _ Ha), (IH Hl). reflexivity.
Qed.

End TreeShapes.

(** X5.  In every statement the parser returns, a WHERE clause is a chain of
    comparisons nested to the left: each LogicalOp is named "AND" or "OR" in
    upper case whatever the case in the query, its right operand is a
    comparison, its left operand the chain before it; each comparison has a
    column reference on the left and a column reference or a literal on the
    right.  No BinaryOp is ever built. *)
Theorem parsed_where_is_left_chain (p : parser) (nodes : list AstNode) :
  parseStatements p = Some (nodes, None) -> forallb where_ok nodes = true.
Proof.
  intros H. apply parseStatements_ok in H. revert H. apply forallb_weaken.
  intros node Hn. unfold node_ok in Hn.
  apply andb_true_iff in Hn. destruct Hn as [Hn _].
  apply andb_true_iff in Hn. destruct Hn as [Hn _]. exact Hn.
Qed.

Lemma parsed_where_is_left_chain_witness :
  forallb where_ok
    [SelectStmt [mkProjectionItem true EmptyString] (mkTableRef "t")
       (Some (LogicalOp
                (LogicalOp (ComparisonOp (ColumnRef "a") "<" (LiteralInt 1)) "OR"
                           (ComparisonOp (ColumnRef "b") "=" (LiteralString "x")))
                "AND" (ComparisonOp (ColumnRef "c") ">=" (ColumnRef "d")))) None]
  = true.
Proof.
  exact (parsed_where_is_left_chain
           [mkToken TokenKeyword "select"; sep "*"; mkToken TokenKeyword "from"; ident "t";
            mkToken TokenKeyword "where";
            ident "a"; mkToken TokenOperator "<"; mkToken TokenNumber "1";
            mkToken TokenKeyword "or";
            ident "b"; mkToken TokenOperator "="; mkToken TokenString "x";
            mkToken TokenKeyword "And";
            ident "c"; mkToken TokenOperator ">="; ident "d"] _ eq_refl).
Defined.

(** X6.  Every integer literal of a returned statement, in WHERE and in
    VALUES, and every LIMIT lies between 0 and 2^64 - 1. *)
Theorem parsed_numbers_fit_uint64 (p : parser) (nodes : list AstNode) :
  parseStatements p = Some (nodes, None) -> forallb numbers_ok nodes = true.
Proof.
  intros H. apply parseStatements_ok in H. revert H. apply forallb_weaken.
  intros node Hn. unfold node_ok in Hn.
  apply andb_true_iff in Hn. destruct Hn as [Hn _].
  apply andb_true_iff in Hn. destruct Hn as [_ Hn]. exact Hn.
Qed.

Lemma parsed_numbers_fit_uint64_witness :
  forallb numbers_ok
    [InsertStmt "t" [LiteralInt 18446744073709551615; LiteralInt 0];
     SelectStmt [mkProjectionItem true EmptyString] (mkTableRef "t") None (Some 7%Z)]
  = true.
Proof.
  exact (parsed_numbers_fit_uint64
           [mkToken TokenKeyword "INSERT"; mkToken TokenKeyword "INTO"; ident "t";
            mkToken TokenKeyword "VALUES"; sep "(";
            mkToken TokenNumber "18446744073709551615.9"; sep ",";
            mkToken TokenNumber "000"; sep ")"; sep ";";
            mkToken TokenKeyword "SELECT"; sep "*"; mkToken TokenKeyword "FROM"; ident "t";
            mkToken TokenKeyword "LIMIT"; mkToken TokenNumber "7"] _ eq_refl).
Defined.

(** X7.  No returned statement has an empty list: a SelectStmt has the
    wildcard alone or one or more named columns, never the wildcard among
    columns; an InsertStmt has one or more values, each a literal or a column
    reference; a CreateTableStmt has one or more columns. *)
Theorem parsed_lists_not_empty (p : parser) (nodes : list AstNode) :
  parseStatements p = Some (nodes, None) -> forallb lists_ok nodes = true.
Proof.
  intros H. apply parseStatements_ok in H. revert H. apply forallb_weaken.
  intros node Hn. unfold node_ok in Hn.
  apply andb_true_iff in Hn. destruct Hn as [_ Hn]. exact Hn.
Qed.

Lemma parsed_lists_not_empty_witness :
  forallb lists_ok
    [SelectStmt [mkProjectionItem false "a"; mkProjectionItem false "b"] (mkTableRef "t")
       None None;
     CreateTableStmt "t" [mkColumnDef "id" "INT"]]
  = true.
Proof.
  exact (parsed_lists_not_empty
           [mkToken TokenKeyword "SELECT"; ident "a"; sep ","; ident "b";
            mkToken TokenKeyword "FROM"; ident "t"; sep ";";
            mkToken TokenKeyword "CREATE"; mkToken TokenKeyword "TABLE"; ident "t";
            sep "("; ident "id"; ident "INT"; sep ")"] _ eq_refl).
Defined.

(** ** How a Number token is read *)

Section NumberTokens.

Lemma digit_value (c : ascii) :
  is_digit c = true -> (0 <= Z.of_N (N_of_ascii c) - 48 <= 9)%Z.
Proof.
  destruct c as [[] [] [] [] [] [] [] []]; vm_compute; intros H; try discriminate H;
    split; discriminate.
Qed.

Lemma decimal_grows (s : string) :
  forall n, all_bytes is_digit s = true -> (0 <= n)%Z -> (n <= decimal s n)%Z.
Proof.
  induction s as [|c s IH]; intros n Hs Hn; simpl; [lia|].
  simpl in Hs. apply andb_true_iff in Hs. destruct Hs as [Hc Hs].
  pose proof (digit_value _ Hc) as Hd.
  assert (Hpos : (0 <= n * 10 + (Z.of_N (N_of_ascii c) - 48))%Z) by lia.
  specialize (IH _ Hs Hpos). lia.
Qed.

Lemma ParseUint_loop_digits (s : string) :
  forall n,
    all_bytes is_digit s = true -> (0 <= n <= maxUint64)%Z ->
    ParseUint_loop s n
    = if (decimal s n <=? maxUint64)%Z then inl (decimal s n) else inr ErrRange.
Proof.
  induction s as [|c s IH]; intros n Hs Hn; simpl.
  - replace (n <=? maxUint64)%Z with true by (symmetry; apply Z.leb_le; lia). reflexivity.
  - simpl in Hs. apply andb_true_iff in Hs. destruct Hs as [Hc Hs].
    pose proof (digit_value _ Hc) as Hd.
    set (d := (Z.of_N (N_of_ascii c) - 48)%Z) in *.
    replace ((d <? 0)%Z || (9 <? d)%Z) with false
      by (symmetry; apply orb_false_iff; split; apply Z.ltb_ge; lia).
    assert (Hgrow : (n * 10 + d <= decimal s (n * 10 + d))%Z)
      by (apply decimal_grows; [assumption | lia]).
    destruct (cutoff <=? n)%Z eqn:Hcut.
    + apply Z.leb_le in Hcut. change cutoff with 1844674407370955162%Z in Hcut.
      replace (decimal s (n * 10 + d) <=? maxUint64)%Z with false; [reflexivity|].
      symmetry. apply Z.leb_gt. unfold maxUint64. lia.
    + destruct (maxUint64 <? n * 10 + d)%Z eqn:Hmax.
      * apply Z.ltb_lt in Hmax.
        replace (decimal s (n * 10 + d) <=? maxUint64)%Z with false; [reflexivity|].
        symmetry. apply Z.leb_gt. lia.
      * apply Z.ltb_ge in Hmax. apply IH; [assumption | lia].
Qed.

Lemma ParseUint_digits (s : string) :
  all_bytes is_digit s = true ->
  ParseUint s
  = if String.eqb s EmptyString then inr ErrSyntax
    else if (decimal s 0 <=? maxUint64)%Z then inl (decimal s 0) else inr ErrRange.
Proof.
  intros Hs. unfold ParseUint. destruct (String.eqb s EmptyString); [reflexivity|].
  apply ParseUint_loop_digits; [assumption|]. unfold maxUint64. lia.
Qed.

Lemma numeric_byte_digit (c : ascii) :
  is_numeric_byte c = true -> Ascii.eqb c "." = false -> is_digit c = true.
Proof.
  unfold is_numeric_byte, is_digit. intros H Hdot. rewrite Hdot, orb_false_r in H. exact H.
Qed.

Lemma integer_part_digits (v : string) :
  all_bytes is_numeric_byte v = true -> all_bytes is_digit (before_first v ".") = true.
Proof.
  induction v as [|c v IH]; simpl; intros H; [reflexivity|].
  apply andb_true_iff in H. destruct H as [Hc Hv].
  destruct (Ascii.eqb c ".") eqn:Hdot; [reflexivity|].
  simpl. rewrite (numeric_byte_digit _ Hc Hdot), (IH Hv). reflexivity.
Qed.

Lemma integer_part_whole (v : string) :
  (if ContainsByte v "." then before_first v "." else v) = before_first v ".".
Proof.
  destruct (ContainsByte v ".") eqn:H; [reflexivity|].
  induction v as [|c v IH]; simpl in *; [reflexivity|].
  apply orb_false_iff in H. destruct H as [Hc Hv]. rewrite Hc, <- (IH Hv). reflexivity.
Qed.

Lemma isNumeric_bytes (v : string) : isNumeric v = true -> all_bytes is_numeric_byte v = true.
Proof.
  unfold isNumeric. destruct (String.eqb v EmptyString); [discriminate | auto].
Qed.

End NumberTokens.

(** X8.  A Number token as the tokenizer builds it (digits and dots) stands
    for the decimal number written before its first '.': as the right operand
    of a comparison and as a VALUES entry it becomes that LiteralInt when the
    number is at most 2^64 - 1, a range error when it is larger, and a syntax
    error when nothing stands before the first '.'. *)
Theorem number_token_value (v : string) :
  isNumeric v = true ->
  let read : Z + error :=
      if String.eqb (before_first v ".") EmptyString then inr (ErrStrconv ErrSyntax)
      else if (decimal (before_first v ".") 0 <=? maxUint64)%Z
           then inl (decimal (before_first v ".") 0)
           else inr (ErrStrconv ErrRange) in
  (forall a o rest,
      parseComparison (ident a :: mkToken TokenOperator o :: mkToken TokenNumber v :: rest)
      = match read with
        | inl n => Ok (ComparisonOp (ColumnRef a) o (LiteralInt n)) rest
        | inr e => Err e
        end)
  /\ (forall rest vals hasValues,
        parseValues (mkToken TokenNumber v :: sep ")" :: rest) vals hasValues
        = match read with
          | inl n => Ok (vals ++ [LiteralInt n]) (sep ")" :: rest)
          | inr e => Err e
          end).
Proof.
  intros Hv. apply isNumeric_bytes in Hv. apply integer_part_digits in Hv.
  pose proof (ParseUint_digits _ Hv) as Hparse. cbv zeta.
  split.
  - intros a o rest. unfold parseComparison. cbn. rewrite integer_part_whole, Hparse.
    destruct (String.eqb (before_first v ".") EmptyString); [reflexivity|].
    destruct (decimal (before_first v ".") 0 <=? maxUint64)%Z; reflexivity.
  - intros rest vals hasValues. cbn. rewrite integer_part_whole, Hparse.
    destruct (String.eqb (before_first v ".") EmptyString); [reflexivity|].
    destruct (decimal (before_first v ".") 0 <=? maxUint64)%Z; reflexivity.
Qed.

Lemma number_token_value_witness :
  parseComparison [ident "a"; mkToken TokenOperator "="; mkToken TokenNumber "007.5.1"]
  = Ok (ComparisonOp (ColumnRef "a") "=" (LiteralInt 7)) []
  /\ parseComparison [ident "a"; mkToken TokenOperator "="; mkToken TokenNumber ".5"]
     = Err (ErrStrconv ErrSyntax)
  /\ parseComparison
       [ident "a"; mkToken TokenOperator "="; mkToken TokenNumber "18446744073709551616"]
     = Err (ErrStrconv ErrRange).
Proof.
  split; [|split].
  - exact (proj1 (number_token_value "007.5.1" eq_refl) "a" "=" []).
  - exact (proj1 (number_token_value ".5" eq_refl) "a" "=" []).
  - exact (proj1 (number_token_value "18446744073709551616" eq_refl) "a" "=" []).
Defined.

(** ** The case of keywords does not matter to the parser *)

Import Recasing.

Section KeywordCase.

Lemma ToLower_ToUpper_eq (v w : string) : ToLower v = ToLower w -> ToUpper v = ToUpper w.
Proof.
  intros H. rewrite <- (ToUpper_ToLower v), H. apply ToUpper_ToLower.
Qed.

Lemma recased_type (t u : Token) (typ : TokenType) :
  recased t u -> hasType u typ = hasType t typ.
Proof.
  intros [Ht _]. unfold hasType. rewrite Ht. reflexivity.
Qed.

Lemma recased_value (t u : Token) :
  recased t u -> hasType t TokenKeyword = false -> Value u = Value t.
Proof.
  intros [_ Hv] Hk. rewrite Hk in Hv. auto.
Qed.

Lemma recased_fold (t u : Token) :
  recased t u -> hasType t TokenKeyword = true -> ToLower (Value u) = ToLower (Value t).
Proof.
  intros [_ Hv] Hk. rewrite Hk in Hv. unfold EqualFold in Hv.
  apply String.eqb_eq in Hv. auto.
Qed.

Lemma other_type_not_keyword (t : Token) (typ : TokenType) :
  hasType t typ = true -> typ <> TokenKeyword -> hasType t TokenKeyword = false.
Proof.
  intros Ht Hne. apply hasType_eq in Ht. unfold hasType. rewrite Ht.
  destruct typ; simpl; congruence.
Qed.

Lemma recased_isSep (t u : Token) (v : string) : recased t u -> isSep u v = isSep t v.
Proof.
  intros H. unfold isSep. rewrite (recased_type _ _ _ H).
  destruct (hasType t TokenSeparator) eqn:Ht; [|reflexivity].
  rewrite (recased_value _ _ H); [reflexivity|].
  apply (other_type_not_keyword _ _ Ht). discriminate.
Qed.

Lemma recased_isKeyword (t u : Token) (name : string) :
  recased t u -> isKeyword u name = isKeyword t name.
Proof.
  intros H. unfold isKeyword. rewrite (recased_type _ _ _ H).
  destruct (hasType t TokenKeyword) eqn:Ht; [|reflexivity].
  unfold EqualFold. rewrite (recased_fold _ _ H Ht). reflexivity.
Qed.

Lemma recased_upper (t u : Token) :
  recased t u -> hasType t TokenKeyword = true -> ToUpper (Value u) = ToUpper (Value t).
Proof.
  intros H Ht. apply ToLower_ToUpper_eq. apply recased_fold; assumption.
Qed.

Lemma recased_length (p q : parser) : Forall2 recased p q -> List.length q = List.length p.
Proof.
  induction 1; simpl; congruence.
Qed.

Lemma same_result_refl_err {A : Type} (e1 e2 : error) : @same_result A (Err e1) (Err e2).
Proof. exact I. Qed.

Lemma recased_value_of_type (t u : Token) (typ : TokenType) :
  recased t u -> Typ t = typ -> typ <> TokenKeyword -> Value u = Value t.
Proof.
  intros H Ht Hne. apply (recased_value _ _ H). unfold hasType. rewrite Ht.
  destruct typ; simpl; congruence.
Qed.

Lemma recased_value_has_type (t u : Token) (typ : TokenType) :
  recased t u -> hasType t typ = true -> typ <> TokenKeyword -> Value u = Value t.
Proof.
  intros H Ht Hne. apply hasType_eq in Ht. eapply recased_value_of_type; eassumption.
Qed.

Lemma recased_tail (p q : parser) :
  Forall2 recased p q -> Forall2 recased (snd (next p)) (snd (next q)).
Proof.
  destruct 1; simpl; [constructor | assumption].
Qed.

Lemma recased_peekIsSep (p q : parser) (v : string) :
  Forall2 recased p q -> peekIsSep q v = peekIsSep p v.
Proof.
  destruct 1 as [|t u p q Htu _]; [reflexivity|]. unfold peekIsSep. simpl.
  apply recased_isSep. assumption.
Qed.

Lemma recased_peekIsKeyword (p q : parser) (name : string) :
  Forall2 recased p q -> peekIsKeyword q name = peekIsKeyword p name.
Proof.
  destruct 1 as [|t u p q Htu _]; [reflexivity|]. unfold peekIsKeyword. simpl.
  apply recased_isKeyword. assumption.
Qed.

Lemma parseComparison_recased (p q : parser) :
  Forall2 recased p q -> same_result (parseComparison p) (parseComparison q).
Proof.
  intros HR. unfold parseComparison.
  destruct HR as [|t u p q Htu HR]; [exact I|]. cbn [peek hd_error next snd].
  rewrite (recased_type _ _ TokenIdentifier Htu).
  destruct (hasType t TokenIdentifier) eqn:Ht; [|exact I].
  rewrite (recased_value_has_type _ _ _ Htu Ht) by discriminate.
  destruct HR as [|o o' p q Ho HR]; [exact I|]. cbn [peek hd_error next snd].
  rewrite (recased_type _ _ TokenOperator Ho).
  destruct (hasType o TokenOperator) eqn:Hop; simpl negb; cbv iota; [|exact I].
  rewrite (recased_value_has_type _ _ _ Ho Hop) by discriminate.
  destruct HR as [|r r' p q Hr HR]; [exact I|]. cbn [peek hd_error next snd].
  rewrite <- (proj1 Hr).
  destruct (Typ r) eqn:Htyp; try exact I;
    rewrite (recased_value_of_type _ _ _ Hr Htyp) by discriminate.
  - split; [reflexivity | assumption].
  - destruct (ParseUint _); [split; [reflexivity | assumption] | exact I].
  - split; [reflexivity | assumption].
Qed.

Lemma parseLogical_loop_recased (fuel : nat) :
  forall left p q,
    Forall2 recased p q ->
    same_outcome (parseLogical_loop fuel left p) (parseLogical_loop fuel left q).
Proof.
  induction fuel as [|fuel IH]; intros left p q HR.
  - simpl. destruct HR as [|t u p q Htu HR]; simpl; [split; [reflexivity | constructor]|].
    rewrite !(recased_isKeyword _ _ _ Htu).
    destruct (isKeyword t "AND" || isKeyword t "OR"); simpl; [exact I|].
    split; [reflexivity | constructor; assumption].
  - simpl. destruct HR as [|t u p q Htu HR]; simpl; [split; [reflexivity | constructor]|].
    rewrite !(recased_isKeyword _ _ _ Htu).
    destruct (isKeyword t "AND" || isKeyword t "OR") eqn:Hk; simpl;
      [|split; [reflexivity | constructor; assumption]].
    assert (Hkw : hasType t TokenKeyword = true).
    { unfold isKeyword in Hk. destruct (hasType t TokenKeyword); [reflexivity | discriminate]. }
    rewrite (recased_upper _ _ Htu Hkw).
    pose proof (parseComparison_recased _ _ HR) as Hcmp.
    destruct (parseComparison p) as [rhs p1|e1], (parseComparison q) as [rhs' q1|e1'];
      simpl in Hcmp; try contradiction; [|exact I].
    destruct Hcmp as [-> HR1]. apply IH. assumption.
Qed.

Lemma parseLogical_recased (p q : parser) :
  Forall2 recased p q -> same_outcome (parseLogical p) (parseLogical q).
Proof.
  intros HR. unfold parseLogical.
  pose proof (parseComparison_recased _ _ HR) as Hcmp.
  destruct (parseComparison p) as [lhs p1|e1], (parseComparison q) as [lhs' q1|e1'];
    simpl in Hcmp; try contradiction; [|exact I].
  destruct Hcmp as [-> HR1]. rewrite (recased_length _ _ HR1).
  apply parseLogical_loop_recased. assumption.
Qed.

Lemma expectKeyword_recased (name : string) (p q : parser) :
  Forall2 recased p q ->
  match expectKeyword name p, expectKeyword name q with
  | (None, p'), (None, q') => Forall2 recased p' q'
  | (Some _, _), (Some _, _) => True
  | _, _ => False
  end.
Proof.
  intros HR. unfold expectKeyword, consumeKeyword.
  destruct HR as [|t u p q Htu HR]; simpl; [exact I|].
  rewrite (recased_isKeyword _ _ _ Htu). destruct (isKeyword t name); simpl; [assumption | exact I].
Qed.

Lemma parseProjections_recased (n : nat) :
  forall p q proj,
    List.length p <= n -> Forall2 recased p q ->
    same_result (parseProjections p proj) (parseProjections q proj).
Proof.
  induction n as [|n IH]; intros p q proj Hn HR.
  - destruct HR; [exact I | simpl in Hn; lia].
  - destruct HR as [|t u p q Htu HR]; [exact I|]. rewrite !parseProjections_step.
    rewrite (recased_type _ _ TokenIdentifier Htu).
    destruct (hasType t TokenIdentifier) eqn:Ht; simpl negb; cbv iota; [|exact I].
    rewrite (recased_value_has_type _ _ _ Htu Ht) by discriminate.
    destruct HR as [|c c' p q Hc HR]; [split; [reflexivity | constructor]|].
    rewrite (recased_isSep _ _ _ Hc). destruct (isSep c ",").
    + apply IH; [simpl in *; lia | assumption].
    + split; [reflexivity | constructor; assumption].
Qed.

Lemma skipColumnList_recased (n : nat) :
  forall p q,
    List.length p <= n -> Forall2 recased p q ->
    same_result (skipColumnList p) (skipColumnList q).
Proof.
  induction n as [|n IH]; intros p q Hn HR.
  - destruct HR; [exact I | simpl in Hn; lia].
  - destruct HR as [|t u p q Htu HR]; [exact I|]. rewrite !skipColumnList_step.
    rewrite (recased_isSep _ _ _ Htu).
    destruct (isSep t ")"); [split; [reflexivity | assumption]|].
    destruct HR as [|c c' p q Hc HR].
    + apply IH; [simpl in *; lia | constructor].
    + rewrite (recased_isSep _ _ _ Hc). destruct (isSep c ",").
      * apply IH; [simpl in *; lia | assumption].
      * apply IH; [simpl in *; lia | constructor; assumption].
Qed.

Lemma parseValues_recased (n : nat) :
  forall p q vals hasValues,
    List.length p <= n -> Forall2 recased p q ->
    same_result (parseValues p vals hasValues) (parseValues q vals hasValues).
Proof.
  induction n as [|n IH]; intros p q vals hasValues Hn HR.
  - destruct HR; [exact I | simpl in Hn; lia].
  - destruct HR as [|t u p q Htu HR]; [exact I|]. cbn [parseValues].
    rewrite (recased_isSep _ _ _ Htu).
    destruct (isSep t ")").
    { destruct (negb hasValues); [exact I|]. split; [reflexivity | constructor; assumption]. }
    rewrite (recased_type _ _ TokenNumber Htu), (recased_type _ _ TokenString Htu),
      (recased_type _ _ TokenIdentifier Htu).
    assert (Hval : hasType t TokenNumber = true \/ hasType t TokenString = true
                   \/ hasType t TokenIdentifier = true -> Value u = Value t).
    { intros [H | [H | H]]; apply (recased_value_has_type _ _ _ Htu H); discriminate. }
    assert (Hrest : forall val,
               same_result
                 (match p with
                  | c :: p2 => if isSep c "," then parseValues p2 (vals ++ [val]) true
                               else Ok (vals ++ [val]) p
                  | [] => Ok (vals ++ [val]) p
                  end)
                 (match q with
                  | c :: p2 => if isSep c "," then parseValues p2 (vals ++ [val]) true
                               else Ok (vals ++ [val]) q
                  | [] => Ok (vals ++ [val]) q
                  end)).
    { intros val. destruct HR as [|c c' p q Hc HR]; [split; [reflexivity | constructor]|].
      rewrite (recased_isSep _ _ _ Hc). destruct (isSep c ",").
      - apply IH; [simpl in *; lia | assumption].
      - split; [reflexivity | constructor; assumption]. }
    destruct (hasType t TokenNumber) eqn:Hnum.
    { rewrite Hval by auto. destruct (ParseUint _) as [x|e]; [apply Hrest | exact I]. }
    destruct (hasType t TokenString) eqn:Hstr.
    { rewrite Hval by auto. apply Hrest. }
    destruct (hasType t TokenIdentifier) eqn:Hid; [|exact I].
    rewrite Hval by auto. apply Hrest.
Qed.

Lemma parseColumns_recased (n : nat) :
  forall p q cols hasColumns,
    List.length p <= n -> Forall2 recased p q ->
    same_result (parseColumns p cols hasColumns) (parseColumns q cols hasColumns).
Proof.
  induction n as [|n IH]; intros p q cols hasColumns Hn HR.
  - destruct HR; [exact I | simpl in Hn; lia].
  - destruct HR as [|t u p q Htu HR]; [exact I|]. rewrite !parseColumns_step.
    rewrite (recased_isSep _ _ _ Htu).
    destruct (isSep t ")").
    { destruct (negb hasColumns); [exact I|]. split; [reflexivity | assumption]. }
    rewrite (recased_type _ _ TokenIdentifier Htu).
    destruct (hasType t TokenIdentifier) eqn:Ht; simpl negb; cbv iota; [|exact I].
    rewrite (recased_value_has_type _ _ _ Htu Ht) by discriminate.
    destruct HR as [|ty ty' p q Hty HR]; [exact I|].
    rewrite (recased_type _ _ TokenIdentifier Hty).
    destruct (hasType ty TokenIdentifier) eqn:Htyp; simpl negb; cbv iota; [|exact I].
    rewrite (recased_value_has_type _ _ _ Hty Htyp) by discriminate.
    destruct HR as [|c c' p q Hc HR].
    + apply IH; [simpl in *; lia | constructor].
    + rewrite (recased_isSep _ _ _ Hc). destruct (isSep c ",").
      * apply IH; [simpl in *; lia | assumption].
      * apply IH; [simpl in *; lia | constructor; assumption].
Qed.

Lemma parseSelect_recased (p q : parser) :
  Forall2 recased p q -> same_outcome (parseSelect p) (parseSelect q).
Proof.
  intros HR. unfold parseSelect. apply recased_tail in HR.
  destruct HR as [|t u p1 q1 Htu HR]; cbn [peek hd_error next snd]; [exact I|].
  rewrite (recased_isSep _ _ _ Htu).
  assert (Hproj : same_result
                    (if isSep t "*" then Ok [mkProjectionItem true EmptyString] p1
                     else parseProjections (t :: p1) [])
                    (if isSep t "*" then Ok [mkProjectionItem true EmptyString] q1
                     else parseProjections (u :: q1) [])).
  { destruct (isSep t "*"); [split; [reflexivity | assumption]|].
    apply (parseProjections_recased _ _ _ _ (le_n _)). constructor; assumption. }
  destruct (if isSep t "*" then Ok [mkProjectionItem true EmptyString] p1
            else parseProjections (t :: p1) []) as [proj p2|e];
    destruct (if isSep t "*" then Ok [mkProjectionItem true EmptyString] q1
              else parseProjections (u :: q1) []) as [proj' q2|e'];
    simpl in Hproj; try contradiction; [|exact I].
  destruct Hproj as [<- HR2].
  pose proof (expectKeyword_recased "FROM" _ _ HR2) as Hfrom.
  destruct (expectKeyword "FROM" p2) as [[e|] p3], (expectKeyword "FROM" q2) as [[e'|] q3];
    try contradiction; [exact I|].
  destruct Hfrom as [|tn tn' p4 q4 Htn HR4]; cbn [peek hd_error next snd]; [exact I|].
  rewrite (recased_type _ _ TokenIdentifier Htn).
  destruct (hasType tn TokenIdentifier) eqn:Hid; simpl negb; cbv iota; [|exact I].
  rewrite (recased_value_has_type _ _ _ Htn Hid) by discriminate.
  rewrite (recased_peekIsKeyword _ _ "WHERE" HR4).
  assert (Hsel : same_outcome
                   (if peekIsKeyword p4 "WHERE" then
                      match parseLogical (snd (next p4)) with
                      | None => None
                      | Some (Err e) => Some (Err e)
                      | Some (Ok expr p) => Some (Ok (Some expr) p)
                      end
                    else Some (Ok None p4))
                   (if peekIsKeyword p4 "WHERE" then
                      match parseLogical (snd (next q4)) with
                      | None => None
                      | Some (Err e) => Some (Err e)
                      | Some (Ok expr p) => Some (Ok (Some expr) p)
                      end
                    else Some (Ok None q4))).
  { destruct (peekIsKeyword p4 "WHERE"); [|split; [reflexivity | assumption]].
    pose proof (parseLogical_recased _ _ (recased_tail _ _ HR4)) as Hlog.
    destruct (parseLogical (snd (next p4))) as [[expr p5|e]|],
             (parseLogical (snd (next q4))) as [[expr' q5|e']|];
      simpl in Hlog; try contradiction; try exact I.
    destruct Hlog as [-> HR5]. split; [reflexivity | assumption]. }
  match type of Hsel with
  | same_outcome ?a ?b => destruct a as [[sel p5|e]|], b as [[sel' q5|e']|]
  end; simpl in Hsel; try contradiction; try exact I.
  destruct Hsel as [<- HR5].
  rewrite (recased_peekIsKeyword _ _ "LIMIT" HR5).
  destruct (peekIsKeyword p5 "LIMIT"); [|split; [reflexivity | assumption]].
  pose proof (recased_tail _ _ HR5) as HR6.
  destruct HR6 as [|n n' p7 q7 Hn HR7]; cbn [peek hd_error next snd]; [exact I|].
  rewrite (recased_type _ _ TokenNumber Hn).
  destruct (hasType n TokenNumber) eqn:Hnum; simpl negb; cbv iota; [|exact I].
  rewrite (recased_value_has_type _ _ _ Hn Hnum) by discriminate.
  destruct (ParseUint (Value n)); [split; [reflexivity | assumption] | exact I].
Qed.

Lemma parseInsert_recased (p q : parser) :
  Forall2 recased p q -> same_result (parseInsert p) (parseInsert q).
Proof.
  intros HR. unfold parseInsert. apply recased_tail in HR.
  pose proof (expectKeyword_recased "INTO" _ _ HR) as Hinto.
  destruct (expectKeyword "INTO" (snd (next p))) as [[e|] p1],
           (expectKeyword "INTO" (snd (next q))) as [[e'|] q1];
    try contradiction; [exact I|].
  destruct Hinto as [|tn tn' p2 q2 Htn HR2]; cbn [peek hd_error next snd]; [exact I|].
  rewrite (recased_type _ _ TokenIdentifier Htn).
  destruct (hasType tn TokenIdentifier) eqn:Hid; simpl negb; cbv iota; [|exact I].
  rewrite (recased_value_has_type _ _ _ Htn Hid) by discriminate.
  rewrite (recased_peekIsSep _ _ "(" HR2).
  assert (Hskip : same_result
                    (if peekIsSep p2 "(" then skipColumnList (snd (next p2)) else Ok tt p2)
                    (if peekIsSep p2 "(" then skipColumnList (snd (next q2)) else Ok tt q2)).
  { destruct (peekIsSep p2 "("); [|split; [reflexivity | assumption]].
    apply (skipColumnList_recased _ _ _ (le_n _)). apply recased_tail. assumption. }
  match type of Hskip with
  | same_result ?a ?b => destruct a as [u1 p3|e], b as [u2 q3|e']
  end; simpl in Hskip; try contradiction; [|exact I].
  destruct Hskip as [_ HR3].
  pose proof (expectKeyword_recased "VALUES" _ _ HR3) as Hvalues.
  destruct (expectKeyword "VALUES" p3) as [[e|] p4], (expectKeyword "VALUES" q3) as [[e'|] q4];
    try contradiction; [exact I|].
  rewrite (recased_peekIsSep _ _ "(" Hvalues).
  destruct (peekIsSep p4 "("); simpl negb; cbv iota; [|exact I].
  pose proof (parseValues_recased _ _ _ [] false (le_n _) (recased_tail _ _ Hvalues)) as Hvals.
  destruct (parseValues (snd (next p4)) [] false) as [vals p5|e],
           (parseValues (snd (next q4)) [] false) as [vals' q5|e'];
    simpl in Hvals; try contradiction; [|exact I].
  destruct Hvals as [<- HR5].
  rewrite (recased_peekIsSep _ _ ")" HR5).
  destruct (peekIsSep p5 ")"); simpl negb; cbv iota; [|exact I].
  split; [reflexivity | apply recased_tail; assumption].
Qed.

Lemma parseCreateTable_recased (p q : parser) :
  Forall2 recased p q -> same_result (parseCreateTable p) (parseCreateTable q).
Proof.
  intros HR. unfold parseCreateTable. apply recased_tail in HR.
  pose proof (expectKeyword_recased "TABLE" _ _ HR) as Htable.
  destruct (expectKeyword "TABLE" (snd (next p))) as [[e|] p1],
           (expectKeyword "TABLE" (snd (next q))) as [[e'|] q1];
    try contradiction; [exact I|].
  destruct Htable as [|tn tn' p2 q2 Htn HR2]; cbn [peek hd_error next snd]; [exact I|].
  rewrite (recased_type _ _ TokenIdentifier Htn).
  destruct (hasType tn TokenIdentifier) eqn:Hid; simpl negb; cbv iota; [|exact I].
  rewrite (recased_value_has_type _ _ _ Htn Hid) by discriminate.
  rewrite (recased_peekIsSep _ _ "(" HR2).
  destruct (peekIsSep p2 "("); simpl negb; cbv iota; [|exact I].
  pose proof (parseColumns_recased _ _ _ [] false (le_n _) (recased_tail _ _ HR2)) as Hcols.
  destruct (parseColumns (snd (next p2)) [] false) as [cols p3|e],
           (parseColumns (snd (next q2)) [] false) as [cols' q3|e'];
    simpl in Hcols; try contradiction; [|exact I].
  destruct Hcols as [<- HR3]. split; [reflexivity | assumption].
Qed.

Lemma parseStatement_recased (p q : parser) :
  Forall2 recased p q -> same_outcome (parseStatement p) (parseStatement q).
Proof.
  intros HR. unfold parseStatement.
  destruct HR as [|t u p1 q1 Htu HR]; cbn [peek hd_error]; [exact I|].
  rewrite (recased_type _ _ TokenKeyword Htu).
  destruct (hasType t TokenKeyword) eqn:Hk; [|exact I].
  rewrite (recased_upper _ _ Htu Hk).
  assert (HR' : Forall2 recased (t :: p1) (u :: q1)) by (constructor; assumption).
  destruct (String.eqb (ToUpper (Value t)) "SELECT"); [apply parseSelect_recased; assumption|].
  destruct (String.eqb (ToUpper (Value t)) "INSERT");
    [apply (parseInsert_recased _ _ HR')|].
  destruct (String.eqb (ToUpper (Value t)) "CREATE");
    [apply (parseCreateTable_recased _ _ HR') | exact I].
Qed.

Lemma parseStatements_loop_recased (fuel : nat) :
  forall p q out,
    Forall2 recased p q ->
    same_statements (parseStatements_loop fuel p out) (parseStatements_loop fuel q out).
Proof.
  induction fuel as [|fuel IH]; intros p q out HR; [exact I|].
  cbn [parseStatements_loop].
  destruct HR as [|t u p1 q1 Htu HR]; cbn [peek hd_error next snd]; [reflexivity|].
  rewrite (recased_isSep _ _ _ Htu).
  destruct (isSep t ";"); [apply IH; assumption|].
  assert (HR' : Forall2 recased (t :: p1) (u :: q1)) by (constructor; assumption).
  pose proof (parseStatement_recased _ _ HR') as Hst.
  destruct (parseStatement (t :: p1)) as [[node p2|e]|],
           (parseStatement (u :: q1)) as [[node' q2|e']|];
    simpl in Hst; try contradiction; try exact I.
  destruct Hst as [<- HR2].
  rewrite (recased_peekIsSep _ _ ";" HR2).
  apply IH. destruct (peekIsSep p2 ";"); [apply recased_tail|]; assumption.
Qed.

End KeywordCase.

(** X9.  The parser does not look at the letter case of keywords: two token
    sequences that differ only in the case of their Keyword tokens parse to
    the same statements, or both fail. *)
Theorem parseStatements_ignores_keyword_case (p q : parser) :
  Forall2 recased p q -> same_statements (parseStatements p) (parseStatements q).
Proof.
  intros HR. unfold parseStatements. rewrite (recased_length _ _ HR).
  apply parseStatements_loop_recased. assumption.
Qed.

Lemma parseStatements_ignores_keyword_case_witness :
  same_statements
    (parseStatements
       [mkToken TokenKeyword "select"; sep "*"; mkToken TokenKeyword "From"; ident "T";
        mkToken TokenKeyword "where"; ident "a"; mkToken TokenOperator "="; ident "b";
        mkToken TokenKeyword "and"; ident "c"; mkToken TokenOperator "<";
        mkToken TokenNumber "3"])
    (parseStatements
       [mkToken TokenKeyword "SELECT"; sep "*"; mkToken TokenKeyword "FROM"; ident "T";
        mkToken TokenKeyword "WHERE"; ident "a"; mkToken TokenOperator "="; ident "b";
        mkToken TokenKeyword "AND"; ident "c"; mkToken TokenOperator "<";
        mkToken TokenNumber "3"]).
Proof.
  apply parseStatements_ignores_keyword_case.
  repeat (constructor; [split; reflexivity|]). constructor.
Defined.

(** ** Projection lists and VALUES lists *)

Import Lists.

Section CommaLists.

Lemma parseProjections_separated (ns : list string) :
  forall n proj rest,
    peekIsSep rest "," = false ->
    parseProjections (separated (ident n) (map ident ns) ++ rest) proj
    = Ok (proj ++ map (mkProjectionItem false) (n :: ns)) rest.
Proof.
  induction ns as [|n' ns IH]; intros n proj rest Hrest.
  - cbn [map separated app]. rewrite parseProjections_step. simpl hasType. simpl negb.
    cbv iota. destruct rest as [|c rest]; [reflexivity|].
    unfold peekIsSep in Hrest. simpl in Hrest. rewrite Hrest. reflexivity.
  - cbn [map separated app]. rewrite parseProjections_step. simpl hasType. simpl negb.
    cbv iota. simpl isSep. cbv iota.
    change (ident n' :: match map ident ns with
                        | [] => []
                        | t' :: ts' => sep "," :: separated t' ts'
                        end ++ rest)
      with (separated (ident n') (map ident ns) ++ rest).
    rewrite IH by assumption. rewrite <- app_assoc. reflexivity.
Qed.

Lemma parseProjections_shape (k : nat) :
  forall p proj projs rest,
    List.length p <= k ->
    parseProjections p proj = Ok projs rest ->
    exists n ns,
      p = separated (ident n) (map ident ns) ++ rest
      /\ peekIsSep rest "," = false
      /\ projs = proj ++ map (mkProjectionItem false) (n :: ns).
Proof.
  induction k as [|k IH]; intros p proj projs rest Hk H.
  - destruct p; [discriminate | simpl in Hk; lia].
  - destruct p as [|t p1]; [discriminate|]. rewrite parseProjections_step in H.
    destruct (hasType t TokenIdentifier) eqn:Ht; simpl in H; [|discriminate].
    rewrite (token_of_type _ _ Ht).
    destruct p1 as [|c p2].
    + inv H. exists (Value t), []. repeat split.
    + destruct (isSep c ",") eqn:Hc.
      * apply IH in H; [|simpl in *; lia]. destruct H as (n & ns & -> & Hrest & ->).
        exists (Value t), (n :: ns). rewrite (isSep_eq _ _ Hc), <- app_assoc.
        repeat split. assumption.
      * inv H. exists (Value t), []. repeat split. unfold peekIsSep. simpl. assumption.
Qed.

Lemma value_branch (t : Token) (e : Expr) :
  value_expr t = Some e ->
  isSep t ")" = false
  /\ (if hasType t TokenNumber then
        match ParseUint (if ContainsByte (Value t) "." then before_first (Value t) "."
                         else Value t) with
        | inr err => inr (ErrStrconv err)
        | inl u => inl (LiteralInt u)
        end
      else if hasType t TokenString then inl (LiteralString (Value t))
      else if hasType t TokenIdentifier then inl (ColumnRef (Value t))
      else inr (ErrUnexpectedInValues (Some t))) = inl e.
Proof.
  unfold value_expr, isSep, hasType. rewrite integer_part_whole.
  destruct (Typ t); simpl; try discriminate.
  - intros H. inv H. auto.
  - destruct (ParseUint _); [|discriminate]. intros H. inv H. auto.
  - intros H. inv H. auto.
Qed.

Lemma parseValues_value (t : Token) (e : Expr) (p1 : parser) (vals : list Expr) (hv : bool) :
  value_expr t = Some e ->
  parseValues (t :: p1) vals hv
  = match p1 with
    | c :: p2 => if isSep c "," then parseValues p2 (vals ++ [e]) true else Ok (vals ++ [e]) p1
    | [] => Ok (vals ++ [e]) p1
    end.
Proof.
  intros H. destruct (value_branch _ _ H) as [Hclose Hval].
  cbn [parseValues]. rewrite Hclose, Hval. reflexivity.
Qed.

Lemma parseValues_separated (vs : list Token) :
  forall v es vals hv (trailing : bool) rest,
    map value_expr (v :: vs) = map Some es ->
    parseValues (separated v vs ++ (if trailing then [sep ","] else []) ++ sep ")" :: rest)
                vals hv
    = Ok (vals ++ es) (sep ")" :: rest).
Proof.
  induction vs as [|v' vs IH]; intros v es vals hv trailing rest Hes.
  - destruct es as [|e [|e' es]]; try discriminate. simpl in Hes. inversion Hes as [He].
    cbn [separated app]. rewrite (parseValues_value _ _ _ _ _ He).
    destruct trailing; reflexivity.
  - destruct es as [|e es]; [discriminate|]. simpl in Hes. inversion Hes as [[He Hes']].
    cbn [separated app]. rewrite (parseValues_value _ _ _ _ _ He).
    simpl isSep. cbv iota.
    change (v' :: match vs with
                  | [] => []
                  | t' :: ts' => sep "," :: separated t' ts'
                  end ++ (if trailing then [sep ","] else []) ++ sep ")" :: rest)
      with (separated v' vs ++ (if trailing then [sep ","] else []) ++ sep ")" :: rest).
    rewrite (IH v' es); [rewrite <- app_assoc; reflexivity|].
    simpl. rewrite Hes'. reflexivity.
Qed.

End CommaLists.

(** X10.  The projection loop of SELECT accepts exactly one or more
    Identifier tokens with a comma between each two, up to a token that is not
    a comma, and returns their names in order as columns; a comma must be
    followed by another Identifier. *)
Theorem projection_list (p : parser) (projs : list ProjectionItem) (rest : parser) :
  parseProjections p [] = Ok projs rest
  <-> exists n ns,
        p = separated (ident n) (map ident ns) ++ rest
        /\ peekIsSep rest "," = false
        /\ projs = map (mkProjectionItem false) (n :: ns).
Proof.
  split.
  - intros H. apply (parseProjections_shape _ _ _ _ _ (le_n _)) in H.
    destruct H as (n & ns & Hp & Hrest & Hprojs). exists n, ns. auto.
  - intros (n & ns & -> & Hrest & ->). apply (parseProjections_separated ns n [] rest Hrest).
Qed.

Lemma projection_list_witness :
  parseProjections [ident "a"; sep ","; ident "b"; mkToken TokenKeyword "FROM"; ident "t"] []
  = Ok [mkProjectionItem false "a"; mkProjectionItem false "b"]
       [mkToken TokenKeyword "FROM"; ident "t"].
Proof.
  apply (proj2 (projection_list _ _ _)). exists "a", ["b"]. repeat split.
Defined.

(** X11.  INSERT INTO t VALUES ( v1, ..., vn ) with one or more values, a
    comma between each two and at most one more before the closing
    parenthesis, parses to an InsertStmt for t with the values' expressions in
    order; a value followed by a token that is neither ',' nor ')' is refused
    with the error that asks for ')'. *)
Theorem insert_values_list :
  (forall c ki table kv v vs es (trailing : bool) rest,
      isKeyword ki "INTO" = true -> isKeyword kv "VALUES" = true ->
      map value_expr (v :: vs) = map Some es ->
      parseInsert
        (c :: ki :: ident table :: kv :: sep "(" ::
           separated v vs ++ (if trailing then [sep ","] else []) ++ sep ")" :: rest)
      = Ok (InsertStmt table es) rest)
  /\ (forall c ki table kv v e x rest,
        isKeyword ki "INTO" = true -> isKeyword kv "VALUES" = true ->
        value_expr v = Some e -> isSep x "," = false -> isSep x ")" = false ->
        parseInsert (c :: ki :: ident table :: kv :: sep "(" :: v :: x :: rest)
        = Err ErrExpectedCloseAfterValues).
Proof.
  split.
  - intros c ki table kv v vs es trailing rest Hki Hkv Hes.
    unfold parseInsert. cbn [next snd]. rewrite (expectKeyword_keyword _ _ _ Hki).
    cbn [peek hd_error next snd]. simpl hasType. simpl negb. cbv iota.
    replace (peekIsSep (kv :: _) "(") with false.
    2:{ unfold peekIsSep, isSep. simpl. unfold isKeyword in Hkv.
        apply andb_true_iff in Hkv. destruct Hkv as [Hkv _]. apply hasType_eq in Hkv.
        unfold hasType. rewrite Hkv. reflexivity. }
    rewrite (expectKeyword_keyword _ _ _ Hkv).
    replace (peekIsSep (sep "(" :: _) "(") with true by reflexivity.
    simpl negb. cbv iota. cbn [next snd].
    rewrite (parseValues_separated vs v es [] false trailing rest Hes). reflexivity.
  - intros c ki table kv v e x rest Hki Hkv Hv Hcomma Hclose.
    unfold parseInsert. cbn [next snd]. rewrite (expectKeyword_keyword _ _ _ Hki).
    cbn [peek hd_error next snd]. simpl hasType. simpl negb. cbv iota.
    replace (peekIsSep (kv :: _) "(") with false.
    2:{ unfold peekIsSep, isSep. simpl. unfold isKeyword in Hkv.
        apply andb_true_iff in Hkv. destruct Hkv as [Hkv _]. apply hasType_eq in Hkv.
        unfold hasType. rewrite Hkv. reflexivity. }
    rewrite (expectKeyword_keyword _ _ _ Hkv).
    replace (peekIsSep (sep "(" :: _) "(") with true by reflexivity.
    simpl negb. cbv iota. cbn [next snd].
    rewrite (parseValues_value _ _ _ _ _ Hv), Hcomma.
    unfold peekIsSep. simpl. rewrite Hclose. reflexivity.
Qed.

Lemma insert_values_list_witness :
  parseInsert
    [mkToken TokenKeyword "insert"; mkToken TokenKeyword "into"; ident "t";
     mkToken TokenKeyword "values"; sep "(";
     mkToken TokenNumber "1.9"; sep ","; mkToken TokenString "Alice"; sep ","; ident "x";
     sep ","; sep ")"; sep ";"]
  = Ok (InsertStmt "t" [LiteralInt 1; LiteralString "Alice"; ColumnRef "x"]) [sep ";"]
  /\ parseInsert
       [mkToken TokenKeyword "insert"; mkToken TokenKeyword "into"; ident "t";
        mkToken TokenKeyword "values"; sep "(";
        mkToken TokenNumber "1"; mkToken TokenNumber "2"; sep ")"]
     = Err ErrExpectedCloseAfterValues.
Proof.
  split.
  - exact (proj1 insert_values_list
             (mkToken TokenKeyword "insert") (mkToken TokenKeyword "into") "t"
             (mkToken TokenKeyword "values")
             (mkToken TokenNumber "1.9") [mkToken TokenString "Alice"; ident "x"]
             [LiteralInt 1; LiteralString "Alice"; ColumnRef "x"] true [sep ";"]
             eq_refl eq_refl eq_refl).
  - exact (proj2 insert_values_list
             (mkToken TokenKeyword "insert") (mkToken TokenKeyword "into") "t"
             (mkToken TokenKeyword "values")
             (mkToken TokenNumber "1") (LiteralInt 1) (mkToken TokenNumber "2") [sep ")"]
             eq_refl eq_refl eq_refl eq_refl eq_refl).
Defined.

(** ** One comparison *)

(** X12.  [parseComparison] succeeds exactly on three tokens, an Identifier,
    an Operator and a value (an Identifier, a String, or a Number that reads
    as an integer), and returns the comparison of the column with that value,
    leaving the tokens after the three; a literal on the left, a missing
    operator or any other right operand is an error. *)
Theorem comparison_tokens (p : parser) (e : Expr) (rest : parser) :
  parseComparison p = Ok e rest
  <-> exists a o r rhs,
        p = ident a :: mkToken TokenOperator o :: r :: rest
        /\ value_expr r = Some rhs
        /\ e = ComparisonOp (ColumnRef a) o rhs.
Proof.
  split.
  - unfold parseComparison. intros H.
    destruct p as [|t [|o [|r p]]]; cbn [peek hd_error next snd] in H; try discriminate.
    + destruct (hasType t TokenIdentifier); discriminate.
    + destruct (hasType t TokenIdentifier); [|discriminate].
      destruct (negb (hasType o TokenOperator)); discriminate.
    + destruct (hasType t TokenIdentifier) eqn:Ht; [|discriminate].
      destruct (hasType o TokenOperator) eqn:Ho; simpl negb in H; cbv iota in H;
        [|discriminate].
      rewrite integer_part_whole in H.
      pose proof (token_of_type _ _ Ht) as Et. pose proof (token_of_type _ _ Ho) as Eo.
      exists (Value t), (Value o), r. unfold value_expr, ident.
      destruct (Typ r); try discriminate.
      * inv H. eexists. rewrite <- Et, <- Eo. repeat split.
      * destruct (ParseUint _); [|discriminate]. inv H. eexists. rewrite <- Et, <- Eo.
        repeat split.
      * inv H. eexists. rewrite <- Et, <- Eo. repeat split.
  - intros (a & o & r & rhs & -> & Hr & ->). unfold parseComparison.
    cbn [peek hd_error next snd]. simpl hasType. simpl negb. cbv iota. simpl Value.
    rewrite integer_part_whole. unfold value_expr in Hr.
    destruct (Typ r); try discriminate.
    + inv Hr. reflexivity.
    + destruct (ParseUint _); [|discriminate]. inv Hr. reflexivity.
    + inv Hr. reflexivity.
Qed.

Lemma comparison_tokens_witness :
  parseComparison [ident "price"; mkToken TokenOperator ">="; mkToken TokenNumber "10.5";
                   mkToken TokenKeyword "AND"]
  = Ok (ComparisonOp (ColumnRef "price") ">=" (LiteralInt 10)) [mkToken TokenKeyword "AND"].
Proof.
  apply (proj2 (comparison_tokens _ _ _)).
  exists "price", ">=", (mkToken TokenNumber "10.5"), (LiteralInt 10). repeat split.
Defined.

(** ** Where whitespace is needed *)

Section Layout.

Lemma runs_white (pre : string) (c : ascii) (rest current : string)
      (tokens result : list Token) :
  isWhitespace c = true ->
  runs_to (pre ++ String c rest)%string (String.length pre + 1) EmptyString
          (fst (flush tokens current)) result ->
  runs_to (pre ++ String c rest)%string (String.length pre) current tokens result.
Proof.
  intros Hc Hnext fuel Hfuel. destruct fuel as [|fuel]; [lia|]. cbn [Tokenize_loop].
  rewrite lt_length_append, index_append_length, Hc.
  pose proof (flush_resets tokens current) as Hr.
  destruct (flush tokens current) as [tokens' current']. simpl in Hr, Hnext. subst current'.
  apply Hnext. rewrite length_append in *. simpl in *. lia.
Qed.

Lemma flush_empty (tokens : list Token) : fst (flush tokens EmptyString) = tokens.
Proof. reflexivity. Qed.

Lemma runs_blank (ws : string) :
  forall pre rest current tokens result,
    is_blank ws = true ->
    (forall current' tokens',
        (ws = EmptyString /\ current' = current /\ tokens' = tokens)
        \/ (current' = EmptyString /\ tokens' = fst (flush tokens current)) ->
        runs_to (pre ++ ws ++ rest)%string (String.length pre + String.length ws)
                current' tokens' result) ->
    runs_to (pre ++ ws ++ rest)%string (String.length pre) current tokens result.
Proof.
  induction ws as [|c ws IH]; intros pre rest current tokens result Hws Hnext.
  - specialize (Hnext current tokens). simpl in Hnext. rewrite Nat.add_0_r in Hnext. auto.
  - simpl in Hws. apply andb_true_iff in Hws. destruct Hws as [Hc Hws].
    simpl append. apply runs_white; [assumption|].
    rewrite <- append_snoc.
    replace (String.length pre + 1) with (String.length (pre ++ String c EmptyString)%string)
      by (rewrite length_append; reflexivity).
    apply IH; [assumption|]. intros current' tokens' Hcase.
    rewrite append_snoc, length_append. simpl String.length.
    replace (String.length pre + 1 + String.length ws)
      with (String.length pre + S (String.length ws)) by lia.
    apply Hnext. right. destruct Hcase as [(_ & -> & ->) | [-> ->]]; auto.
Qed.

Lemma runs_separator_pending (pre v rest current : string) (tokens result : list Token) :
  existsb (String.eqb v) [","; ";"; "("; ")"; "*"] = true ->
  runs_to (pre ++ v ++ rest)%string (String.length pre + String.length v) EmptyString
          (fst (flush tokens current) ++ [mkToken TokenSeparator v]) result ->
  runs_to (pre ++ v ++ rest)%string (String.length pre) current tokens result.
Proof.
  intros Hv Hnext fuel Hfuel. simpl in Hv.
  assert (Hlen : String.length pre < String.length (pre ++ v ++ rest)%string).
  { rewrite !length_append.
    repeat (apply orb_true_iff in Hv; destruct Hv as [Hv | Hv]);
      try (apply String.eqb_eq in Hv; subst; simpl; lia). discriminate. }
  destruct fuel as [|fuel]; [lia|].
  pose proof (flush_resets tokens current) as Hr.
  repeat (apply orb_true_iff in Hv; destruct Hv as [Hv | Hv]);
    try discriminate; apply String.eqb_eq in Hv; subst v;
    simpl append in *; cbn [Tokenize_loop];
    rewrite lt_length_append, index_append_length; simpl;
    destruct (flush tokens current) as [tokens' current']; simpl in Hr, Hnext; subst current';
    apply Hnext; simpl in *; lia.
Qed.

Lemma runs_string_pending (pre body rest current : string) (tokens result : list Token) :
  all_bytes (fun c => (N_of_ascii c <? 128)%N && negb (Ascii.eqb c "'")) body = true ->
  runs_to (pre ++ String "'" (body ++ String "'" rest))%string
          (String.length pre + (String.length body + 2)) EmptyString
          (fst (flush tokens current) ++ [mkToken TokenString body]) result ->
  runs_to (pre ++ String "'" (body ++ String "'" rest))%string
          (String.length pre) current tokens result.
Proof.
  intros Hbody Hnext fuel Hfuel. destruct (ascii_body _ Hbody) as [Hw Hn].
  set (input := (pre ++ String "'" (body ++ String "'" rest))%string) in *.
  assert (Hlen : String.length input
                 = String.length pre + S (String.length body + S (String.length rest))).
  { unfold input. rewrite length_append. simpl. rewrite length_append. reflexivity. }
  destruct fuel as [|fuel]; [lia|]. cbn [Tokenize_loop].
  unfold input at 1 2. rewrite lt_length_append, index_append_length. fold input. simpl.
  unfold input at 1. rewrite twoCharOperatorAt_append. fold input.
  assert (Htwo : (if 1 <? String.length (String "'" (body ++ String "'" rest))
                  then Some (isOperator (substring 0 2 (String "'" (body ++ String "'" rest))))
                  else Some false) = Some false).
  { destruct (1 <? _); [|reflexivity]. reflexivity. }
  rewrite Htwo.
  pose proof (flush_resets tokens current) as Hr.
  destruct (flush tokens current) as [tokens' current']. simpl in Hr, Hnext. subst current'.
  assert (Hscan : scanString (String.length input) input "'" (String.length pre + 1) EmptyString
                  = Some (String.length pre + 1 + String.length body, body)).
  { unfold input. rewrite <- append_snoc.
    replace (String.length pre + 1)
      with (String.length (pre ++ String "'" EmptyString)%string)
      by (rewrite length_append; reflexivity).
    rewrite scanString_terminated; [rewrite Hw; reflexivity| |assumption].
    rewrite append_snoc. fold input. lia. }
  rewrite Hscan.
  replace (String.length pre + 1 + String.length body <? String.length input) with true
    by (symmetry; apply Nat.ltb_lt; lia).
  replace (String.length pre + 1 + String.length body + 1)
    with (String.length pre + (String.length body + 2)) by lia.
  apply Hnext. lia.
Qed.

Lemma second_byte_not_eq (o c : ascii) :
  Ascii.eqb c "=" = false -> isOperator (String o (String c EmptyString)) = false.
Proof.
  intros Hc. unfold isOperator, operators. cbn [existsb].
  repeat (apply orb_false_iff; split); try reflexivity;
    apply String.eqb_neq; intros H; inversion H; subst; discriminate Hc.
Qed.

(** An operator with nothing pending, before anything but '='. *)
Lemma runs_operator_free (pre op rest : string) (tokens result : list Token) :
  isOperator op = true ->
  match rest with String c _ => Ascii.eqb c "=" = false | EmptyString => True end ->
  runs_to (pre ++ op ++ rest)%string (String.length pre + String.length op) EmptyString
          (tokens ++ [mkToken TokenOperator op]) result ->
  runs_to (pre ++ op ++ rest)%string (String.length pre) EmptyString tokens result.
Proof.
  intros Hop Hrest Hnext fuel Hfuel. unfold isOperator, operators in Hop. simpl in Hop.
  assert (Hlen : String.length pre < String.length (pre ++ op ++ rest)%string).
  { rewrite !length_append.
    repeat (apply orb_true_iff in Hop; destruct Hop as [Hop | Hop]);
      try (apply String.eqb_eq in Hop; subst; simpl; lia). discriminate. }
  destruct fuel as [|fuel]; [lia|].
  repeat (apply orb_true_iff in Hop; destruct Hop as [Hop | Hop]);
    try discriminate; apply String.eqb_eq in Hop; subst op;
    simpl append in *; cbn [Tokenize_loop];
    rewrite lt_length_append, index_append_length; simpl;
    rewrite twoCharOperatorAt_append;
    destruct rest as [|c rest']; simpl;
    rewrite ?substring_zero, ?(second_byte_not_eq _ _ Hrest);
    rewrite ?slice_in_range by (rewrite length_append; simpl; lia);
    rewrite ?substring_append_length; simpl; rewrite ?substring_zero;
    apply Hnext; simpl in *; lia.
Qed.

Definition safe_head_prop (s : string) : Prop :=
  match s with
  | String c _ => Ascii.eqb c "=" = false
  | EmptyString => True
  end.

Lemma whitespace_not_eq (c : ascii) : isWhitespace c = true -> Ascii.eqb c "=" = false.
Proof.
  destruct c as [[] [] [] [] [] [] [] []]; vm_compute; congruence.
Qed.

Lemma plain_not_eq (c : ascii) : is_plain c = true -> Ascii.eqb c "=" = false.
Proof.
  destruct c as [[] [] [] [] [] [] [] []]; vm_compute; congruence.
Qed.

Lemma safe_head_blank (ws s : string) :
  is_blank ws = true -> safe_head_prop s -> safe_head_prop (ws ++ s)%string.
Proof.
  destruct ws as [|c ws]; simpl; [auto|]. intros H _.
  apply andb_true_iff in H. destruct H as [Hc _]. apply whitespace_not_eq. assumption.
Qed.

Lemma printable_word (t : Token) :
  printable t = true -> is_word t = true ->
  all_bytes is_plain (Value t) = true /\ createToken (Value t) = t /\ show t = Value t
  /\ Value t <> EmptyString.
Proof.
  destruct t as [typ v]. unfold printable, is_word, show. simpl.
  intros Hp Hw.
  assert (H : negb (String.eqb v EmptyString) && all_bytes is_plain v
              && TokenType_eqb (Typ (createToken v)) typ = true /\ typ <> TokenString).
  { destruct typ; try discriminate; split; auto; discriminate. }
  destruct H as [H Hns].
  apply andb_true_iff in H. destruct H as [H Htyp].
  apply andb_true_iff in H. destruct H as [Hne Hplain].
  repeat split.
  - assumption.
  - pose proof (createToken_value v) as Hval.
    destruct (createToken v) as [typ' v']. simpl in *. subst v'.
    destruct typ', typ; simpl in Htyp; congruence.
  - destruct typ; congruence.
  - intros ->. discriminate.
Qed.

Lemma safe_head_show (u : Token) (s : string) :
  printable u = true -> is_operator_token u = false -> safe_head_prop (show u ++ s)%string.
Proof.
  intros Hp Hop.
  destruct (is_word u) eqn:Hw.
  - destruct (printable_word _ Hp Hw) as (Hplain & _ & -> & Hne).
    destruct (Value u) as [|c v]; [congruence|]. simpl in *.
    apply andb_true_iff in Hplain. destruct Hplain as [Hc _]. apply plain_not_eq. assumption.
  - destruct u as [typ v]. unfold printable, is_word, is_operator_token, show in *. simpl in *.
    destruct typ; try discriminate; simpl; [reflexivity|].
    repeat (apply orb_true_iff in Hp; destruct Hp as [Hp | Hp]);
      try discriminate; apply String.eqb_eq in Hp; subst; reflexivity.
Qed.

Lemma safe_head_layout (items : list (string * Token)) (t : Token) (trailing : string) :
  is_operator_token t = true ->
  spaced (Some t) items = true ->
  is_blank trailing = true ->
  safe_head_prop (layout items trailing).
Proof.
  intros Ht Hs Hb. destruct items as [|[ws u] items]; simpl.
  - rewrite <- (append_empty_r trailing). apply safe_head_blank; [assumption | exact I].
  - simpl in Hs. apply andb_true_iff in Hs. destruct Hs as [Hs _].
    apply andb_true_iff in Hs. destruct Hs as [Hs Hgap].
    apply andb_true_iff in Hs. destruct Hs as [Hws Hp].
    destruct ws as [|c ws];
      [|simpl in *; apply andb_true_iff in Hws; destruct Hws as [Hc _];
        apply whitespace_not_eq; assumption].
    simpl in Hgap. rewrite orb_false_r in Hgap. apply negb_true_iff in Hgap.
    unfold needs_space in Hgap. rewrite Ht in Hgap. simpl in Hgap.
    apply orb_false_iff in Hgap. destruct Hgap as [_ Hop].
    simpl append. apply safe_head_show; assumption.
Qed.

Lemma token_kind (t : Token) :
  printable t = true ->
  is_word t = true \/ is_operator_token t = true
  \/ Typ t = TokenSeparator \/ Typ t = TokenString.
Proof.
  destruct t as [typ v]. unfold printable, is_word, is_operator_token. simpl.
  destruct typ; auto; discriminate.
Qed.

Lemma runs_layout (trailing : string) :
  is_blank trailing = true ->
  forall items prev pre current tokens acc result,
    spaced prev items = true ->
    fst (flush tokens current) = acc ->
    (current <> EmptyString -> exists u, prev = Some u /\ is_word u = true) ->
    result = acc ++ map snd items ->
    runs_to (pre ++ layout items trailing)%string (String.length pre) current tokens result.
Proof.
  intros Hb. induction items as [|[ws t] items IH];
    intros prev pre current tokens acc result Hs Hacc Hpending ->.
  - simpl. rewrite app_nil_r, <- (append_empty_r trailing).
    apply runs_blank; [assumption|]. intros current' tokens' Hcase.
    rewrite append_empty_r, <- length_append.
    assert (Hflush : fst (flush tokens' current') = acc).
    { destruct Hcase as [(_ & -> & ->) | [-> ->]]; [assumption | rewrite <- Hacc; reflexivity]. }
    rewrite <- Hflush. apply runs_end. lia.
  - simpl in Hs. apply andb_true_iff in Hs. destruct Hs as [Hs Hrest].
    apply andb_true_iff in Hs. destruct Hs as [Hs Hgap].
    apply andb_true_iff in Hs. destruct Hs as [Hws Hp].
    simpl layout. simpl map.
    apply runs_blank; [assumption|]. intros current' tokens' Hcase.
    assert (Hflush : fst (flush tokens' current') = acc).
    { destruct Hcase as [(_ & -> & ->) | [-> ->]]; [assumption | rewrite <- Hacc; reflexivity]. }
    assert (Hclear : is_word t = true \/ is_operator_token t = true ->
                     current' = EmptyString /\ tokens' = acc).
    { intros Hkind.
      assert (Hcur : current' = EmptyString).
      { destruct Hcase as [(-> & -> & ->) | [-> _]]; [|reflexivity].
        destruct current as [|c current]; [reflexivity|].
        destruct Hpending as (u & -> & Hu); [discriminate|].
        simpl in Hgap. rewrite orb_false_r in Hgap. apply negb_true_iff in Hgap.
        unfold needs_space in Hgap. rewrite Hu in Hgap. simpl in Hgap.
        apply orb_false_iff in Hgap. destruct Hgap as [Hgap _].
        apply orb_false_iff in Hgap. destruct Hgap as [Hw Ho].
        destruct Hkind; congruence. }
      subst current'. split; [reflexivity|]. rewrite <- Hflush. reflexivity. }
    rewrite <- append_assoc, <- length_append.
    set (pre1 := (pre ++ ws)%string).
    assert (Hnext : forall current2 tokens2,
               fst (flush tokens2 current2) = acc ++ [t] ->
               (current2 <> EmptyString -> is_word t = true) ->
               runs_to (pre1 ++ show t ++ layout items trailing)%string
                       (String.length pre1 + String.length (show t)) current2 tokens2
                       (acc ++ t :: map snd items)).
    { intros current2 tokens2 Hf2 Hp2.
      rewrite <- append_assoc, <- length_append.
      apply (IH (Some t) _ current2 tokens2 (acc ++ [t])); auto.
      - intros Hne. exists t. auto.
      - rewrite <- app_assoc. reflexivity. }
    destruct (token_kind _ Hp) as [Hw | [Ho | [Hsep | Hstr]]].
    + destruct (Hclear (or_introl Hw)) as [-> ->].
      destruct (printable_word _ Hp Hw) as (Hplain & Hcreate & Hshow & Hne).
      rewrite Hshow in *. apply runs_word; [assumption|].
      apply Hnext; [|auto]. simpl append. unfold flush.
      destruct (Value t) as [|c v] eqn:Hv; [congruence|]. simpl. rewrite Hcreate. reflexivity.
    + destruct (Hclear (or_intror Ho)) as [-> ->].
      pose proof (safe_head_layout _ _ _ Ho Hrest Hb) as Hsafe.
      destruct t as [typ v]. unfold is_operator_token in Ho. simpl in Ho.
      destruct typ; try discriminate. unfold show in *. simpl in *.
      apply runs_operator_free; [assumption | assumption |].
      apply Hnext; [reflexivity | congruence].
    + destruct t as [typ v]. simpl in Hsep. subst typ. unfold show in *. simpl in *.
      apply runs_separator_pending; [assumption|].
      apply Hnext; [rewrite Hflush; reflexivity | congruence].
    + destruct t as [typ v]. simpl in Hstr. subst typ. unfold show in *. simpl in *.
      replace (String.length pre1 + S (String.length (v ++ String "'" EmptyString)))
        with (String.length pre1 + (String.length v + 2)) in Hnext
        by (rewrite length_append; simpl; lia).
      rewrite append_assoc in *. simpl append in *.
      apply runs_string_pending; [assumption|].
      apply Hnext; [rewrite Hflush; reflexivity | congruence].
Qed.

End Layout.

(** X13.  Whitespace matters only between a word (keyword, number,
    identifier) and a following word or operator, and between two operators:
    text made of printable tokens, with any run of spaces, tabs and line
    breaks before each token and at the end, and a non-empty run wherever two
    such tokens would touch, tokenizes to exactly those tokens. *)
Theorem Tokenize_layout (items : list (string * Token)) (trailing : string) :
  spaced None items = true ->
  is_blank trailing = true ->
  Tokenize (layout items trailing) = Some (map snd items).
Proof.
  intros Hs Hb. unfold Tokenize.
  apply (runs_layout trailing Hb items None EmptyString EmptyString [] [] _ Hs eq_refl).
  - congruence.
  - reflexivity.
  - simpl. lia.
Qed.

Lemma Tokenize_layout_witness :
  Tokenize "INSERT INTO t(a,b)VALUES(1,'x y');  SELECT*FROM t WHERE a >='x'AND b !=2 ;  "
  = Some [mkToken TokenKeyword "INSERT"; mkToken TokenKeyword "INTO";
          mkToken TokenIdentifier "t"; mkToken TokenSeparator "(";
          mkToken TokenIdentifier "a"; mkToken TokenSeparator ",";
          mkToken TokenIdentifier "b"; mkToken TokenSeparator ")";
          mkToken TokenKeyword "VALUES"; mkToken TokenSeparator "(";
          mkToken TokenNumber "1"; mkToken TokenSeparator ",";
          mkToken TokenString "x y"; mkToken TokenSeparator ")";
          mkToken TokenSeparator ";";
          mkToken TokenKeyword "SELECT"; mkToken TokenSeparator "*";
          mkToken TokenKeyword "FROM"; mkToken TokenIdentifier "t";
          mkToken TokenKeyword "WHERE"; mkToken TokenIdentifier "a";
          mkToken TokenOperator ">="; mkToken TokenString "x";
          mkToken TokenKeyword "AND"; mkToken TokenIdentifier "b";
          mkToken TokenOperator "!="; mkToken TokenNumber "2";
          mkToken TokenSeparator ";"].
Proof.
  exact (Tokenize_layout
           [(EmptyString, mkToken TokenKeyword "INSERT"); (" ", mkToken TokenKeyword "INTO");
            (" ", mkToken TokenIdentifier "t"); (EmptyString, mkToken TokenSeparator "(");
            (EmptyString, mkToken TokenIdentifier "a"); (EmptyString, mkToken TokenSeparator ",");
            (EmptyString, mkToken TokenIdentifier "b"); (EmptyString, mkToken TokenSeparator ")");
            (EmptyString, mkToken TokenKeyword "VALUES"); (EmptyString, mkToken TokenSeparator "(");
            (EmptyString, mkToken TokenNumber "1"); (EmptyString, mkToken TokenSeparator ",");
            (EmptyString, mkToken TokenString "x y"); (EmptyString, mkToken TokenSeparator ")");
            (EmptyString, mkToken TokenSeparator ";");
            ("  ", mkToken TokenKeyword "SELECT"); (EmptyString, mkToken TokenSeparator "*");
            (EmptyString, mkToken TokenKeyword "FROM"); (" ", mkToken TokenIdentifier "t");
            (" ", mkToken TokenKeyword "WHERE"); (" ", mkToken TokenIdentifier "a");
            (" ", mkToken TokenOperator ">="); (EmptyString, mkToken TokenString "x");
            (EmptyString, mkToken TokenKeyword "AND"); (" ", mkToken TokenIdentifier "b");
            (" ", mkToken TokenOperator "!="); (EmptyString, mkToken TokenNumber "2");
            (" ", mkToken TokenSeparator ";")]
           "  " eq_refl eq_refl).
Defined.

(** ** The dump of an expression *)

Section Dump.
Import GoString Lexer Strconv Parser Fmt Printer Dumps.

Lemma append_inv_head (a b c : string) : (a ++ b = a ++ c)%string -> b = c.
Proof.
  induction a as [|x a IH]; simpl; intros H; [assumption|].
  inversion H. auto.
Qed.

Lemma append_inv_tail_byte (a b : string) (d : ascii) :
  (a ++ String d EmptyString = b ++ String d EmptyString)%string -> a = b.
Proof.
  revert b. induction a as [|x a IH]; intros [|y b]; simpl; intros H.
  - reflexivity.
  - inversion H as [[Hd Hb]]. destruct b; discriminate.
  - inversion H as [[Hd Ha]]. destruct a; discriminate.
  - inversion H. f_equal. auto.
Qed.

Lemma no_byte_append (d : ascii) (a b : string) :
  no_byte d (a ++ b) = no_byte d a && no_byte d b.
Proof.
  unfold no_byte. induction a as [|x a IH]; simpl; [reflexivity|].
  rewrite IH, andb_assoc. reflexivity.
Qed.

Lemma cut (d : ascii) (a b s1 s2 : string) :
  no_byte d a = true -> no_byte d b = true ->
  (a ++ String d s1 = b ++ String d s2)%string -> a = b /\ s1 = s2.
Proof.
  unfold no_byte. revert b.
  induction a as [|x a IH]; intros [|y b]; simpl; intros Ha Hb H.
  - inversion H. auto.
  - inversion H; subst. rewrite Ascii.eqb_refl in Hb. discriminate.
  - inversion H; subst. rewrite Ascii.eqb_refl in Ha. discriminate.
  - inversion H; subst.
    apply andb_true_iff in Ha. destruct Ha as [_ Ha].
    apply andb_true_iff in Hb. destruct Hb as [_ Hb].
    destruct (IH b Ha Hb) as [-> ->]; auto.
Qed.

Lemma cut_line (a b s1 s2 : string) :
  one_line a = true -> one_line b = true ->
  starts_line s1 -> starts_line s2 ->
  (a ++ s1 = b ++ s2)%string -> a = b /\ s1 = s2.
Proof.
  unfold one_line, no_byte. revert b.
  induction a as [|x a IH]; intros [|y b]; simpl; intros Ha Hb H1 H2 H.
  - auto.
  - subst s1. simpl in H1. subst y. discriminate.
  - subst s2. simpl in H2. subst x. discriminate.
  - inversion H; subst.
    apply andb_true_iff in Ha. destruct Ha as [_ Ha].
    apply andb_true_iff in Hb. destruct Hb as [_ Hb].
    destruct (IH b Ha Hb H1 H2) as [-> ->]; auto.
Qed.

Lemma Sprintf_loop_prefix (pre r : string) (arg : option Z) :
  no_byte "%" pre = true ->
  Sprintf_loop (pre ++ r) arg = option_map (append pre) (Sprintf_loop r arg).
Proof.
  unfold no_byte. induction pre as [|x pre IH]; simpl; intros H.
  - destruct (Sprintf_loop r arg); reflexivity.
  - apply andb_true_iff in H. destruct H as [Hx H].
    apply negb_true_iff in Hx. rewrite Hx, (IH H).
    destruct (Sprintf_loop r arg); reflexivity.
Qed.

Lemma Sprintf_d (pre post : string) (v : Z) :
  no_byte "%" pre = true -> no_byte "%" post = true ->
  Sprintf (pre ++ "%d" ++ post) v = Some (pre ++ FormatInt v ++ post)%string.
Proof.
  intros Hpre Hpost. unfold Sprintf. rewrite (Sprintf_loop_prefix _ _ _ Hpre). simpl.
  rewrite <- (append_empty_r post) at 1.
  rewrite (Sprintf_loop_prefix _ _ _ Hpost). simpl. rewrite append_empty_r. reflexivity.
Qed.

Lemma digits_one_line (d : Decimal.uint) : one_line (NilEmpty.string_of_uint d) = true.
Proof.
  unfold one_line, no_byte. induction d; simpl; auto.
Qed.

Lemma FormatInt_one_line (v : Z) : one_line (FormatInt v) = true.
Proof.
  assert (Hd : forall d, one_line (NilZero.string_of_uint d) = true).
  { intros d. unfold NilZero.string_of_uint.
    destruct d; try apply digits_one_line. reflexivity. }
  unfold FormatInt. destruct (Z.to_int v) as [d|d]; simpl; [apply Hd|].
  apply (Hd d).
Qed.

Lemma FormatInt_inj (a b : Z) : FormatInt a = FormatInt b -> a = b.
Proof.
  unfold FormatInt. intros H.
  assert (Hnil : forall v, Z.to_int v <> Decimal.Pos Decimal.Nil
                           /\ Z.to_int v <> Decimal.Neg Decimal.Nil).
  { intros [|p|p]; simpl; split; try discriminate;
      intros E; inversion E as [E']; apply (Unsigned.to_uint_nonnil _ E'). }
  apply DecimalZ.to_int_inj.
  assert (E : NilZero.int_of_string (NilZero.string_of_int (Z.to_int a))
              = NilZero.int_of_string (NilZero.string_of_int (Z.to_int b)))
    by (rewrite H; reflexivity).
  rewrite !NilZero.isi in E by apply Hnil. congruence.
Qed.

Lemma cat_Some (a b : option string) (o : string) :
  a +++ b = Some o -> exists x y, a = Some x /\ b = Some y /\ o = (x ++ y)%string.
Proof.
  destruct a as [x|], b as [y|]; simpl; try discriminate.
  intros [= <-]. eauto.
Qed.

Ltac split_cat :=
  repeat match goal with
         | H : _ +++ _ = Some _ |- _ =>
           apply cat_Some in H; destruct H as (? & ? & ? & ? & ->)
         | H : Some _ = Some _ |- _ => inv H
         end.

Lemma formatExpr_int (indent : string) (v : Z) :
  no_byte "%" indent = true ->
  formatExpr (LiteralInt v) indent = Some (indent ++ "Integer: " ++ FormatInt v)%string.
Proof.
  intros Hi. simpl.
  replace (indent ++ "Integer: %d")%string
    with ((indent ++ "Integer: ") ++ "%d" ++ EmptyString)%string
    by (rewrite append_assoc; reflexivity).
  rewrite Sprintf_d; [|rewrite no_byte_append, Hi; reflexivity | reflexivity].
  rewrite append_empty_r, append_assoc. reflexivity.
Qed.

Lemma deeper_indent (indent more : string) :
  no_byte "%" indent = true -> no_byte "%" more = true ->
  no_byte "%" (indent ++ more) = true.
Proof.
  intros H1 H2. rewrite no_byte_append, H1, H2. reflexivity.
Qed.

Lemma node_cut (l1 r1 : Expr) :
  (forall e2 indent o1 o2 s1 s2,
      no_byte "%" indent = true ->
      one_line_each l1 = true -> one_line_each e2 = true ->
      formatExpr l1 indent = Some o1 -> formatExpr e2 indent = Some o2 ->
      starts_line s1 -> starts_line s2 ->
      (o1 ++ s1 = o2 ++ s2)%string -> l1 = e2 /\ s1 = s2) ->
  (forall e2 indent o1 o2 s1 s2,
      no_byte "%" indent = true ->
      one_line_each r1 = true -> one_line_each e2 = true ->
      formatExpr r1 indent = Some o1 -> formatExpr e2 indent = Some o2 ->
      starts_line s1 -> starts_line s2 ->
      (o1 ++ s1 = o2 ++ s2)%string -> r1 = e2 /\ s1 = s2) ->
  forall op1 l2 op2 r2 indent a1 b1 a2 b2 s1 s2,
    no_byte "%" indent = true ->
    one_line op1 && one_line_each l1 && one_line_each r1 = true ->
    one_line op2 && one_line_each l2 && one_line_each r2 = true ->
    formatExpr l1 (indent ++ "  ") = Some a1 ->
    formatExpr r1 (indent ++ "  ") = Some b1 ->
    formatExpr l2 (indent ++ "  ") = Some a2 ->
    formatExpr r2 (indent ++ "  ") = Some b2 ->
    starts_line s1 -> starts_line s2 ->
    ((op1 ++ String "010" EmptyString) ++ a1 ++ String "010" (b1 ++ s1)
     = (op2 ++ String "010" EmptyString) ++ a2 ++ String "010" (b2 ++ s2))%string ->
    op1 = op2 /\ l1 = l2 /\ r1 = r2 /\ s1 = s2.
Proof.
  intros IHl IHr op1 l2 op2 r2 indent a1 b1 a2 b2 s1 s2 Hi H1 H2 Fl1 Fr1 Fl2 Fr2 T1 T2 E.
  apply andb_true_iff in H1. destruct H1 as [H1 Hr1].
  apply andb_true_iff in H1. destruct H1 as [Hop1 Hl1].
  apply andb_true_iff in H2. destruct H2 as [H2 Hr2].
  apply andb_true_iff in H2. destruct H2 as [Hop2 Hl2].
  rewrite !append_assoc in E. cbn [append] in E.
  destruct (cut _ _ _ _ _ Hop1 Hop2 E) as [-> E1].
  assert (Hdeep : no_byte "%" (indent ++ "  ") = true) by (apply deeper_indent; auto).
  destruct (IHl l2 _ _ _ (String "010" (b1 ++ s1)) (String "010" (b2 ++ s2))
                Hdeep Hl1 Hl2 Fl1 Fl2 eq_refl eq_refl E1) as [-> E2].
  inversion E2 as [E3].
  destruct (IHr r2 _ _ _ _ _ Hdeep Hr1 Hr2 Fr1 Fr2 T1 T2 E3) as [-> ->].
  auto.
Qed.

Lemma formatExpr_cut (e1 : Expr) :
  forall e2 indent o1 o2 s1 s2,
    no_byte "%" indent = true ->
    one_line_each e1 = true -> one_line_each e2 = true ->
    formatExpr e1 indent = Some o1 -> formatExpr e2 indent = Some o2 ->
    starts_line s1 -> starts_line s2 ->
    (o1 ++ s1 = o2 ++ s2)%string ->
    e1 = e2 /\ s1 = s2.
Proof.
  induction e1 as [n1|v1|v1|l1 IHl op1 r1 IHr|l1 IHl op1 r1 IHr|l1 IHl op1 r1 IHr];
    intros e2 indent o1 o2 s1 s2 Hi H1 H2 F1 F2 T1 T2 E;
    destruct e2 as [n2|v2|v2|l2 op2 r2|l2 op2 r2|l2 op2 r2];
    try rewrite (formatExpr_int _ _ Hi) in F1;
    try rewrite (formatExpr_int _ _ Hi) in F2;
    cbn [formatExpr] in F1, F2; split_cat; unfold nl in E;
    rewrite ?append_assoc in E; apply append_inv_head in E;
    cbn [append] in E; try discriminate E.
  all: inversion E as [E']; clear E; cbn [one_line_each] in H1, H2.
  - destruct (cut_line _ _ _ _ H1 H2 T1 T2 E') as [-> ->]. auto.
  - destruct (cut_line _ _ _ _ (FormatInt_one_line v1) (FormatInt_one_line v2) T1 T2 E')
      as [Hv ->].
    apply FormatInt_inj in Hv. subst. auto.
  - assert (Hq : forall v, one_line v = true -> one_line (v ++ "'") = true).
    { intros v Hv. unfold one_line. rewrite no_byte_append. fold (one_line v).
      rewrite Hv. reflexivity. }
    destruct (cut_line _ _ _ _ (Hq _ H1) (Hq _ H2) T1 T2 E') as [Hv ->].
    apply append_inv_tail_byte in Hv. subst. auto.
  - match goal with
    | Fl1 : formatExpr l1 _ = Some _, Fr1 : formatExpr r1 _ = Some _,
      Fl2 : formatExpr l2 _ = Some _, Fr2 : formatExpr r2 _ = Some _ |- _ =>
      destruct (node_cut l1 r1 IHl IHr _ _ _ _ _ _ _ _ _ _ _
                         Hi H1 H2 Fl1 Fr1 Fl2 Fr2 T1 T2 E') as (-> & -> & -> & ->)
    end; auto.
  - match goal with
    | Fl1 : formatExpr l1 _ = Some _, Fr1 : formatExpr r1 _ = Some _,
      Fl2 : formatExpr l2 _ = Some _, Fr2 : formatExpr r2 _ = Some _ |- _ =>
      destruct (node_cut l1 r1 IHl IHr _ _ _ _ _ _ _ _ _ _ _
                         Hi H1 H2 Fl1 Fr1 Fl2 Fr2 T1 T2 E') as (-> & -> & -> & ->)
    end; auto.
  - match goal with
    | Fl1 : formatExpr l1 _ = Some _, Fr1 : formatExpr r1 _ = Some _,
      Fl2 : formatExpr l2 _ = Some _, Fr2 : formatExpr r2 _ = Some _ |- _ =>
      destruct (node_cut l1 r1 IHl IHr _ _ _ _ _ _ _ _ _ _ _
                         Hi H1 H2 Fl1 Fr1 Fl2 Fr2 T1 T2 E') as (-> & -> & -> & ->)
    end; auto.
Qed.

(** X14.  The tree dump of an expression can be read back: two expressions
    whose names, operators and strings hold no line feed, printed by
    [formatExpr] at the same indentation (one without a percent sign, as
    [PrintAST] passes), give the same text only if they are equal. *)
Theorem formatExpr_injective (e1 e2 : Expr) (indent out : string) :
  no_byte "%" indent = true ->
  one_line_each e1 = true -> one_line_each e2 = true ->
  formatExpr e1 indent = Some out -> formatExpr e2 indent = Some out ->
  e1 = e2.
Proof.
  intros Hi H1 H2 F1 F2.
  apply (formatExpr_cut e1 e2 indent out out EmptyString EmptyString); simpl; auto.
Qed.


Lemma formatExpr_injective_witness :
  ComparisonOp (ColumnRef "a") "=" (LiteralInt 1)
  = ComparisonOp (ColumnRef "a") "=" (LiteralInt 1).
Proof.
  apply (formatExpr_injective
           _ _ "  " ("  Comparison: =" ++ nl ++ "    Column: a" ++ nl ++ "    Integer: 1"));
    reflexivity.
Defined.

(** X15.  A line feed in a name makes the tree dump ambiguous: the name is
    written as it is, so a name that holds the next line of the dump prints
    like two operands. *)
Theorem formatExpr_line_feed_ambiguous (a b c op indent : string) :
  formatExpr (ComparisonOp (ColumnRef (a ++ nl ++ indent ++ "  Column: " ++ b)) op
                           (ColumnRef c)) indent
  = formatExpr (ComparisonOp (ColumnRef a) op
                             (ColumnRef (b ++ nl ++ indent ++ "  Column: " ++ c))) indent
  /\ ColumnRef (a ++ nl ++ indent ++ "  Column: " ++ b) <> ColumnRef a.
Proof.
  split.
  - cbn [formatExpr cat]. f_equal. f_equal.
    rewrite !append_assoc. reflexivity.
  - intros [= E]. apply (f_equal String.length) in E.
    rewrite !length_append in E. simpl in E. lia.
Qed.

End Dump.

(** ** The dump of a statement list *)

Section DumpNodes.
Import GoString Lexer Strconv Parser Fmt Printer Dumps Shapes.

Ltac split_cat :=
  repeat match goal with
         | H : _ +++ _ = Some _ |- _ =>
           apply cat_Some in H; destruct H as (? & ? & ? & ? & ->)
         | H : Some _ = Some _ |- _ => inv H
         end.

Lemma indent_no_percent (i : string) : is_indent i = true -> no_byte "%" i = true.
Proof.
  unfold is_indent, no_byte. induction i as [|c i IH]; simpl; [reflexivity|].
  intros H. apply andb_true_iff in H. destruct H as [Hc H].
  apply Ascii.eqb_eq in Hc. subst c. rewrite (IH H). reflexivity.
Qed.

Lemma indent_clash (i x t : string) :
  is_indent i = true -> outdented t -> (i ++ String " " x)%string = t -> False.
Proof.
  unfold is_indent. intros Hi Ht E. subst t.
  destruct i as [|c i]; simpl in *; [congruence|].
  apply andb_true_iff in Hi. destruct Hi as [Hc _].
  apply Ascii.eqb_eq in Hc. congruence.
Qed.

Lemma formatExprInline_int (v : Z) :
  formatExprInline (LiteralInt v) = Some ("int:" ++ FormatInt v)%string.
Proof.
  cbn [formatExprInline].
  change "int:%d" with ("int:" ++ "%d" ++ EmptyString)%string.
  rewrite (Sprintf_d "int:" EmptyString v eq_refl eq_refl), append_empty_r. reflexivity.
Qed.

Lemma inline_leaf_injective (e1 e2 : Expr) :
  is_leaf e1 = true -> is_leaf e2 = true ->
  formatExprInline e1 = formatExprInline e2 -> e1 = e2.
Proof.
  intros H1 H2 E.
  destruct e1 as [n1|v1|v1| | |], e2 as [n2|v2|v2| | |]; try discriminate;
    rewrite ?formatExprInline_int in E; cbn [formatExprInline] in E;
    try discriminate E; inversion E as [E'].
  - reflexivity.
  - apply FormatInt_inj in E'. subst. reflexivity.
  - apply append_inv_tail_byte in E'. subst. reflexivity.
Qed.

(** X16.  The one-line form of a column reference or a literal determines
    it: two such values print the same with [formatExprInline] only if they
    are equal. *)
Theorem formatExprInline_leaf_injective (e1 e2 : Expr) :
  is_leaf e1 = true -> is_leaf e2 = true ->
  formatExprInline e1 = formatExprInline e2 -> e1 = e2.
Proof.
  apply inline_leaf_injective.
Qed.

Lemma formatExprInline_leaf_injective_witness :
  LiteralString "x" = LiteralString "x".
Proof.
  apply formatExprInline_leaf_injective; reflexivity.
Defined.

Lemma writeProjections_cut (ps1 : list ProjectionItem) :
  forall ps2 i r1 r2,
    forallb plain_item ps1 = true -> forallb plain_item ps2 = true ->
    (writeProjections i ps1 ++ i ++ "  FROM: " ++ r1
     = writeProjections i ps2 ++ i ++ "  FROM: " ++ r2)%string ->
    ps1 = ps2 /\ r1 = r2.
Proof.
  induction ps1 as [|[a1 c1] ps1 IH]; intros [|[a2 c2] ps2] i r1 r2 H1 H2 E;
    cbn [writeProjections All Column] in E.
  - cbn [append] in E. apply append_inv_head in E. cbn [append] in E.
    inversion E. auto.
  - destruct a2; rewrite !append_assoc in E; cbn [append] in E;
      apply append_inv_head in E; cbn [append] in E; discriminate E.
  - destruct a1; rewrite !append_assoc in E; cbn [append] in E;
      apply append_inv_head in E; cbn [append] in E; discriminate E.
  - cbn [forallb] in H1, H2.
    apply andb_true_iff in H1. destruct H1 as [Hp1 H1].
    apply andb_true_iff in H2. destruct H2 as [Hp2 H2].
    unfold plain_item in Hp1, Hp2. cbn [All Column] in Hp1, Hp2.
    destruct a1, a2; rewrite !append_assoc in E; apply append_inv_head in E;
      unfold nl in E; cbn [append] in E; inversion E as [E']; clear E.
    + apply String.eqb_eq in Hp1, Hp2. subst.
      destruct (IH _ _ _ _ H1 H2 E') as [-> ->]. auto.
    + apply andb_true_iff in Hp2. destruct Hp2 as [Hl2 Hs2].
      destruct (cut "010" "*" c2 _ _ eq_refl Hl2 E') as [<- _]. discriminate.
    + apply andb_true_iff in Hp1. destruct Hp1 as [Hl1 Hs1].
      destruct (cut "010" c1 "*" _ _ Hl1 eq_refl E') as [-> _]. discriminate.
    + apply andb_true_iff in Hp1. destruct Hp1 as [Hl1 Hs1].
      apply andb_true_iff in Hp2. destruct Hp2 as [Hl2 Hs2].
      destruct (cut "010" c1 c2 _ _ Hl1 Hl2 E') as [-> E2].
      destruct (IH _ _ _ _ H1 H2 E2) as [-> ->]. auto.
Qed.

Lemma Sprintf_limit (i : string) (l : Z) :
  is_indent i = true ->
  Sprintf (i ++ "  LIMIT: %d" ++ nl) l
  = Some (i ++ "  LIMIT: " ++ FormatInt l ++ nl)%string.
Proof.
  intros Hi.
  replace (i ++ "  LIMIT: %d" ++ nl)%string with ((i ++ "  LIMIT: ") ++ "%d" ++ nl)%string
    by (rewrite append_assoc; reflexivity).
  rewrite Sprintf_d, ?append_assoc; [reflexivity | | reflexivity].
  apply deeper_indent; [apply indent_no_percent; assumption | reflexivity].
Qed.

Lemma limit_cut (i : string) (lim1 lim2 : option Z) (l1 l2 t1 t2 : string) :
  is_indent i = true ->
  match lim1 with
  | Some l => Sprintf (i ++ "  LIMIT: %d" ++ nl) l
  | None => Some EmptyString
  end = Some l1 ->
  match lim2 with
  | Some l => Sprintf (i ++ "  LIMIT: %d" ++ nl) l
  | None => Some EmptyString
  end = Some l2 ->
  outdented t1 -> outdented t2 ->
  (l1 ++ t1 = l2 ++ t2)%string ->
  lim1 = lim2 /\ t1 = t2.
Proof.
  intros Hi F1 F2 T1 T2 E.
  destruct lim1 as [v1|], lim2 as [v2|]; cbn beta iota in F1, F2;
    rewrite ?Sprintf_limit in F1 by assumption;
    rewrite ?Sprintf_limit in F2 by assumption; inv F1; inv F2;
    rewrite ?append_assoc in E; cbn [append] in E.
  - apply append_inv_head in E. unfold nl in E. cbn [append] in E.
    inversion E as [E']. rewrite !append_assoc in E'. cbn [append] in E'.
    destruct (cut _ _ _ _ _ (FormatInt_one_line v1) (FormatInt_one_line v2) E') as [Hv ->].
    apply FormatInt_inj in Hv. subst. auto.
  - exfalso. exact (indent_clash _ _ _ Hi T2 E).
  - exfalso. symmetry in E. exact (indent_clash _ _ _ Hi T1 E).
  - auto.
Qed.

Lemma where_cut (i : string) (sel1 sel2 : option Expr) (w1 w2 r1 r2 : string) :
  is_indent i = true ->
  match sel1 with Some e => one_line_each e | None => true end = true ->
  match sel2 with Some e => one_line_each e | None => true end = true ->
  match sel1 with
  | Some e => Some (i ++ "  WHERE:" ++ nl)%string +++ (formatExpr e (i ++ "    ") +++ Some nl)
  | None => Some EmptyString
  end = Some w1 ->
  match sel2 with
  | Some e => Some (i ++ "  WHERE:" ++ nl)%string +++ (formatExpr e (i ++ "    ") +++ Some nl)
  | None => Some EmptyString
  end = Some w2 ->
  (outdented r1 \/ exists x, r1 = (i ++ "  LIMIT: " ++ x)%string) ->
  (outdented r2 \/ exists x, r2 = (i ++ "  LIMIT: " ++ x)%string) ->
  (w1 ++ r1 = w2 ++ r2)%string ->
  sel1 = sel2 /\ r1 = r2.
Proof.
  intros Hi H1 H2 F1 F2 T1 T2 E.
  assert (Hclash : forall x r, (outdented r \/ exists y, r = (i ++ "  LIMIT: " ++ y)%string) ->
                               (i ++ "  WHERE:" ++ x)%string = r -> False).
  { intros x r [Hr | [y ->]] Ex.
    - exact (indent_clash _ _ _ Hi Hr Ex).
    - apply append_inv_head in Ex. discriminate Ex. }
  destruct sel1 as [e1|], sel2 as [e2|]; cbn beta iota in F1, F2; split_cat;
    rewrite ?append_assoc in E; cbn [append] in E.
  - apply append_inv_head in E. unfold nl in E. cbn [append] in E.
    inversion E as [E'].
    assert (Hdeep : no_byte "%" (i ++ "    ") = true)
      by (apply deeper_indent; [apply indent_no_percent; assumption | reflexivity]).
    match goal with
    | Fa : formatExpr e1 _ = Some _, Fb : formatExpr e2 _ = Some _ |- _ =>
      destruct (formatExpr_cut e1 e2 _ _ _ (String "010" r1) (String "010" r2)
                               Hdeep H1 H2 Fa Fb eq_refl eq_refl E') as [-> E2]
    end.
    inversion E2. auto.
  - exfalso. exact (Hclash _ _ T2 E).
  - exfalso. symmetry in E. exact (Hclash _ _ T1 E).
  - auto.
Qed.

Lemma formatSelect_cut (ps1 ps2 : list ProjectionItem) (f1 f2 : TableRef)
      (sel1 sel2 : option Expr) (lim1 lim2 : option Z) (i o1 o2 t1 t2 : string) :
  is_indent i = true ->
  plain_node (SelectStmt ps1 f1 sel1 lim1) = true ->
  plain_node (SelectStmt ps2 f2 sel2 lim2) = true ->
  formatSelect ps1 f1 sel1 lim1 i = Some o1 ->
  formatSelect ps2 f2 sel2 lim2 i = Some o2 ->
  outdented t1 -> outdented t2 ->
  (o1 ++ t1 = o2 ++ t2)%string ->
  SelectStmt ps1 f1 sel1 lim1 = SelectStmt ps2 f2 sel2 lim2 /\ t1 = t2.
Proof.
  intros Hi H1 H2 F1 F2 T1 T2 E.
  cbn [plain_node] in H1, H2.
  apply andb_true_iff in H1. destruct H1 as [H1 Hs1].
  apply andb_true_iff in H1. destruct H1 as [Hp1 Hf1].
  apply andb_true_iff in H2. destruct H2 as [H2 Hs2].
  apply andb_true_iff in H2. destruct H2 as [Hp2 Hf2].
  unfold formatSelect in F1, F2.
  apply cat_Some in F1. destruct F1 as (? & ? & [= <-] & F1 & ->).
  apply cat_Some in F1. destruct F1 as (? & ? & [= <-] & F1 & ->).
  apply cat_Some in F1. destruct F1 as (? & ? & [= <-] & F1 & ->).
  apply cat_Some in F1. destruct F1 as (? & ? & [= <-] & F1 & ->).
  apply cat_Some in F1. destruct F1 as (w1 & l1 & W1 & L1 & ->).
  apply cat_Some in F2. destruct F2 as (? & ? & [= <-] & F2 & ->).
  apply cat_Some in F2. destruct F2 as (? & ? & [= <-] & F2 & ->).
  apply cat_Some in F2. destruct F2 as (? & ? & [= <-] & F2 & ->).
  apply cat_Some in F2. destruct F2 as (? & ? & [= <-] & F2 & ->).
  apply cat_Some in F2. destruct F2 as (w2 & l2 & W2 & L2 & ->).
  rewrite !append_assoc in E. apply append_inv_head in E.
  unfold nl in E. cbn [append] in E. inversion E as [E1]. clear E.
  apply append_inv_head in E1. cbn [append] in E1. inversion E1 as [E2]. clear E1.
  destruct (writeProjections_cut _ _ _ _ _ Hp1 Hp2 E2) as [-> E3].
  rewrite !append_assoc in E3. cbn [append] in E3.
  destruct (cut _ _ _ _ _ Hf1 Hf2 E3) as [Hname E4].
  assert (Hafter : forall lim l t,
             match lim with
             | Some v => Sprintf (i ++ "  LIMIT: %d" ++ nl) v
             | None => Some EmptyString
             end = Some l ->
             outdented t ->
             outdented (l ++ t) \/ exists x, (l ++ t)%string = (i ++ "  LIMIT: " ++ x)%string).
  { intros [v|] l t Hl Ht; cbn beta iota in Hl.
    - rewrite Sprintf_limit in Hl by assumption. inv Hl. right.
      rewrite !append_assoc. cbn [append]. eauto.
    - inv Hl. left. assumption. }
  destruct (where_cut _ _ _ _ _ _ _ Hi Hs1 Hs2 W1 W2
                      (Hafter _ _ _ L1 T1) (Hafter _ _ _ L2 T2) E4) as [-> E5].
  destruct (limit_cut _ _ _ _ _ _ _ Hi L1 L2 T1 T2 E5) as [-> ->].
  destruct f1, f2. simpl in Hname. subst. auto.
Qed.

Lemma one_line_append (a b : string) :
  one_line a = true -> one_line b = true -> one_line (a ++ b) = true.
Proof.
  unfold one_line. intros Ha Hb. rewrite no_byte_append, Ha, Hb. reflexivity.
Qed.

Lemma formatExprInline_value (v : Expr) (s : string) :
  plain_value v = true -> formatExprInline v = Some s -> one_line s = true.
Proof.
  intros Hv F. destruct v as [n|z|x| | |]; try discriminate;
    rewrite ?formatExprInline_int in F; cbn [formatExprInline plain_value] in *; inv F.
  - apply (one_line_append "col:" n); [reflexivity | assumption].
  - apply (one_line_append "int:" (FormatInt z)); [reflexivity | apply FormatInt_one_line].
  - apply (one_line_append "str:'" (x ++ "'")); [reflexivity|].
    apply one_line_append; [assumption | reflexivity].
Qed.

Lemma plain_value_leaf (v : Expr) : plain_value v = true -> is_leaf v = true.
Proof.
  destruct v; simpl; congruence.
Qed.

Lemma writeValues_cut (vs1 : list Expr) :
  forall vs2 i o1 o2 t1 t2,
    is_indent i = true ->
    forallb plain_value vs1 = true -> forallb plain_value vs2 = true ->
    writeValues i vs1 = Some o1 -> writeValues i vs2 = Some o2 ->
    outdented t1 -> outdented t2 ->
    (o1 ++ t1 = o2 ++ t2)%string ->
    vs1 = vs2 /\ t1 = t2.
Proof.
  induction vs1 as [|v1 vs1 IH]; intros [|v2 vs2] i o1 o2 t1 t2 Hi H1 H2 F1 F2 T1 T2 E;
    cbn [writeValues] in F1, F2; split_cat; rewrite ?append_assoc in E; cbn [append] in E.
  - auto.
  - exfalso. symmetry in E. repeat rewrite append_assoc in E. cbn [append] in E.
    exact (indent_clash _ _ _ Hi T1 E).
  - exfalso. repeat rewrite append_assoc in E. cbn [append] in E.
    exact (indent_clash _ _ _ Hi T2 E).
  - cbn [forallb] in H1, H2.
    apply andb_true_iff in H1. destruct H1 as [Hv1 H1].
    apply andb_true_iff in H2. destruct H2 as [Hv2 H2].
    repeat rewrite append_assoc in E. apply append_inv_head in E.
    unfold nl in E. cbn [append] in E. inversion E as [E1]. clear E.
    match goal with
    | Fa : formatExprInline v1 = Some ?a, Fb : formatExprInline v2 = Some ?b,
      Wa : writeValues i vs1 = Some _, Wb : writeValues i vs2 = Some _ |- _ =>
      destruct (cut _ _ _ _ _ (formatExprInline_value _ _ Hv1 Fa)
                    (formatExprInline_value _ _ Hv2 Fb) E1) as [Hs E2];
        subst; rewrite <- Fb in Fa;
        apply inline_leaf_injective in Fa; auto using plain_value_leaf;
        destruct (IH _ _ _ _ _ _ Hi H1 H2 Wa Wb T1 T2 E2) as [-> ->]
    end.
    subst. auto.
Qed.

Ltac flatten H := repeat rewrite append_assoc in H; unfold nl in H; cbn [append] in H.

Lemma formatInsert_cut (table1 table2 : string) (vs1 vs2 : list Expr)
      (i o1 o2 t1 t2 : string) :
  is_indent i = true ->
  plain_node (InsertStmt table1 vs1) = true ->
  plain_node (InsertStmt table2 vs2) = true ->
  formatInsert table1 vs1 i = Some o1 ->
  formatInsert table2 vs2 i = Some o2 ->
  outdented t1 -> outdented t2 ->
  (o1 ++ t1 = o2 ++ t2)%string ->
  InsertStmt table1 vs1 = InsertStmt table2 vs2 /\ t1 = t2.
Proof.
  intros Hi H1 H2 F1 F2 T1 T2 E.
  cbn [plain_node] in H1, H2.
  apply andb_true_iff in H1. destruct H1 as [Hn1 Hv1].
  apply andb_true_iff in H2. destruct H2 as [Hn2 Hv2].
  unfold formatInsert in F1, F2.
  apply cat_Some in F1. destruct F1 as (? & ? & [= <-] & F1 & ->).
  apply cat_Some in F1. destruct F1 as (? & ? & [= <-] & F1 & ->).
  apply cat_Some in F1. destruct F1 as (? & w1 & [= <-] & W1 & ->).
  apply cat_Some in F2. destruct F2 as (? & ? & [= <-] & F2 & ->).
  apply cat_Some in F2. destruct F2 as (? & ? & [= <-] & F2 & ->).
  apply cat_Some in F2. destruct F2 as (? & w2 & [= <-] & W2 & ->).
  repeat rewrite append_assoc in E. apply append_inv_head in E.
  unfold nl in E. cbn [append] in E. inversion E as [E1]. clear E.
  apply append_inv_head in E1. cbn [append] in E1. inversion E1 as [E2]. clear E1.
  flatten E2. destruct (cut _ _ _ _ _ Hn1 Hn2 E2) as [-> E3].
  apply append_inv_head in E3. cbn [append] in E3. inversion E3 as [E4]. clear E3.
  destruct (writeValues_cut _ _ _ _ _ _ _ Hi Hv1 Hv2 W1 W2 T1 T2 E4) as [-> ->].
  auto.
Qed.

Lemma writeColumns_cut (cs1 : list ColumnDef) :
  forall cs2 i t1 t2,
    is_indent i = true ->
    forallb plain_column cs1 = true -> forallb plain_column cs2 = true ->
    outdented t1 -> outdented t2 ->
    (writeColumns i cs1 ++ t1 = writeColumns i cs2 ++ t2)%string ->
    cs1 = cs2 /\ t1 = t2.
Proof.
  induction cs1 as [|[n1 y1] cs1 IH]; intros [|[n2 y2] cs2] i t1 t2 Hi H1 H2 T1 T2 E;
    cbn [writeColumns ColName ColType] in E.
  - auto.
  - exfalso. symmetry in E. repeat rewrite append_assoc in E. cbn [append] in E.
    exact (indent_clash _ _ _ Hi T1 E).
  - exfalso. repeat rewrite append_assoc in E. cbn [append] in E.
    exact (indent_clash _ _ _ Hi T2 E).
  - cbn [forallb] in H1, H2.
    apply andb_true_iff in H1. destruct H1 as [Hc1 H1].
    apply andb_true_iff in H2. destruct H2 as [Hc2 H2].
    unfold plain_column in Hc1, Hc2. cbn [ColName ColType] in Hc1, Hc2.
    apply andb_true_iff in Hc1. destruct Hc1 as [Hc1 Hy1].
    apply andb_true_iff in Hc1. destruct Hc1 as [Hs1 Hl1].
    apply andb_true_iff in Hc2. destruct Hc2 as [Hc2 Hy2].
    apply andb_true_iff in Hc2. destruct Hc2 as [Hs2 Hl2].
    repeat rewrite append_assoc in E. apply append_inv_head in E.
    unfold nl in E. cbn [append] in E. inversion E as [E1]. clear E.
    flatten E1. destruct (cut _ _ _ _ _ Hs1 Hs2 E1) as [-> E2].
    flatten E2. destruct (cut _ _ _ _ _ Hy1 Hy2 E2) as [-> E3].
    destruct (IH _ _ _ _ Hi H1 H2 T1 T2 E3) as [-> ->]. auto.
Qed.

Lemma formatCreateTable_cut (table1 table2 : string) (cs1 cs2 : list ColumnDef)
      (i o1 o2 t1 t2 : string) :
  is_indent i = true ->
  plain_node (CreateTableStmt table1 cs1) = true ->
  plain_node (CreateTableStmt table2 cs2) = true ->
  formatCreateTable table1 cs1 i = Some o1 ->
  formatCreateTable table2 cs2 i = Some o2 ->
  outdented t1 -> outdented t2 ->
  (o1 ++ t1 = o2 ++ t2)%string ->
  CreateTableStmt table1 cs1 = CreateTableStmt table2 cs2 /\ t1 = t2.
Proof.
  intros Hi H1 H2 F1 F2 T1 T2 E.
  cbn [plain_node] in H1, H2.
  apply andb_true_iff in H1. destruct H1 as [Hn1 Hc1].
  apply andb_true_iff in H2. destruct H2 as [Hn2 Hc2].
  unfold formatCreateTable in F1, F2. cbn [cat] in F1, F2. inv F1. inv F2.
  repeat rewrite append_assoc in E. apply append_inv_head in E.
  unfold nl in E. cbn [append] in E. inversion E as [E1]. clear E.
  flatten E1. destruct (cut _ _ _ _ _ Hn1 Hn2 E1) as [-> E2].
  apply append_inv_head in E2. cbn [append] in E2. inversion E2 as [E3]. clear E2.
  destruct (writeColumns_cut _ _ _ _ _ Hi Hc1 Hc2 T1 T2 E3) as [-> ->].
  auto.
Qed.

Lemma formatNode_cut (n1 n2 : AstNode) (o1 o2 t1 t2 : string) :
  plain_node n1 = true -> plain_node n2 = true ->
  formatNode n1 = Some o1 -> formatNode n2 = Some o2 ->
  outdented t1 -> outdented t2 ->
  (o1 ++ t1 = o2 ++ t2)%string ->
  n1 = n2 /\ t1 = t2.
Proof.
  intros H1 H2 F1 F2 T1 T2 E.
  destruct n1 as [ps1 f1 sel1 lim1|table1 vs1|table1 cs1],
           n2 as [ps2 f2 sel2 lim2|table2 vs2|table2 cs2];
    cbn [formatNode] in F1, F2.
  1: exact (formatSelect_cut _ _ _ _ _ _ _ _ "  " _ _ _ _ eq_refl H1 H2 F1 F2 T1 T2 E).
  4: exact (formatInsert_cut _ _ _ _ "  " _ _ _ _ eq_refl H1 H2 F1 F2 T1 T2 E).
  7: exact (formatCreateTable_cut _ _ _ _ "  " _ _ _ _ eq_refl H1 H2 F1 F2 T1 T2 E).
  all: exfalso; unfold formatSelect, formatInsert, formatCreateTable in F1, F2;
    repeat match goal with
           | H : Some _ +++ _ = Some _ |- _ =>
             apply cat_Some in H; destruct H as (? & ? & [= <-] & ? & ->)
           end;
    repeat rewrite append_assoc in E; cbn [append] in E; discriminate E.
Qed.

Lemma Sprintf_node (k : Z) :
  Sprintf ("Node %d:" ++ nl) k = Some ("Node " ++ FormatInt k ++ ":" ++ nl)%string.
Proof.
  change ("Node %d:" ++ nl)%string with ("Node " ++ "%d" ++ ":" ++ nl)%string.
  apply Sprintf_d; reflexivity.
Qed.

Lemma PrintAST_loop_outdented (k : nat) (ns : list AstNode) (o : string) :
  PrintAST_loop k ns = Some o -> outdented o.
Proof.
  destruct ns as [|n ns]; cbn [PrintAST_loop]; intros F.
  - inv F. exact I.
  - rewrite Sprintf_node in F. split_cat. unfold outdented. cbn [append].
    intros H. discriminate H.
Qed.

Lemma PrintAST_loop_injective (ns1 : list AstNode) :
  forall ns2 k out,
    forallb plain_node ns1 = true -> forallb plain_node ns2 = true ->
    PrintAST_loop k ns1 = Some out -> PrintAST_loop k ns2 = Some out ->
    ns1 = ns2.
Proof.
  induction ns1 as [|n1 ns1 IH]; intros [|n2 ns2] k out H1 H2 F1 F2;
    cbn [PrintAST_loop] in F1, F2; rewrite ?Sprintf_node in F1, F2.
  - reflexivity.
  - inv F1. apply cat_Some in F2. destruct F2 as (x & y & [= <-] & _ & E).
    discriminate E.
  - inv F2. apply cat_Some in F1. destruct F1 as (x & y & [= <-] & _ & E).
    discriminate E.
  - cbn [forallb] in H1, H2.
    apply andb_true_iff in H1. destruct H1 as [Hn1 H1].
    apply andb_true_iff in H2. destruct H2 as [Hn2 H2].
    apply cat_Some in F1. destruct F1 as (? & ? & [= <-] & F1 & ->).
    apply cat_Some in F1. destruct F1 as (a1 & b1 & A1 & B1 & ->).
    apply cat_Some in F2. destruct F2 as (? & ? & [= <-] & F2 & E).
    apply cat_Some in F2. destruct F2 as (a2 & b2 & A2 & B2 & ->).
    apply append_inv_head in E.
    destruct (formatNode_cut _ _ _ _ _ _ Hn1 Hn2 A1 A2
                             (PrintAST_loop_outdented _ _ _ B1)
                             (PrintAST_loop_outdented _ _ _ B2) E) as [-> Eb].
    subst b2. rewrite (IH _ _ _ H1 H2 B1 B2). reflexivity.
Qed.

Lemma formatExpr_defined (e : Expr) :
  forall indent, no_byte "%" indent = true -> exists out, formatExpr e indent = Some out.
Proof.
  induction e as [n|v|v|l IHl op r IHr|l IHl op r IHr|l IHl op r IHr]; intros indent Hi;
    try (rewrite formatExpr_int by assumption); cbn [formatExpr]; eauto;
    destruct (IHl (indent ++ "  ")%string) as [a ->]; try (apply deeper_indent; auto);
    destruct (IHr (indent ++ "  ")%string) as [b ->]; try (apply deeper_indent; auto);
    cbn [cat]; eauto.
Qed.

Lemma formatExprInline_defined (e : Expr) : exists out, formatExprInline e = Some out.
Proof.
  induction e as [n|v|v|l [a IHl] op r [b IHr]|l [a IHl] op r [b IHr]|l [a IHl] op r [b IHr]];
    try rewrite formatExprInline_int; cbn [formatExprInline]; eauto;
    rewrite IHl, IHr; cbn [cat]; eauto.
Qed.

Lemma writeValues_defined (indent : string) (vs : list Expr) :
  exists out, writeValues indent vs = Some out.
Proof.
  induction vs as [|v vs [o IH]]; cbn [writeValues]; eauto.
  destruct (formatExprInline_defined v) as [a ->]. rewrite IH. cbn [cat]. eauto.
Qed.

Lemma formatNode_defined (n : AstNode) : exists out, formatNode n = Some out.
Proof.
  destruct n as [ps f sel lim|table vs|table cs]; cbn [formatNode].
  - unfold formatSelect.
    assert (Hw : exists w,
               match sel with
               | Some e =>
                 Some ("  " ++ "  WHERE:" ++ nl)%string
                 +++ (formatExpr e ("  " ++ "    ") +++ Some nl)
               | None => Some EmptyString
               end = Some w).
    { destruct sel as [e|]; eauto.
      destruct (formatExpr_defined e ("  " ++ "    ")%string eq_refl) as [a ->].
      cbn [cat]. eauto. }
    destruct Hw as [w ->].
    destruct lim as [l|]; [rewrite (Sprintf_limit "  " l eq_refl)|]; cbn [cat]; eauto.
  - unfold formatInsert. destruct (writeValues_defined "  " vs) as [w ->]. cbn [cat]. eauto.
  - unfold formatCreateTable. cbn [cat]. eauto.
Qed.


Lemma PrintAST_loop_defined (nodes : list AstNode) :
  forall k, exists out, PrintAST_loop k nodes = Some out.
Proof.
  induction nodes as [|n nodes IH]; intros k; cbn [PrintAST_loop]; eauto.
  rewrite Sprintf_node. destruct (formatNode_defined n) as [a ->].
  destruct (IH (S k)) as [b ->]. cbn [cat]. eauto.
Qed.

(** X17.  The dump of a statement list can be read back.  Statements as the
    parser builds them (a projection [*] carries no name and no column is
    named [*], INSERT values are column references and literals, a column
    name holds no space) whose names, operators and strings hold no line
    feed print the same with [PrintAST] only if the lists are equal. *)
Theorem PrintAST_injective (nodes1 nodes2 : list AstNode) (out : string) :
  forallb plain_node nodes1 = true -> forallb plain_node nodes2 = true ->
  PrintAST nodes1 = Some out -> PrintAST nodes2 = Some out ->
  nodes1 = nodes2.
Proof.
  unfold PrintAST. apply PrintAST_loop_injective.
Qed.

Lemma PrintAST_injective_witness :
  [SelectStmt [mkProjectionItem false "a"] (mkTableRef "t")
              (Some (ComparisonOp (ColumnRef "a") ">" (LiteralInt 1))) (Some 5%Z);
   InsertStmt "t" [LiteralInt 1; LiteralString "x y"];
   CreateTableStmt "u" [mkColumnDef "id" "INT"]]
  = [SelectStmt [mkProjectionItem false "a"] (mkTableRef "t")
                (Some (ComparisonOp (ColumnRef "a") ">" (LiteralInt 1))) (Some 5%Z);
     InsertStmt "t" [LiteralInt 1; LiteralString "x y"];
     CreateTableStmt "u" [mkColumnDef "id" "INT"]].
Proof.
  eapply PrintAST_injective; [reflexivity | reflexivity | vm_compute; reflexivity |
                              vm_compute; reflexivity].
Defined.

(** X18.  [PrintAST] keeps the tree's text out of format strings: every
    format it hands to [Sprintf] is fixed text after an indentation of
    spaces, with one [%d] for an integer.  So the dump of any list of nodes
    is within the described part of [Sprintf], whatever bytes (percent signs
    included) the names, operators and strings hold. *)
Theorem PrintAST_defined (nodes : list AstNode) : exists out, PrintAST nodes = Some out.
Proof.
  apply PrintAST_loop_defined.
Qed.

End DumpNodes.

(** ** What the parser builds can be dumped and read back *)

Section Plain.
Import GoString Lexer Strconv Parser Fmt Printer Dumps Shapes Lexemes.

Lemma dumpable_line (t : Token) : dumpable t = true -> one_line (Value t) = true.
Proof.
  unfold dumpable. intros H. apply andb_true_iff in H. tauto.
Qed.

Lemma dumpable_ident (t : Token) :
  dumpable t = true -> hasType t TokenIdentifier = true ->
  no_byte " " (Value t) = true /\ String.eqb (Value t) "*" = false.
Proof.
  unfold dumpable. intros H Ht. apply hasType_eq in Ht. rewrite Ht in H.
  apply andb_true_iff in H. destruct H as [_ H].
  apply andb_true_iff in H. destruct H as [H1 H2].
  apply negb_true_iff in H2. auto.
Qed.

Lemma dumpable_next (p : parser) :
  forallb dumpable p = true -> forallb dumpable (snd (next p)) = true.
Proof.
  destruct p as [|t p]; simpl; [auto|]. intros H. apply andb_true_iff in H. tauto.
Qed.

Lemma dumpable_peek (p : parser) (t : Token) :
  forallb dumpable p = true -> peek p = Some t -> dumpable t = true.
Proof.
  destruct p as [|t' p]; simpl; [discriminate|]. intros H [= <-].
  apply andb_true_iff in H. tauto.
Qed.

Lemma dumpable_expectKeyword (name : string) (p p' : parser) (e : option error) :
  forallb dumpable p = true -> expectKeyword name p = (e, p') ->
  forallb dumpable p' = true.
Proof.
  unfold expectKeyword, consumeKeyword. intros Hd H.
  destruct (peek p) as [t|] eqn:Hp.
  - destruct (isKeyword t name).
    + inv H. apply dumpable_next. assumption.
    + rewrite Hp in H. inv H. assumption.
  - rewrite Hp in H. inv H. assumption.
Qed.

Lemma parseComparison_plain (p p' : parser) (e : Expr) :
  forallb dumpable p = true -> parseComparison p = Ok e p' ->
  one_line_each e = true /\ forallb dumpable p' = true.
Proof.
  unfold parseComparison.
  destruct p as [|t [|o [|r p]]]; cbn [peek next snd fst hd_error forallb]; intros Hd H;
    repeat break_match_hyp; try discriminate.
  all: apply andb_true_iff in Hd; destruct Hd as [Ht Hd];
    apply andb_true_iff in Hd; destruct Hd as [Ho Hd];
    apply andb_true_iff in Hd; destruct Hd as [Hr Hd];
    apply dumpable_line in Ht, Ho, Hr; inv H; cbn [one_line_each];
    rewrite ?Ht, ?Ho, ?Hr; auto.
Qed.

Lemma connective_line (t : Token) :
  isKeyword t "AND" || isKeyword t "OR" = true -> one_line (ToUpper (Value t)) = true.
Proof.
  intros H. apply connective_upper in H. apply orb_true_iff in H.
  destruct H as [H | H]; apply String.eqb_eq in H; rewrite H; reflexivity.
Qed.

Lemma parseLogical_loop_plain (fuel : nat) :
  forall left p e p',
    one_line_each left = true -> forallb dumpable p = true ->
    parseLogical_loop fuel left p = Some (Ok e p') ->
    one_line_each e = true /\ forallb dumpable p' = true.
Proof.
  induction fuel as [|fuel IH]; intros left p e p' Hl Hd H.
  - simpl in H. destruct (peek p) as [t|]; [|inv H; auto].
    destruct (isKeyword t "AND" || isKeyword t "OR"); [discriminate | inv H; auto].
  - simpl in H. destruct (peek p) as [t|]; [|inv H; auto].
    destruct (isKeyword t "AND" || isKeyword t "OR") eqn:Hk; [|inv H; auto].
    destruct (parseComparison (snd (next p))) as [rhs p1|e1] eqn:Hcmp; [|discriminate].
    apply parseComparison_plain in Hcmp; [|apply dumpable_next; assumption].
    destruct Hcmp as [Hc Hd1].
    apply IH in H; [assumption| |assumption].
    cbn [one_line_each]. rewrite Hl, Hc, (connective_line _ Hk). reflexivity.
Qed.

Lemma parseLogical_plain (p p' : parser) (e : Expr) :
  forallb dumpable p = true -> parseLogical p = Some (Ok e p') ->
  one_line_each e = true /\ forallb dumpable p' = true.
Proof.
  unfold parseLogical. intros Hd.
  destruct (parseComparison p) as [lhs p1|e1] eqn:Hcmp; [|discriminate].
  apply parseComparison_plain in Hcmp; [|assumption]. destruct Hcmp as [Hc Hd1].
  apply parseLogical_loop_plain; assumption.
Qed.

Ltac split_dumpable H :=
  cbn [forallb] in H;
  repeat match type of H with
         | _ && _ = true =>
           let Ht := fresh "Ht" in
           apply andb_true_iff in H; destruct H as [Ht H]
         end.

Lemma parseProjections_plain (n : nat) :
  forall p proj proj' p',
    List.length p <= n ->
    forallb dumpable p = true -> forallb plain_item proj = true ->
    parseProjections p proj = Ok proj' p' ->
    forallb plain_item proj' = true /\ forallb dumpable p' = true.
Proof.
  induction n as [|n IH]; intros p proj proj' p' Hn Hd Hproj H.
  - destruct p; [discriminate | simpl in Hn; lia].
  - destruct p as [|t p1]; [discriminate|]. rewrite parseProjections_step in H.
    simpl in Hn. cbn [forallb] in Hd.
    apply andb_true_iff in Hd. destruct Hd as [Ht Hd].
    destruct (hasType t TokenIdentifier) eqn:Hid; simpl in H; [|discriminate].
    assert (Hone : forallb plain_item (proj ++ [mkProjectionItem false (Value t)]) = true).
    { rewrite forallb_app, Hproj. simpl. unfold plain_item. simpl.
      destruct (dumpable_ident _ Ht Hid) as [_ ->].
      rewrite (dumpable_line _ Ht). reflexivity. }
    destruct p1 as [|c p2]; [inv H; auto|].
    destruct (isSep c ","); [|inv H; auto].
    cbn [forallb] in Hd. apply andb_true_iff in Hd. destruct Hd as [_ Hd].
    apply IH in H; auto. simpl in Hn. lia.
Qed.

Lemma parseValues_plain (p : parser) :
  forall vals hasValues vals' p',
    forallb dumpable p = true -> forallb plain_value vals = true ->
    parseValues p vals hasValues = Ok vals' p' ->
    forallb plain_value vals' = true /\ forallb dumpable p' = true.
Proof.
  induction p as [p IH] using (induction_ltof1 _ (@List.length Token)).
  unfold ltof in IH.
  intros vals hasValues vals' p' Hd Hvals H.
  destruct p as [|t p1]; [discriminate|]. cbn [parseValues] in H.
  destruct (isSep t ")").
  { destruct hasValues; simpl in H; [|discriminate]. inv H. auto. }
  cbn [forallb] in Hd. apply andb_true_iff in Hd. destruct Hd as [Ht Hd].
  match type of H with
  | match ?v with inl _ => _ | inr _ => _ end = _ => destruct v as [val|e] eqn:Hval; [|discriminate]
  end.
  assert (Hleaf : plain_value val = true).
  { destruct (hasType t TokenNumber).
    - destruct (ParseUint _) as [u|e] eqn:Hu; [|discriminate]. inv Hval. reflexivity.
    - destruct (hasType t TokenString); [inv Hval; apply dumpable_line; assumption|].
      destruct (hasType t TokenIdentifier); [|discriminate].
      inv Hval. apply dumpable_line. assumption. }
  clear Hval.
  assert (Hone : forallb plain_value (vals ++ [val]) = true).
  { rewrite forallb_app, Hvals. simpl. rewrite Hleaf. reflexivity. }
  destruct p1 as [|c p2]; [inv H; auto|].
  destruct (isSep c ","); [|inv H; auto].
  cbn [forallb] in Hd. apply andb_true_iff in Hd. destruct Hd as [_ Hd].
  apply IH in H; auto. simpl. lia.
Qed.

Lemma skipColumnList_plain (p : parser) :
  forall u p',
    forallb dumpable p = true -> skipColumnList p = Ok u p' ->
    forallb dumpable p' = true.
Proof.
  induction p as [p IH] using (induction_ltof1 _ (@List.length Token)).
  unfold ltof in IH. intros u p' Hd H.
  destruct p as [|t p1]; [discriminate|]. rewrite skipColumnList_step in H.
  cbn [forallb] in Hd. apply andb_true_iff in Hd. destruct Hd as [Ht Hd].
  destruct (isSep t ")"); [inv H; assumption|].
  destruct p1 as [|c p2]; [discriminate|].
  destruct (isSep c ",").
  - cbn [forallb] in Hd. apply andb_true_iff in Hd. destruct Hd as [_ Hd].
    apply IH in H; auto. simpl. lia.
  - apply IH in H; auto.
Qed.

Lemma parseColumns_plain (n : nat) :
  forall p cols hc cols' p',
    List.length p <= n ->
    forallb dumpable p = true -> forallb plain_column cols = true ->
    parseColumns p cols hc = Ok cols' p' ->
    forallb plain_column cols' = true /\ forallb dumpable p' = true.
Proof.
  induction n as [|n IH]; intros p cols hc cols' p' Hn Hd Hcols H.
  - destruct p; [discriminate | simpl in Hn; lia].
  - destruct p as [|t p1]; [discriminate|]. rewrite parseColumns_step in H.
    simpl in Hn. cbn [forallb] in Hd.
    apply andb_true_iff in Hd. destruct Hd as [Ht Hd].
    destruct (isSep t ")").
    { destruct hc; simpl in H; [|discriminate]. inv H. auto. }
    destruct (hasType t TokenIdentifier) eqn:Hname; simpl in H; [|discriminate].
    destruct p1 as [|ty p2]; [discriminate|].
    destruct (hasType ty TokenIdentifier) eqn:Htype; simpl in H; [|discriminate].
    cbn [forallb] in Hd. apply andb_true_iff in Hd. destruct Hd as [Hty Hd].
    assert (Hone : forallb plain_column (cols ++ [mkColumnDef (Value t) (Value ty)]) = true).
    { rewrite forallb_app, Hcols. simpl. unfold plain_column. simpl.
      destruct (dumpable_ident _ Ht Hname) as [-> _].
      rewrite (dumpable_line _ Ht), (dumpable_line _ Hty). reflexivity. }
    destruct p2 as [|c p3]; [apply IH in H; auto; simpl in *; lia|].
    destruct (isSep c ",").
    + cbn [forallb] in Hd. apply andb_true_iff in Hd. destruct Hd as [_ Hd].
      apply IH in H; auto. simpl in *. lia.
    + apply IH in H; auto. simpl in *. lia.
Qed.

Lemma parseSelect_plain (p p' : parser) (node : AstNode) :
  forallb dumpable p = true -> parseSelect p = Some (Ok node p') ->
  plain_node node = true /\ forallb dumpable p' = true.
Proof.
  unfold parseSelect. intros Hd H.
  destruct p as [|s p]; cbn [peek next snd fst hd_error] in H; [discriminate|].
  cbn [forallb] in Hd. apply andb_true_iff in Hd. destruct Hd as [_ Hd].
  destruct p as [|t p1]; cbn [peek next snd fst hd_error] in H; [discriminate|].
  set (rproj := if isSep t "*" then _ else _) in H.
  assert (Hproj : forall proj p2, rproj = Ok proj p2 ->
                  forallb plain_item proj = true /\ forallb dumpable p2 = true).
  { subst rproj. intros proj p2 Hp. destruct (isSep t "*").
    - inv Hp. split; [reflexivity|].
      cbn [forallb] in Hd. apply andb_true_iff in Hd. tauto.
    - apply (parseProjections_plain _ _ [] _ _ (le_n _) Hd eq_refl) in Hp. assumption. }
  destruct rproj as [proj p2|e]; [|discriminate].
  destruct (Hproj _ _ eq_refl) as [Hitems Hd2]. clear Hproj.
  destruct (expectKeyword "FROM" p2) as [[e|] p3] eqn:Hfrom; [discriminate|].
  apply dumpable_expectKeyword in Hfrom; [|assumption].
  destruct p3 as [|tn p4]; cbn [peek next snd fst hd_error] in H; [discriminate|].
  cbn [forallb] in Hfrom. apply andb_true_iff in Hfrom. destruct Hfrom as [Htn Hd4].
  destruct (negb (hasType tn TokenIdentifier)); [discriminate|].
  set (rsel := if peekIsKeyword p4 "WHERE" then _ else _) in H.
  assert (Hsel : forall sel p5, rsel = Some (Ok sel p5) ->
                 match sel with Some e => one_line_each e | None => true end = true
                 /\ forallb dumpable p5 = true).
  { subst rsel. intros sel p5 Hs. destruct (peekIsKeyword p4 "WHERE"); [|inv Hs; auto].
    destruct (parseLogical (snd (next p4))) as [[expr p6|e]|] eqn:Hlog; try discriminate.
    inv Hs. apply parseLogical_plain in Hlog; [assumption|].
    apply dumpable_next. assumption. }
  destruct rsel as [[sel p5|e]|]; try discriminate.
  destruct (Hsel _ _ eq_refl) as [Hwhere Hd5]. clear Hsel.
  assert (Hnode : forall lim,
             plain_node (SelectStmt proj (mkTableRef (Value tn)) sel lim) = true).
  { intros lim. cbn [plain_node Name].
    rewrite Hitems, (dumpable_line _ Htn), Hwhere. reflexivity. }
  destruct (peekIsKeyword p5 "LIMIT").
  - destruct (peek (snd (next p5))) as [n|]; [|discriminate].
    destruct (negb (hasType n TokenNumber)); [discriminate|].
    destruct (ParseUint (Value n)) as [u|e] eqn:Hu; [|discriminate].
    inv H. split; [apply Hnode|]. apply dumpable_next, dumpable_next. assumption.
  - inv H. split; [apply Hnode | assumption].
Qed.

Lemma parseInsert_plain (p p' : parser) (node : AstNode) :
  forallb dumpable p = true -> parseInsert p = Ok node p' ->
  plain_node node = true /\ forallb dumpable p' = true.
Proof.
  unfold parseInsert. intros Hd H.
  destruct (expectKeyword "INTO" (snd (next p))) as [[e|] p1] eqn:Hinto; [discriminate|].
  apply dumpable_expectKeyword in Hinto; [|apply dumpable_next; assumption].
  destruct (peek p1) as [tn|] eqn:Htn; [|discriminate].
  apply (dumpable_peek _ _ Hinto) in Htn.
  destruct (negb (hasType tn TokenIdentifier)); [discriminate|].
  destruct (if peekIsSep (snd (next p1)) "(" then _ else _) as [u p3|e] eqn:Hskip;
    [|discriminate].
  assert (Hd3 : forallb dumpable p3 = true).
  { destruct (peekIsSep (snd (next p1)) "(").
    - apply skipColumnList_plain in Hskip; [assumption|].
      apply dumpable_next, dumpable_next. assumption.
    - inv Hskip. apply dumpable_next. assumption. }
  destruct (expectKeyword "VALUES" p3) as [[e|] p4] eqn:Hvalues; [discriminate|].
  apply dumpable_expectKeyword in Hvalues; [|assumption].
  destruct (negb (peekIsSep p4 "(")); [discriminate|].
  destruct (parseValues (snd (next p4)) [] false) as [vals p5|e] eqn:Hvals; [|discriminate].
  destruct (negb (peekIsSep p5 ")")); [discriminate|]. inv H.
  apply parseValues_plain in Hvals; [|apply dumpable_next; assumption | reflexivity].
  destruct Hvals as [Hv Hd5]. split; [|apply dumpable_next; assumption].
  cbn [plain_node]. rewrite (dumpable_line _ Htn), Hv. reflexivity.
Qed.

Lemma parseCreateTable_plain (p p' : parser) (node : AstNode) :
  forallb dumpable p = true -> parseCreateTable p = Ok node p' ->
  plain_node node = true /\ forallb dumpable p' = true.
Proof.
  unfold parseCreateTable. intros Hd H.
  destruct (expectKeyword "TABLE" (snd (next p))) as [[e|] p1] eqn:Htable; [discriminate|].
  apply dumpable_expectKeyword in Htable; [|apply dumpable_next; assumption].
  destruct (peek p1) as [tn|] eqn:Htn; [|discriminate].
  apply (dumpable_peek _ _ Htable) in Htn.
  destruct (negb (hasType tn TokenIdentifier)); [discriminate|].
  destruct (negb (peekIsSep (snd (next p1)) "(")); [discriminate|].
  destruct (parseColumns _ [] false) as [cols p3|e] eqn:Hcols; [|discriminate].
  inv H. apply (parseColumns_plain _ _ _ _ _ _ (le_n _)) in Hcols;
    [|apply dumpable_next, dumpable_next; assumption | reflexivity].
  destruct Hcols as [Hc Hd3]. split; [|assumption].
  cbn [plain_node]. rewrite (dumpable_line _ Htn), Hc. reflexivity.
Qed.

Lemma parseStatement_plain (p p' : parser) (node : AstNode) :
  forallb dumpable p = true -> parseStatement p = Some (Ok node p') ->
  plain_node node = true /\ forallb dumpable p' = true.
Proof.
  unfold parseStatement. intros Hd. destruct (peek p) as [t|]; [|discriminate].
  destruct (hasType t TokenKeyword); [|discriminate].
  destruct (String.eqb (ToUpper (Value t)) "SELECT"); [apply parseSelect_plain; assumption|].
  destruct (String.eqb (ToUpper (Value t)) "INSERT");
    [intros H; inv H; eapply parseInsert_plain; eassumption|].
  destruct (String.eqb (ToUpper (Value t)) "CREATE"); [|discriminate].
  intros H. inv H. eapply parseCreateTable_plain; eassumption.
Qed.

Lemma parseStatements_loop_plain (fuel : nat) :
  forall p out nodes err,
    forallb dumpable p = true -> forallb plain_node out = true ->
    parseStatements_loop fuel p out = Some (nodes, err) ->
    forallb plain_node nodes = true.
Proof.
  induction fuel as [|fuel IH]; intros p out nodes err Hd Hout H; [discriminate|].
  cbn [parseStatements_loop] in H.
  destruct (peek p) as [t|]; [|inv H; assumption].
  destruct (isSep t ";"); [eapply IH; [| |exact H]; [apply dumpable_next|]; assumption|].
  destruct (parseStatement p) as [[node p1|e]|] eqn:Hst; try discriminate; [|inv H; reflexivity].
  apply parseStatement_plain in Hst; [|assumption]. destruct Hst as [Hnode Hd1].
  eapply IH; [| |exact H].
  - destruct (peekIsSep p1 ";"); [apply dumpable_next|]; assumption.
  - rewrite forallb_app, Hout. simpl. rewrite Hnode. reflexivity.
Qed.

(** X19.  Tokens on one line give statements that can be read back from
    their dump: when no token value holds a line feed, and no Identifier
    holds a space or is the text [*], every statement [parseStatements]
    returns has names, operators and strings on one line, a [*] projection
    without a name, no column named [*], only column references and literals
    as INSERT values, and column names without a space. *)
Theorem parsed_nodes_plain (p : parser) (nodes : list AstNode) (err : option error) :
  forallb dumpable p = true ->
  parseStatements p = Some (nodes, err) ->
  forallb plain_node nodes = true.
Proof.
  intros Hd. apply parseStatements_loop_plain; [assumption | reflexivity].
Qed.

Lemma parsed_nodes_plain_witness :
  forallb plain_node
    [InsertStmt "t" [LiteralInt 1; LiteralString "x y"; ColumnRef "c"];
     CreateTableStmt "u" [mkColumnDef "id" "INT"]]
  = true.
Proof.
  exact (parsed_nodes_plain
           [mkToken TokenKeyword "INSERT"; mkToken TokenKeyword "INTO";
            mkToken TokenIdentifier "t"; mkToken TokenKeyword "VALUES";
            mkToken TokenSeparator "("; mkToken TokenNumber "1";
            mkToken TokenSeparator ","; mkToken TokenString "x y";
            mkToken TokenSeparator ","; mkToken TokenIdentifier "c";
            mkToken TokenSeparator ")"; mkToken TokenSeparator ";";
            mkToken TokenKeyword "CREATE"; mkToken TokenKeyword "TABLE";
            mkToken TokenIdentifier "u"; mkToken TokenSeparator "(";
            mkToken TokenIdentifier "id"; mkToken TokenIdentifier "INT";
            mkToken TokenSeparator ")"]
           _ None eq_refl eq_refl).
Defined.

End Plain.

(** ** From query text to dump *)

Section Pipeline.
Import GoString Lexer Strconv Parser Fmt Printer Dumps Shapes Lexemes.

Lemma string_of_rune_line (c : ascii) :
  Ascii.eqb c "010" = false -> one_line (string_of_rune c) = true.
Proof.
  destruct c as [[] [] [] [] [] [] [] []]; vm_compute; congruence.
Qed.

Lemma write_runes_line (s : string) : one_line s = true -> one_line (write_runes s) = true.
Proof.
  induction s as [|c s IH]; [reflexivity|].
  unfold one_line, no_byte. cbn [all_bytes write_runes]. intros H.
  apply andb_true_iff in H. destruct H as [Hc Hs]. apply negb_true_iff in Hc.
  apply one_line_append; [apply string_of_rune_line; assumption | apply IH; assumption].
Qed.

Lemma subseq_no_byte (d : ascii) (s t : string) :
  subseq s t -> no_byte d t = true -> no_byte d s = true.
Proof.
  unfold no_byte. induction 1 as [|c s t _ IH|c s t _ IH]; cbn [all_bytes]; intros H.
  - reflexivity.
  - apply andb_true_iff in H. destruct H as [-> H]. rewrite (IH H). reflexivity.
  - apply andb_true_iff in H. destruct H as [_ H]. auto.
Qed.

Lemma concat_values_lines (toks : list Token) :
  one_line (concat_values toks) = true ->
  forallb (fun t => one_line (Value t)) toks = true.
Proof.
  induction toks as [|t toks IH]; [reflexivity|].
  cbn [concat_values forallb]. unfold one_line at 1. rewrite no_byte_append.
  intros H. apply andb_true_iff in H. destruct H as [Ht H].
  fold (one_line (Value t)) in Ht. rewrite Ht. apply IH. exact H.
Qed.

Lemma delimiter_space (v : string) : no_delimiter v = true -> no_byte " " v = true.
Proof.
  unfold no_delimiter, no_byte. induction v as [|c v IH]; [reflexivity|].
  cbn [all_bytes]. intros H. apply andb_true_iff in H. destruct H as [Hc H].
  rewrite (IH H), andb_true_r.
  destruct (Ascii.eqb c " ") eqn:E; [|reflexivity].
  apply Ascii.eqb_eq in E. subst c. discriminate Hc.
Qed.

Lemma token_ok_dumpable (t : Token) :
  token_ok t = true -> one_line (Value t) = true -> dumpable t = true.
Proof.
  unfold token_ok, dumpable. intros Hok Hline. rewrite Hline.
  destruct (Typ t); try reflexivity.
  apply andb_true_iff in Hok. destruct Hok as [_ Hd].
  rewrite (delimiter_space _ Hd).
  destruct (String.eqb (Value t) "*") eqn:E; [|reflexivity].
  apply String.eqb_eq in E. rewrite E in Hd. discriminate Hd.
Qed.

Lemma Tokenize_dumpable (input : string) (toks : list Token) :
  one_line input = true -> Tokenize input = Some toks -> forallb dumpable toks = true.
Proof.
  unfold Tokenize. intros Hline H.
  pose proof (Tokenize_loop_tokens_ok _ _ _ EmptyString [] _ eq_refl eq_refl H) as Hok.
  apply Tokenize_loop_subseq in H. destruct H as (tail & E & Hsub).
  cbn [concat_values append skip] in E, Hsub.
  assert (Hl : forallb (fun t => one_line (Value t)) toks = true).
  { apply concat_values_lines. rewrite E.
    apply (subseq_no_byte _ _ _ Hsub). apply write_runes_line. assumption. }
  clear E Hsub. induction toks as [|t toks IH]; [reflexivity|].
  cbn [forallb] in *.
  apply andb_true_iff in Hok. destruct Hok as [Ht Hok].
  apply andb_true_iff in Hl. destruct Hl as [Hlt Hl].
  rewrite (token_ok_dumpable _ Ht Hlt). auto.
Qed.

(** X20.  For query text on one line the dump determines what was parsed:
    two texts without a line feed whose statement lists, as [ParseString]
    returns them, print the same with [PrintAST] have the same statement
    list. *)
Theorem dump_determines_statements (input1 input2 : string)
        (nodes1 nodes2 : list AstNode) (err1 err2 : option error) :
  one_line input1 = true -> one_line input2 = true ->
  ParseString input1 = Some (nodes1, err1) ->
  ParseString input2 = Some (nodes2, err2) ->
  PrintAST nodes1 = PrintAST nodes2 ->
  nodes1 = nodes2.
Proof.
  unfold ParseString, parseStatements. intros L1 L2 P1 P2 E.
  destruct (Tokenize input1) as [toks1|] eqn:T1; [|discriminate].
  destruct (Tokenize input2) as [toks2|] eqn:T2; [|discriminate].
  apply (Tokenize_dumpable _ _ L1) in T1. apply (Tokenize_dumpable _ _ L2) in T2.
  apply (parseStatements_loop_plain _ _ [] _ _ T1 eq_refl) in P1.
  apply (parseStatements_loop_plain _ _ [] _ _ T2 eq_refl) in P2.
  unfold PrintAST in E.
  destruct (PrintAST_loop_defined nodes1 0) as [out Ho].
  apply (PrintAST_loop_injective _ _ 0 out P1 P2 Ho). rewrite <- E. exact Ho.
Qed.

Lemma dump_determines_statements_witness :
  [SelectStmt [mkProjectionItem false "a"] (mkTableRef "t")
              (Some (ComparisonOp (ColumnRef "a") ">=" (LiteralString "x y"))) (Some 3%Z)]
  = [SelectStmt [mkProjectionItem false "a"] (mkTableRef "t")
                (Some (ComparisonOp (ColumnRef "a") ">=" (LiteralString "x y"))) (Some 3%Z)].
Proof.
  apply (dump_determines_statements
           "SELECT a FROM t WHERE a >= 'x y' LIMIT 3"
           "select a  from t where a >='x y' limit 3 ;" _ _ None None);
    reflexivity.
Defined.

End Pipeline.
